(** * A declarative scene interpreter: layer compositor, scene controller,
      scene state machine and animation engine

    Shallow embedding of [src/js/core/LayerManager.js] (classes
    [LayerManager] and [SceneManager]), of
    [src/js/scenes/ConfigurableScene.js] and of
    [src/js/scenes/PongScene.js].

    Conventions of the embedding:
    - a JavaScript object with identity (an entity) is a handle into a heap;
      arrays are lists; a [Map] is its entry list in insertion order, with
      emptied slots kept, as the language definition has it, so that an
      iteration that is still running sees what is appended meanwhile;
    - a JavaScript number is an exact rational or [NaN] (the value of
      arithmetic on [undefined]); rounding of binary floating point and
      the infinities are not part of the model;
    - [console] output and calls into collaborators that are not part of
      the interpreter are recorded as events. *)

From Stdlib Require Import QArith Qcanon Lqa.
From stdpp Require Import base list strings gmap.

Local Open Scope string_scope.
Local Open Scope list_scope.

(** ** Numbers *)

Inductive num : Type :=
  | Fin (q : Qc)
  | NaN.

Module Num.

Definition ofQ (q : Q) : num := Fin (Q2Qc q).
Definition ofZ (z : Z) : num := Fin (Q2Qc (inject_Z z)).

Definition zero : num := ofZ 0.
Definition one : num := ofZ 1.
Definition two : num := ofZ 2.
Definition four : num := ofZ 4.
Definition hundred : num := ofZ 100.
Definition half : num := ofQ (1 # 2).
Definition tenth : num := ofQ (1 # 10).

Definition Qc_eqb (p q : Qc) : bool := Qeq_bool p q.
Definition Qc_leb (p q : Qc) : bool := Qle_bool p q.
Definition Qc_ltb (p q : Qc) : bool := negb (Qle_bool q p).

Definition eqb (a b : num) : bool :=
  match a, b with
  | Fin p, Fin q => Qc_eqb p q
  | NaN, NaN => true
  | _, _ => false
  end.

Definition add (a b : num) : num :=
  match a, b with Fin p, Fin q => Fin (p + q)%Qc | _, _ => NaN end.
Definition sub (a b : num) : num :=
  match a, b with Fin p, Fin q => Fin (p - q)%Qc | _, _ => NaN end.
Definition mul (a b : num) : num :=
  match a, b with Fin p, Fin q => Fin (p * q)%Qc | _, _ => NaN end.
Definition neg (a : num) : num :=
  match a with Fin p => Fin (- p)%Qc | NaN => NaN end.

(** The divisors of the program are the literal 2 and the duration of an
    animation, which [_setupAnimation] never leaves at 0; a quotient by 0
    (an infinity in JavaScript) is outside the model and given as [NaN]. *)
Definition div (a b : num) : num :=
  match a, b with
  | Fin p, Fin q => if Qc_eqb q 0%Qc then NaN else Fin (p / q)%Qc
  | _, _ => NaN
  end.

(** [a < b] and [a >= b]: every comparison with [NaN] is false. *)
Definition lt (a b : num) : bool :=
  match a, b with Fin p, Fin q => Qc_ltb p q | _, _ => false end.
Definition ge (a b : num) : bool :=
  match a, b with Fin p, Fin q => Qc_leb q p | _, _ => false end.

(** [Math.min(a, b)] *)
Definition min (a b : num) : num :=
  match a, b with
  | Fin p, Fin q => if Qc_leb p q then Fin p else Fin q
  | _, _ => NaN
  end.

(** [Math.pow(a, 2)] *)
Definition sq (a : num) : num := mul a a.

(** Truthiness of a number: [0] and [NaN] are falsy. *)
Definition truthy (a : num) : bool :=
  match a with Fin p => negb (Qc_eqb p 0%Qc) | NaN => false end.

End Num.

(** ** JavaScript idioms on optional properties *)

(** [v || d] for a property that holds a number or is absent *)
Definition or_num (v : option num) (d : num) : num :=
  match v with
  | Some a => if Num.truthy a then a else d
  | None => d
  end.

(** truthiness of a property that holds a string or is absent *)
Definition truthy_str (v : option string) : bool :=
  match v with
  | Some s => negb (String.eqb s "")
  | None => false
  end.

(** [v || d] for a property that holds a string or is absent *)
Definition or_str (v : option string) (d : string) : string :=
  match v with
  | Some s => if String.eqb s "" then d else s
  | None => d
  end.

(** [v !== undefined ? v : d] *)
Definition or_undefined {A : Type} (v : option A) (d : A) : A :=
  match v with Some a => a | None => d end.

(** ** Object identity, click actions and observable events *)

Definition handle : Type := nat.

(** The [onClick] descriptor of a button configuration. *)
Record ActionConfig : Type := mkAction {
  act_action : string;
  act_target : option string;
  act_sound : option string
}.

Inductive Event : Type :=
  | Warn_UnknownLayer (layerName : string)
  | Warn_SceneNotFound (sceneName : string)
  | Warn_UnknownEntityType (type : string)
  | Warn_StateNotFound (scene stateName : string)
  | Log_EnteringState (scene : string) (stateName : option string)
  | Log_SwitchingToState (scene stateName : string)
  | Log_ButtonAction (scene : string) (action : ActionConfig)
  | Log_CustomAction (action : ActionConfig)
  | Log_Message (text : string)
  | Call_checkClick (entity : handle) (x y : num)
  | Call_playSFX (sound : string).

(** ** [Map]: entries in insertion order *)

Module JsMap.
Section JsMap.
Context {K V : Type} `{EqDecision K}.

(** [None] is a slot emptied by [clear]. *)
Definition t : Type := list (option (K * V)).

Definition empty : t := [].

Definition has_key (k : K) (e : option (K * V)) : bool :=
  match e with Some (k', _) => bool_decide (k' = k) | None => false end.

Fixpoint get (k : K) (m : t) : option V :=
  match m with
  | [] => None
  | Some (k', v) :: r => if bool_decide (k' = k) then Some v else get k r
  | None :: r => get k r
  end.

(** [m.set(k, v)]: the value of an existing key is replaced where it
    stands, a new key is appended. *)
Fixpoint set (k : K) (v : V) (m : t) : t :=
  match m with
  | [] => [Some (k, v)]
  | Some (k', v') :: r =>
      if bool_decide (k' = k) then Some (k, v) :: r
      else Some (k', v') :: set k v r
  | None :: r => None :: set k v r
  end.

(** [m.clear()] *)
Definition clear (m : t) : t := (λ _, None) <$> m.

Definition keys (m : t) : list K := fst <$> omap id m.
Definition values (m : t) : list V := snd <$> omap id m.

(** The keys of a [Map] are distinct. *)
Definition wf (m : t) : Prop := NoDup (keys m).

End JsMap.
Arguments t : clear implicits.
End JsMap.

(** ** [Array.prototype.sort] with a comparison function (stable) *)

Section Sort.
Context {A : Type}.
Variable cmp : A → A → Z.

Fixpoint sort_insert (a : A) (l : list A) : list A :=
  match l with
  | [] => [a]
  | b :: r => if (cmp a b <=? 0)%Z then a :: b :: r else b :: sort_insert a r
  end.

Definition js_sort (l : list A) : list A := foldr sort_insert [] l.
End Sort.

(** ** LayerManager *)

Module LayerManager.
Section LayerManager.
(** [val] is the type of the values handed in as entities, compared as
    [Array.prototype.includes] and [indexOf] compare object references;
    [has_render e] is [e && typeof e.render === 'function']. *)
Context {val : Type} `{EqDecision val}.
Variable has_render : val → bool.

(** [this.LAYERS], with its keys in the order they are written. *)
Definition LAYERS : list (string * Z) :=
  [ ("BG_FAR", 0%Z); ("BG_NEAR", 1%Z); ("VIDEO_IMAGE", 2%Z);
    ("SHAPES", 3%Z); ("SPRITES", 4%Z); ("TEXT", 5%Z); ("UI_BUTTONS", 6%Z) ].

Definition Object_keys : list string := LAYERS.*1.

Definition hasOwnProperty (layerName : string) : bool :=
  bool_decide (layerName ∈ Object_keys).

(** [this.LAYERS[name]]; the program reads it at own keys only. *)
Definition LAYERS_at (layerName : string) : Z :=
  default 0%Z (snd <$> find (λ p, bool_decide (p.1 = layerName)) LAYERS).

Record t : Type := mk { layerEntities : gmap string (list val) }.

Definition constructor : t :=
  mk (foldl (λ m layer, <[layer := []]> m) ∅ Object_keys).

(** Every own key of [LAYERS] is a key of [layerEntities] from the
    constructor on; the [None] branches below are the reads of an
    absent layer, which never happen. *)
Definition addToLayer (entity : val) (layerName : string) (lm : t)
  : t * list Event :=
  if negb (hasOwnProperty layerName) then (lm, [Warn_UnknownLayer layerName])
  else
    match layerEntities lm !! layerName with
    | Some es =>
        if negb (bool_decide (entity ∈ es))
        then (mk (<[layerName := es ++ [entity]]> (layerEntities lm)), [])
        else (lm, [])
    | None => (lm, [])
    end.

(** [es.indexOf(entity)] followed by [es.splice(index, 1)] *)
Fixpoint remove_first (entity : val) (es : list val) : list val :=
  match es with
  | [] => []
  | e :: r => if bool_decide (e = entity) then r else e :: remove_first entity r
  end.

Definition removeFromLayer (entity : val) (layerName : string) (lm : t) : t :=
  if negb (hasOwnProperty layerName) then lm
  else
    match layerEntities lm !! layerName with
    | Some es => mk (<[layerName := remove_first entity es]> (layerEntities lm))
    | None => lm
    end.

Definition clearLayer (layerName : string) (lm : t) : t :=
  if hasOwnProperty layerName
  then mk (<[layerName := []]> (layerEntities lm))
  else lm.

Definition clearAll (lm : t) : t :=
  mk (foldl (λ m layer, <[layer := []]> m) (layerEntities lm) Object_keys).

Definition sortedLayers : list string :=
  js_sort (λ a b, (LAYERS_at a - LAYERS_at b)%Z) Object_keys.

(** [render(ctx)]: the entities whose [render] is invoked, in order. *)
Definition render (lm : t) : list val :=
  flat_map
    (λ layerName,
       match layerEntities lm !! layerName with
       | Some es => filter (λ e, has_render e = true) es
       | None => []
       end)
    sortedLayers.

(** A run of [addToLayer] calls, in call order. *)
Definition addAll (calls : list (val * string)) (lm : t) : t :=
  foldl (λ lm c, (addToLayer c.1 c.2 lm).1) lm calls.

(** The compositors a program can build. *)
Inductive reachable : t → Prop :=
  | reach_constructor : reachable constructor
  | reach_addToLayer e n lm :
      reachable lm → reachable (addToLayer e n lm).1
  | reach_removeFromLayer e n lm :
      reachable lm → reachable (removeFromLayer e n lm)
  | reach_clearLayer n lm : reachable lm → reachable (clearLayer n lm)
  | reach_clearAll lm : reachable lm → reachable (clearAll lm).

(** *** Vocabulary of the statements *)

(** The entities handed to one layer by a run of calls, in call order. *)
Definition callsOn (layerName : string) (calls : list (val * string))
  : list val :=
  (filter (λ c, c.2 = layerName) calls).*1.

(** Each entity once, at the place of its first occurrence. *)
Fixpoint first_occurrences (es : list val) : list val :=
  match es with
  | [] => []
  | e :: r => e :: filter (λ e', e' ≠ e) (first_occurrences r)
  end.

Definition occurrences (e : val) (es : list val) : nat :=
  length (filter (λ e', e' = e) es).

(** The occurrences of an entity in the layers other than [layerName]. *)
Definition elsewhere (e : val) (layerName : string) (lm : t) : nat :=
  occurrences e
    (flat_map
       (λ n, if bool_decide (n = layerName) then []
             else default [] (layerEntities lm !! n))
       sortedLayers).

(** What [addToLayer] does to the array of the layer it names. *)
Definition push_new (es : list val) (e : val) : list val :=
  if negb (bool_decide (e ∈ es)) then es ++ [e] else es.

End LayerManager.
End LayerManager.

(** ** SceneManager *)

Module SceneManager.
Section SceneManager.
Context {val : Type} `{EqDecision val}.
(** [U] is the part of the program state that belongs to the scenes. *)
Context {U : Type}.

(** A scene object, by identity. *)
Definition SceneRef : Type := nat.

(** The engine with its scene manager: [engine.layerManager],
    [sceneManager.currentScene], [sceneManager.scenes], the console. *)
Record Engine : Type := mkEngine {
  layerManager : LayerManager.t (val := val);
  currentScene : option SceneRef;
  scenes : JsMap.t string SceneRef;
  console : list Event;
  scene_state : U
}.

(** What a scene object offers: [setEngine] is called without a test,
    the other members are called when [typeof] finds a function. *)
Record Scene : Type := mkScene {
  exit : option (Engine → Engine);
  setEngine : Engine → Engine;
  enter : option (Engine → Engine);
  populateLayers : option (Engine → Engine);
  update : option (num → Engine → Engine)
}.

Variable scene_at : SceneRef → Scene.

Definition set_layerManager (lm : LayerManager.t) (eng : Engine) : Engine :=
  mkEngine lm (currentScene eng) (scenes eng) (console eng) (scene_state eng).
Definition set_currentScene (s : option SceneRef) (eng : Engine) : Engine :=
  mkEngine (layerManager eng) s (scenes eng) (console eng) (scene_state eng).
Definition set_scenes (m : JsMap.t string SceneRef) (eng : Engine) : Engine :=
  mkEngine (layerManager eng) (currentScene eng) m (console eng) (scene_state eng).
Definition warn (ev : Event) (eng : Engine) : Engine :=
  mkEngine (layerManager eng) (currentScene eng) (scenes eng)
           (console eng ++ [ev]) (scene_state eng).

(** A call of an optional member. *)
Definition call (hook : option (Engine → Engine)) (eng : Engine) : Engine :=
  match hook with Some f => f eng | None => eng end.

Definition register (name : string) (scene : SceneRef) (eng : Engine) : Engine :=
  set_scenes (JsMap.set name scene (scenes eng)) eng.

(** The six steps of [changeScene(newScene)], in the order of the source. *)
Definition exit_current (eng : Engine) : Engine :=
  match currentScene eng with
  | Some cur => call (exit (scene_at cur)) eng
  | None => eng
  end.

Definition bind_engine (newScene : option SceneRef) (eng : Engine) : Engine :=
  match newScene with
  | Some s => setEngine (scene_at s) eng
  | None => eng
  end.

Definition clear_compositor (eng : Engine) : Engine :=
  set_layerManager (LayerManager.clearAll (layerManager eng)) eng.

Definition enter_new (newScene : option SceneRef) (eng : Engine) : Engine :=
  match newScene with
  | Some s => call (enter (scene_at s)) eng
  | None => eng
  end.

Definition populate_new (newScene : option SceneRef) (eng : Engine) : Engine :=
  match newScene with
  | Some s => call (populateLayers (scene_at s)) eng
  | None => eng
  end.

Definition changeScene (newScene : option SceneRef) (eng : Engine) : Engine :=
  let eng := exit_current eng in
  let eng := bind_engine newScene eng in
  let eng := clear_compositor eng in
  let eng := set_currentScene newScene eng in
  let eng := enter_new newScene eng in
  populate_new newScene eng.

Definition switchTo (sceneName : string) (eng : Engine) : Engine :=
  match JsMap.get sceneName (scenes eng) with
  | None => warn (Warn_SceneNotFound sceneName) eng
  | Some scene => changeScene (Some scene) eng
  end.

Definition getCurrentScene (eng : Engine) : option SceneRef := currentScene eng.

(** [update(deltaTime)] of the scene manager *)
Definition update_current (deltaTime : num) (eng : Engine) : Engine :=
  match currentScene eng with
  | Some cur =>
      match update (scene_at cur) with
      | Some f => f deltaTime eng
      | None => eng
      end
  | None => eng
  end.

End SceneManager.
Arguments Engine : clear implicits.
Arguments Scene : clear implicits.
End SceneManager.

(** ** ConfigurableScene *)

Module ConfigurableScene.

(** *** The configuration document *)

Record AnimConfig : Type := mkAnimConfig {
  anim_type : string;
  anim_duration : option num;
  anim_delay : option num;
  anim_easing : option string;
  anim_direction : option string
}.

(** An entity configuration. A configuration without a [type] behaves as
    one whose [type] is none of the four known names. *)
Record EntityConfig : Type := mkEntityConfig {
  cfg_type : string;
  cfg_id : option string;
  cfg_x : option num;
  cfg_y : option num;
  cfg_width : option num;
  cfg_height : option num;
  cfg_assetId : option string;
  cfg_rotation : option num;
  cfg_alpha : option num;
  cfg_scaleX : option num;
  cfg_scaleY : option num;
  cfg_visible : option bool;
  cfg_text : option string;
  cfg_color : option string;
  cfg_onClick : option ActionConfig;
  cfg_content : option string;
  cfg_font : option string;
  cfg_textAlign : option string;
  cfg_shape : option string;
  cfg_radius : option num;
  cfg_fill : option bool;
  cfg_strokeWidth : option num;
  cfg_animation : option AnimConfig
}.

Record Transition : Type := mkTransition {
  tr_type : string;
  tr_duration : option num;
  tr_nextState : option string;
  tr_nextScene : option string
}.

(** The value under a layer name in [state.layers]. *)
Inductive LayerValue : Type :=
  | IsArray (configs : list EntityConfig)
  | NotArray.

Record StateConfig : Type := mkState {
  st_name : string;
  st_clearLayers : bool;
  st_layers : option (list (string * LayerValue));
  st_transition : option Transition
}.

Record SceneConfig : Type := mkSceneConfig {
  sceneName : option string;
  cfg_canvasSize : option (num * num);
  cfg_states : option (list StateConfig)
}.

(** *** Entities *)

Inductive Kind : Type :=
  | Sprite (image : option string)
  | Button (text color : string) (onClick : option ActionConfig)
  | Text (content font color textAlign : string)
  | Shape (shape : string) (radius : num) (color : string) (fill : bool)
          (strokeWidth : num).

(** The attributes the interpreter reads and writes. A text object has
    no [width], [height], [scaleX], [scaleY]; a shape object has no
    [scaleX], [scaleY]: reading them gives [undefined]. *)
Record Entity : Type := mkEntity {
  kind : Kind;
  x : num;
  y : num;
  width : option num;
  height : option num;
  rotation : option num;
  alpha : num;
  scaleX : option num;
  scaleY : option num;
  visible : bool
}.

Definition set_x (v : num) (e : Entity) : Entity :=
  mkEntity (kind e) v (y e) (width e) (height e) (rotation e) (alpha e)
           (scaleX e) (scaleY e) (visible e).
Definition set_y (v : num) (e : Entity) : Entity :=
  mkEntity (kind e) (x e) v (width e) (height e) (rotation e) (alpha e)
           (scaleX e) (scaleY e) (visible e).
Definition set_rotation (v : num) (e : Entity) : Entity :=
  mkEntity (kind e) (x e) (y e) (width e) (height e) (Some v) (alpha e)
           (scaleX e) (scaleY e) (visible e).
Definition set_alpha (v : num) (e : Entity) : Entity :=
  mkEntity (kind e) (x e) (y e) (width e) (height e) (rotation e) v
           (scaleX e) (scaleY e) (visible e).
Definition set_scaleX (v : num) (e : Entity) : Entity :=
  mkEntity (kind e) (x e) (y e) (width e) (height e) (rotation e) (alpha e)
           (Some v) (scaleY e) (visible e).
Definition set_scaleY (v : num) (e : Entity) : Entity :=
  mkEntity (kind e) (x e) (y e) (width e) (height e) (rotation e) (alpha e)
           (scaleX e) (Some v) (visible e).
Definition set_visible (v : bool) (e : Entity) : Entity :=
  mkEntity (kind e) (x e) (y e) (width e) (height e) (rotation e) (alpha e)
           (scaleX e) (scaleY e) v.

(** The number read from a property that may be absent:
    arithmetic on [undefined] is arithmetic on [NaN]. *)
Definition to_num (v : option num) : num := default NaN v.

(** Modelled from the spec: [Sprite] ([entities/Sprite.js]) is absent. A
    sprite is built from a position and a size and has the defaults of
    section 4.4 (opacity 1, visible), no rotation and unit scale. *)
Definition new_Sprite (x y width height : num) : Entity :=
  mkEntity (Sprite None) x y (Some width) (Some height) (Some Num.zero)
           Num.one (Some Num.one) (Some Num.one) true.

(** Modelled from the spec: [Button] ([entities/Button.js]) is absent. A
    button keeps the position, size, label, colour, opacity and click
    action it is built with. *)
Definition new_Button (x y width height : num) (text color : string)
    (alpha : num) (onClick : option ActionConfig) : Entity :=
  mkEntity (Button text color onClick) x y (Some width) (Some height) None
           alpha None None true.

(** [typeof entity.render === 'function']: the text and shape objects
    carry [render]. Modelled from the spec: the absent classes [Sprite]
    and [Button] expose a render capability. *)
Definition has_render (e : Entity) : bool :=
  match kind e with
  | Sprite _ | Button _ _ _ | Text _ _ _ _ | Shape _ _ _ _ _ => true
  end.

(** [entity.checkClick] is truthy: the text and shape objects have no
    such member. Modelled from the spec: of the two absent classes,
    [Button] is the one with a click capability. *)
Definition has_checkClick (e : Entity) : bool :=
  match kind e with
  | Button _ _ _ => true
  | _ => false
  end.

(** *** Animations *)

Record Animation : Type := mkAnimation {
  type : string;
  duration : num;
  delay : num;
  easing : string;
  direction : string;
  elapsed : num;
  started : bool;
  completed : bool;
  initialAlpha : num;
  initialX : num;
  initialY : num;
  initialScaleX : num;
  initialScaleY : num
}.

Definition set_elapsed (v : num) (a : Animation) : Animation :=
  mkAnimation (type a) (duration a) (delay a) (easing a) (direction a) v
              (started a) (completed a) (initialAlpha a) (initialX a)
              (initialY a) (initialScaleX a) (initialScaleY a).
Definition set_completed (v : bool) (a : Animation) : Animation :=
  mkAnimation (type a) (duration a) (delay a) (easing a) (direction a)
              (elapsed a) (started a) v (initialAlpha a) (initialX a)
              (initialY a) (initialScaleX a) (initialScaleY a).

(** *** The scene and what it works on *)

Record Mouse : Type := mkMouse {
  mouse_x : num;
  mouse_y : num;
  pressed : bool
}.

Record World : Type := mkWorld {
  heap : list Entity;
  layerManager : LayerManager.t (val := handle);
  name : string;
  canvasSize : num * num;
  states : list StateConfig;
  currentStateIndex : nat;
  currentStateName : option string;
  stateTimer : num;
  entities : JsMap.t string handle;
  entityAnimations : JsMap.t handle Animation;
  console : list Event
}.

Definition set_heap (v : list Entity) (w : World) : World :=
  mkWorld v (layerManager w) (name w) (canvasSize w) (states w)
          (currentStateIndex w) (currentStateName w) (stateTimer w)
          (entities w) (entityAnimations w) (console w).
Definition set_layerManager (v : LayerManager.t) (w : World) : World :=
  mkWorld (heap w) v (name w) (canvasSize w) (states w)
          (currentStateIndex w) (currentStateName w) (stateTimer w)
          (entities w) (entityAnimations w) (console w).
Definition set_name (v : string) (w : World) : World :=
  mkWorld (heap w) (layerManager w) v (canvasSize w) (states w)
          (currentStateIndex w) (currentStateName w) (stateTimer w)
          (entities w) (entityAnimations w) (console w).
Definition set_canvasSize (v : num * num) (w : World) : World :=
  mkWorld (heap w) (layerManager w) (name w) v (states w)
          (currentStateIndex w) (currentStateName w) (stateTimer w)
          (entities w) (entityAnimations w) (console w).
Definition set_states (v : list StateConfig) (w : World) : World :=
  mkWorld (heap w) (layerManager w) (name w) (canvasSize w) v
          (currentStateIndex w) (currentStateName w) (stateTimer w)
          (entities w) (entityAnimations w) (console w).
Definition set_currentStateIndex (v : nat) (w : World) : World :=
  mkWorld (heap w) (layerManager w) (name w) (canvasSize w) (states w)
          v (currentStateName w) (stateTimer w)
          (entities w) (entityAnimations w) (console w).
Definition set_currentStateName (v : option string) (w : World) : World :=
  mkWorld (heap w) (layerManager w) (name w) (canvasSize w) (states w)
          (currentStateIndex w) v (stateTimer w)
          (entities w) (entityAnimations w) (console w).
Definition set_stateTimer (v : num) (w : World) : World :=
  mkWorld (heap w) (layerManager w) (name w) (canvasSize w) (states w)
          (currentStateIndex w) (currentStateName w) v
          (entities w) (entityAnimations w) (console w).
Definition set_entities (v : JsMap.t string handle) (w : World) : World :=
  mkWorld (heap w) (layerManager w) (name w) (canvasSize w) (states w)
          (currentStateIndex w) (currentStateName w) (stateTimer w)
          v (entityAnimations w) (console w).
Definition set_entityAnimations (v : JsMap.t handle Animation) (w : World)
  : World :=
  mkWorld (heap w) (layerManager w) (name w) (canvasSize w) (states w)
          (currentStateIndex w) (currentStateName w) (stateTimer w)
          (entities w) v (console w).
Definition emit (evs : list Event) (w : World) : World :=
  mkWorld (heap w) (layerManager w) (name w) (canvasSize w) (states w)
          (currentStateIndex w) (currentStateName w) (stateTimer w)
          (entities w) (entityAnimations w) (console w ++ evs).

(** What a call of [update] comes to: it returns, or the budget of loop
    turns is used up before it does ([w] is the world reached so far). *)
Inductive Outcome : Type :=
  | Done (w : World)
  | OutOfFuel (w : World).

Definition world_of (o : Outcome) : World :=
  match o with Done w | OutOfFuel w => w end.

(** [new ConfigurableScene(name)], bound to an engine whose compositor
    is [lm]. *)
Definition constructor (name : string) (lm : LayerManager.t) : World :=
  mkWorld [] lm name (Num.ofZ 1080, Num.ofZ 1920) [] 0 None Num.zero
          JsMap.empty JsMap.empty [].

Definition loadFromConfig (config : SceneConfig) (w : World) : World :=
  let w := set_name (or_str (sceneName config) "ConfigurableScene") w in
  let w := match cfg_canvasSize config with
           | Some size => set_canvasSize size w
           | None => w
           end in
  set_states (default [] (cfg_states config)) w.

Definition getCurrentStateName (w : World) : option string :=
  currentStateName w.

Definition getEntity (id : string) (w : World) : option handle :=
  JsMap.get id (entities w).

Section Interpreter.

(** [Math.sin] *)
Variable Math_sin : num → num.
(** [this.engine.assetLoader.getImage(id)] gives an image *)
Variable getImage : string → bool.
(** [this.engine.audioManager] is there *)
Variable audioManager : bool.
(** Modelled from the spec: [Button.checkClick] ([entities/Button.js]) is
    absent; it tests a point and invokes the button's action on a hit.
    [Button_hit e x y] is the test of the point. *)
Variable Button_hit : Entity → num → num → bool.
(** Modelled from the spec: [Scene.switchScene] ([scenes/Scene.js]) is
    absent; it hands the request to the scene controller. What
    the switch does to this scene depends on the scene that is entered. *)
Variable switchScene : string → World → World.

(** *** Entity factory *)

Definition _createSprite (config : EntityConfig) : Entity :=
  let sprite := new_Sprite (or_num (cfg_x config) Num.zero)
                           (or_num (cfg_y config) Num.zero)
                           (or_num (cfg_width config) Num.zero)
                           (or_num (cfg_height config) Num.zero) in
  let sprite :=
    if truthy_str (cfg_assetId config) && getImage (default "" (cfg_assetId config))
    then mkEntity (Sprite (cfg_assetId config)) (x sprite) (y sprite)
                  (width sprite) (height sprite) (rotation sprite)
                  (alpha sprite) (scaleX sprite) (scaleY sprite)
                  (visible sprite)
    else sprite in
  let sprite := match cfg_rotation config with
                | Some v => set_rotation v sprite | None => sprite end in
  let sprite := match cfg_alpha config with
                | Some v => set_alpha v sprite | None => sprite end in
  let sprite := match cfg_scaleX config with
                | Some v => set_scaleX v sprite | None => sprite end in
  let sprite := match cfg_scaleY config with
                | Some v => set_scaleY v sprite | None => sprite end in
  match cfg_visible config with
  | Some v => set_visible v sprite | None => sprite end.

Definition _createButton (config : EntityConfig) : Entity :=
  new_Button (or_num (cfg_x config) Num.zero)
             (or_num (cfg_y config) Num.zero)
             (or_num (cfg_width config) (Num.ofZ 200))
             (or_num (cfg_height config) (Num.ofZ 80))
             (or_str (cfg_text config) "")
             (or_str (cfg_color config) "#4a90e2")
             (or_undefined (cfg_alpha config) Num.one)
             (cfg_onClick config).

Definition _createText (config : EntityConfig) : Entity :=
  mkEntity (Text (or_str (cfg_content config) "")
                 (or_str (cfg_font config) "48px Arial")
                 (or_str (cfg_color config) "#ffffff")
                 (or_str (cfg_textAlign config) "left"))
           (or_num (cfg_x config) Num.zero)
           (or_num (cfg_y config) Num.zero)
           None None None
           (or_undefined (cfg_alpha config) Num.one)
           None None
           (or_undefined (cfg_visible config) true).

Definition _createShape (config : EntityConfig) : Entity :=
  mkEntity (Shape (or_str (cfg_shape config) "rect")
                  (or_num (cfg_radius config) (Num.ofZ 50))
                  (or_str (cfg_color config) "#ffffff")
                  (or_undefined (cfg_fill config) true)
                  (or_num (cfg_strokeWidth config) Num.one))
           (or_num (cfg_x config) Num.zero)
           (or_num (cfg_y config) Num.zero)
           (Some (or_num (cfg_width config) Num.hundred))
           (Some (or_num (cfg_height config) Num.hundred))
           None
           (or_undefined (cfg_alpha config) Num.one)
           None None
           (or_undefined (cfg_visible config) true).

(** The entity, or [null] with a warning. *)
Definition _createEntity (config : EntityConfig) : option Entity * list Event :=
  if String.eqb (cfg_type config) "sprite" then (Some (_createSprite config), [])
  else if String.eqb (cfg_type config) "button" then (Some (_createButton config), [])
  else if String.eqb (cfg_type config) "text" then (Some (_createText config), [])
  else if String.eqb (cfg_type config) "shape" then (Some (_createShape config), [])
  else (None, [Warn_UnknownEntityType (cfg_type config)]).

(** *** Animation engine *)

Definition _lerp (start end_ t : num) : num :=
  Num.add start (Num.mul (Num.sub end_ start) t).

Definition _applyEasing (t : num) (easing : string) : num :=
  if String.eqb easing "easeIn" then Num.mul t t
  else if String.eqb easing "easeOut" then
    Num.sub Num.one (Num.mul (Num.sub Num.one t) (Num.sub Num.one t))
  else if String.eqb easing "easeInOut" then
    if Num.lt t Num.half
    then Num.mul (Num.mul Num.two t) t
    else Num.sub Num.one
           (Num.div (Num.sq (Num.add (Num.mul (Num.neg Num.two) t) Num.two))
                    Num.two)
  else t.

Definition _setSlideInStart (canvas : num * num) (entity : Entity)
    (animation : Animation) : Entity :=
  if String.eqb (direction animation) "top" then
    set_y (Num.sub (Num.neg (to_num (height entity))) Num.hundred) entity
  else if String.eqb (direction animation) "bottom" then
    set_y (Num.add canvas.2 Num.hundred) entity
  else if String.eqb (direction animation) "left" then
    set_x (Num.sub (Num.neg (to_num (width entity))) Num.hundred) entity
  else if String.eqb (direction animation) "right" then
    set_x (Num.add canvas.1 Num.hundred) entity
  else entity.

(** [_setupAnimation] on the entity object: the entity in its start
    appearance, and the animation record. *)
Definition setupAnimation_on (canvas : num * num) (entity : Entity)
    (animConfig : AnimConfig) : Entity * Animation :=
  let animation :=
    mkAnimation (anim_type animConfig)
                (or_num (anim_duration animConfig) Num.one)
                (or_num (anim_delay animConfig) Num.zero)
                (or_str (anim_easing animConfig) "linear")
                (or_str (anim_direction animConfig) "top")
                Num.zero false false
                (alpha entity) (x entity) (y entity)
                (or_num (scaleX entity) Num.one)
                (or_num (scaleY entity) Num.one) in
  let entity :=
    if String.eqb (anim_type animConfig) "fadeIn" then set_alpha Num.zero entity
    else if String.eqb (anim_type animConfig) "fadeOut" then entity
    else if String.eqb (anim_type animConfig) "slideIn" then
      _setSlideInStart canvas entity animation
    else if String.eqb (anim_type animConfig) "scale" then
      set_scaleY Num.zero (set_scaleX Num.zero entity)
    else entity in
  (entity, animation).

Definition _setupAnimation (entity : handle) (animConfig : AnimConfig)
    (w : World) : World :=
  match heap w !! entity with
  | Some e =>
      let '(e', animation) := setupAnimation_on (canvasSize w) e animConfig in
      set_entityAnimations
        (JsMap.set entity animation (entityAnimations w))
        (set_heap (<[entity := e']> (heap w)) w)
  | None => w
  end.

Definition _updateSlideIn (entity : Entity) (anim : Animation)
    (progress : num) : Entity :=
  if String.eqb (direction anim) "top" || String.eqb (direction anim) "bottom"
  then
    let entity :=
      set_y (Num.add (initialY anim)
               (Num.mul (Num.sub (initialY anim) (y entity))
                        (Num.sub Num.one (Num.sub Num.one progress))))
            entity in
    set_y (_lerp (y entity) (initialY anim) progress) entity
  else if String.eqb (direction anim) "left" || String.eqb (direction anim) "right"
  then set_x (_lerp (x entity) (initialX anim) progress) entity
  else entity.

(** One turn of the loop of [_updateAnimations], on the entity and its
    animation record. *)
Definition animate (dt : num) (entity : Entity) (anim : Animation)
  : Entity * Animation :=
  if completed anim then (entity, anim)
  else
    let anim := set_elapsed (Num.add (elapsed anim) dt) anim in
    if Num.lt (elapsed anim) (delay anim) then (entity, anim)
    else
      let effectiveElapsed := Num.sub (elapsed anim) (delay anim) in
      let progress := Num.min (Num.div effectiveElapsed (duration anim)) Num.one in
      let easedProgress := _applyEasing progress (easing anim) in
      let entity :=
        if String.eqb (type anim) "fadeIn" then
          set_alpha (Num.mul easedProgress (initialAlpha anim)) entity
        else if String.eqb (type anim) "fadeOut" then
          set_alpha (Num.mul (initialAlpha anim) (Num.sub Num.one easedProgress))
                    entity
        else if String.eqb (type anim) "slideIn" then
          _updateSlideIn entity anim easedProgress
        else if String.eqb (type anim) "scale" then
          set_scaleY (Num.mul easedProgress (initialScaleY anim))
            (set_scaleX (Num.mul easedProgress (initialScaleX anim)) entity)
        else if String.eqb (type anim) "pulse" then
          let pulse :=
            Num.add Num.one
              (Num.mul (Math_sin (Num.mul effectiveElapsed Num.four)) Num.tenth) in
          set_scaleY (Num.mul (initialScaleY anim) pulse)
            (set_scaleX (Num.mul (initialScaleX anim) pulse) entity)
        else entity in
      let anim :=
        if Num.ge progress Num.one && negb (String.eqb (type anim) "pulse")
        then set_completed true anim
        else anim in
      (entity, anim).

(** The loop of [_updateAnimations] over the entries of the map: every
    turn writes to the entity of its entry and to its animation record. *)
Fixpoint animate_entries (dt : num) (entries : JsMap.t handle Animation)
    (heap : list Entity) : JsMap.t handle Animation * list Entity :=
  match entries with
  | [] => ([], heap)
  | None :: rest =>
      let '(rest', heap') := animate_entries dt rest heap in
      (None :: rest', heap')
  | Some (entity, anim) :: rest =>
      match heap !! entity with
      | Some e =>
          let '(e', anim') := animate dt e anim in
          let '(rest', heap') :=
            animate_entries dt rest (<[entity := e']> heap) in
          (Some (entity, anim') :: rest', heap')
      | None =>
          let '(rest', heap') := animate_entries dt rest heap in
          (Some (entity, anim) :: rest', heap')
      end
  end.

Definition _updateAnimations (dt : num) (w : World) : World :=
  let '(anims, heap') := animate_entries dt (entityAnimations w) (heap w) in
  set_entityAnimations anims (set_heap heap' w).

(** *** State machine *)

(** [super.enter()] and [super.exit()] belong to the absent base class
    and the unloading of assets to the asset loader; they have no part
    in the state kept here. *)
Definition enter (w : World) : World :=
  let w := set_stateTimer Num.zero (set_currentStateIndex 0 w) in
  match states w with
  | st :: _ =>
      emit [Log_EnteringState (name w) (Some (st_name st))]
           (set_currentStateName (Some (st_name st)) w)
  | [] => w
  end.

Definition exit (w : World) : World :=
  set_entityAnimations (JsMap.clear (entityAnimations w))
    (set_entities (JsMap.clear (entities w)) w).

(** The body of the inner loop of [_setupState]. *)
Definition setupEntity (layerName : string) (entityConfig : EntityConfig)
    (w : World) : World :=
  match _createEntity entityConfig with
  | (Some e, evs) =>
      let entity : handle := length (heap w) in
      let w := emit evs (set_heap (heap w ++ [e]) w) in
      let '(lm, warnings) :=
        LayerManager.addToLayer entity layerName (layerManager w) in
      let w := emit warnings (set_layerManager lm w) in
      let w := if truthy_str (cfg_id entityConfig)
               then set_entities
                      (JsMap.set (default "" (cfg_id entityConfig)) entity
                                 (entities w)) w
               else w in
      match cfg_animation entityConfig with
      | Some animConfig => _setupAnimation entity animConfig w
      | None => w
      end
  | (None, evs) => emit evs w
  end.

Definition setupLayer (w : World) (layer : string * LayerValue) : World :=
  match layer.2 with
  | IsArray configs => foldl (λ w config, setupEntity layer.1 config w) w configs
  | NotArray => w
  end.

Definition _setupState (state : StateConfig) (w : World) : World :=
  let w :=
    if st_clearLayers state
    then set_entityAnimations (JsMap.clear (entityAnimations w))
           (set_entities (JsMap.clear (entities w))
              (set_layerManager (LayerManager.clearAll (layerManager w)) w))
    else w in
  match st_layers state with
  | None => w
  | Some layers => foldl setupLayer w layers
  end.

Definition populateLayers (w : World) : World :=
  match states w with
  | st :: _ => _setupState st w
  | [] => w
  end.

(** [this.states.findIndex(s => s.name === stateName)] *)
Fixpoint findIndex (stateName : string) (sts : list StateConfig) : option nat :=
  match sts with
  | [] => None
  | s :: r =>
      if String.eqb (st_name s) stateName then Some 0
      else S <$> findIndex stateName r
  end.

Definition _switchToState (stateName : string) (w : World) : World :=
  match findIndex stateName (states w) with
  | None => emit [Warn_StateNotFound (name w) stateName] w
  | Some stateIndex =>
      let w := emit [Log_SwitchingToState (name w) stateName] w in
      let w := set_currentStateIndex stateIndex w in
      let w := set_currentStateName (Some stateName) w in
      let w := set_stateTimer Num.zero w in
      match states w !! stateIndex with
      | Some st => _setupState st w
      | None => w
      end
  end.

Definition _handleTransition (transition : Transition) (w : World) : World :=
  if truthy_str (tr_nextScene transition)
  then switchScene (default "" (tr_nextScene transition)) w
  else if truthy_str (tr_nextState transition)
  then _switchToState (default "" (tr_nextState transition)) w
  else w.

Definition _handleButtonAction (action : ActionConfig) (w : World) : World :=
  let w := emit [Log_ButtonAction (name w) action] w in
  if String.eqb (act_action action) "switchScene" then
    if truthy_str (act_target action)
    then switchScene (default "" (act_target action)) w else w
  else if String.eqb (act_action action) "switchState" then
    if truthy_str (act_target action)
    then _switchToState (default "" (act_target action)) w else w
  else if String.eqb (act_action action) "playSound" then
    if truthy_str (act_sound action) && audioManager
    then emit [Call_playSFX (default "" (act_sound action))] w else w
  else if String.eqb (act_action action) "custom" then
    emit [Log_CustomAction action] w
  else w.

(** Modelled from the spec: [Button.checkClick] is absent; see
    [Button_hit]. The handler of a button is the closure
    [() => this._handleButtonAction(config.onClick)]. *)
Definition checkClick (entity : handle) (x y : num) (w : World) : World :=
  let w := emit [Call_checkClick entity x y] w in
  match heap w !! entity with
  | Some e =>
      if Button_hit e x y then
        match kind e with
        | Button _ _ (Some action) => _handleButtonAction action w
        | _ => w
        end
      else w
  | None => w
  end.

(** The loop of [_handleButtonClicks] from entry [index] on. It reads the
    entry list of [this.entities] anew at every turn: what a click clears
    and adds is seen by the turns that follow. *)
Fixpoint handleButtonClicks_from (fuel : nat) (index : nat) (x y : num)
    (w : World) : Outcome :=
  match fuel with
  | 0 => OutOfFuel w
  | S fuel =>
      match entities w !! index with
      | None => Done w
      | Some None => handleButtonClicks_from fuel (S index) x y w
      | Some (Some (_, entity)) =>
          let w :=
            match heap w !! entity with
            | Some e => if has_checkClick e then checkClick entity x y w else w
            | None => w
            end in
          handleButtonClicks_from fuel (S index) x y w
      end
  end.

Definition _handleButtonClicks (fuel : nat) (mouse : Mouse) (w : World)
  : Outcome :=
  handleButtonClicks_from fuel 0 (mouse_x mouse) (mouse_y mouse) w.

(** The last statement of [update]: the test of the timer transition of
    [currentState], the state that was current when [update] began. *)
Definition checkTransition (currentState : StateConfig) (w : World) : World :=
  match st_transition currentState with
  | Some transition =>
      if String.eqb (tr_type transition) "timer" then
        if Num.ge (stateTimer w) (to_num (tr_duration transition))
        then _handleTransition transition w
        else w
      else w
  | None => w
  end.

Definition update (fuel : nat) (mouse : Mouse) (dt : num) (w : World)
  : Outcome :=
  match states w with
  | [] => Done w
  | _ =>
      match states w !! currentStateIndex w with
      | None => Done w
      | Some currentState =>
          let w := set_stateTimer (Num.add (stateTimer w) dt) w in
          let w := _updateAnimations dt w in
          let clicks :=
            if pressed mouse then _handleButtonClicks fuel mouse w
            else Done w in
          match clicks with
          | Done w => Done (checkTransition currentState w)
          | OutOfFuel w => OutOfFuel w
          end
      end
  end.

(** *** Vocabulary of the statements *)

(** A run of frames, seen from the animation engine. *)
Definition animation_ticks (dts : list num) (w : World) : World :=
  foldl (λ w dt, _updateAnimations dt w) w dts.

(** A run of [update] calls under one pointer state. *)
Definition updates (fuel : nat) (mouse : Mouse) (dts : list num) (w : World)
  : World :=
  foldl (λ w dt, world_of (update fuel mouse dt w)) w dts.

(** The timer, advanced by each of [dts] in turn, never reaches
    [duration]. *)
Fixpoint stays_below (duration timer : num) (dts : list num) : Prop :=
  match dts with
  | [] => True
  | dt :: rest =>
      Num.ge (Num.add timer dt) duration = false
      ∧ stays_below duration (Num.add timer dt) rest
  end.

(** The entities recorded in the id-keyed map. *)
Definition tracked (w : World) : list handle := JsMap.values (entities w).

(** [checkClick] has been called on the entity. *)
Definition click_tested (entity : handle) (w : World) : Prop :=
  ∃ x y, Call_checkClick entity x y ∈ console w.

(** Events other than calls of [checkClick]. *)
Definition silent (evs : list Event) : Prop :=
  ∀ h x y, Call_checkClick h x y ∉ evs.

(** Handles that are recorded or logged are handles of the heap. *)
Definition well_formed (w : World) : Prop :=
  (∀ h, h ∈ tracked w → h < length (heap w))
  ∧ (∀ h x y, Call_checkClick h x y ∈ console w → h < length (heap w)).

(** What the host and the scene itself can do to a scene. *)
Inductive step : World → World → Prop :=
  | step_update fuel mouse dt w : step w (world_of (update fuel mouse dt w))
  | step_switchToState stateName w : step w (_switchToState stateName w)
  | step_setupEntity layerName config w : step w (setupEntity layerName config w)
  | step_setupState state w : step w (_setupState state w)
  | step_populateLayers w : step w (populateLayers w)
  | step_enter w : step w (enter w)
  | step_exit w : step w (exit w).

Inductive steps : World → World → Prop :=
  | steps_refl w : steps w w
  | steps_step w1 w2 w3 : step w1 w2 → steps w2 w3 → steps w1 w3.

(** A well-formed world in which the entity, if one is named, is on the
    heap, is not recorded and was never click-tested. *)
Definition guarded (entity : option handle) (w : World) : Prop :=
  well_formed w
  ∧ ∀ h, entity = Some h →
         h < length (heap w) ∧ (h ∉ tracked w) ∧ (¬ click_tested h w).

(** *** Invariants of the proofs *)

(** A linear fade-in of duration 1 without delay, on an entity whose
    opacity was 1: the opacity follows the elapsed time up to 1. *)
Definition fade_inv (e : Entity) (a : Animation) : Prop :=
  type a = "fadeIn" ∧ duration a = Num.one ∧ delay a = Num.zero
  ∧ easing a = "linear" ∧ initialAlpha a = Num.one
  ∧ ∃ q, elapsed a = Fin q
         ∧ if completed a
           then (1 <= q)%Qc ∧ alpha e = Num.one
           else (q < 1)%Qc ∧ ((0 <= q)%Qc → alpha e = Fin q).

(** A slide-in from the left of duration 1 towards [x0]: the entity is
    at [x0] once the animation has completed, and it has completed once
    the elapsed time is the delay plus 1. *)
Definition slide_inv (x0 : Qc) (e : Entity) (a : Animation) : Prop :=
  type a = "slideIn" ∧ direction a = "left" ∧ duration a = Num.one
  ∧ initialX a = Fin x0
  ∧ ∃ d q xq, delay a = Fin d ∧ elapsed a = Fin q ∧ x e = Fin xq
              ∧ if completed a then x e = Fin x0 else (q - d < 1)%Qc.

(** A pulse keeps what it recorded at setup and never completes. *)
Definition pulse_inv (sx sy dl : num) (e : Entity) (a : Animation) : Prop :=
  type a = "pulse" ∧ completed a = false
  ∧ initialScaleX a = sx ∧ initialScaleY a = sy ∧ delay a = dl.

End Interpreter.
End ConfigurableScene.

(** ** Sample content *)

Module Sample.
Import ConfigurableScene.

(** A button with a click action and no id. *)
Definition anonymous_button : EntityConfig :=
  {| cfg_type := "button"; cfg_id := None;
     cfg_x := Some (Num.ofZ 10); cfg_y := Some (Num.ofZ 20);
     cfg_width := None; cfg_height := None; cfg_assetId := None;
     cfg_rotation := None; cfg_alpha := None; cfg_scaleX := None;
     cfg_scaleY := None; cfg_visible := None;
     cfg_text := Some "Next"; cfg_color := None;
     cfg_onClick := Some (mkAction "switchState" (Some "B") None);
     cfg_content := None; cfg_font := None; cfg_textAlign := None;
     cfg_shape := None; cfg_radius := None; cfg_fill := None;
     cfg_strokeWidth := None; cfg_animation := None |}.

Definition done_text : EntityConfig :=
  {| cfg_type := "text"; cfg_id := Some "done";
     cfg_x := None; cfg_y := None;
     cfg_width := None; cfg_height := None; cfg_assetId := None;
     cfg_rotation := None; cfg_alpha := None; cfg_scaleX := None;
     cfg_scaleY := None; cfg_visible := None;
     cfg_text := None; cfg_color := None; cfg_onClick := None;
     cfg_content := Some "Done"; cfg_font := None; cfg_textAlign := None;
     cfg_shape := None; cfg_radius := None; cfg_fill := None;
     cfg_strokeWidth := None; cfg_animation := None |}.

Definition state_A : StateConfig :=
  mkState "A" true (Some [("UI_BUTTONS", IsArray [anonymous_button])])
          (Some (mkTransition "timer" (Some Num.two) (Some "B") None)).

Definition state_B : StateConfig :=
  mkState "B" true (Some [("TEXT", IsArray [done_text])]) None.

Definition document : SceneConfig :=
  mkSceneConfig (Some "Sample") None (Some [state_A; state_B]).

(** A scene that has loaded [document] on a new compositor. *)
Definition scene : World :=
  loadFromConfig document (constructor "ConfigurableScene" LayerManager.constructor).

Definition sprite : Entity :=
  new_Sprite (Num.ofZ 50) (Num.ofZ 60) (Num.ofZ 200) (Num.ofZ 80).

(** The scene with [sprite] as its one entity, at handle 0. *)
Definition scene_with_sprite : World := set_heap [sprite] scene.

(** Stand-ins for the collaborators. *)
Definition flat_sin : num → num := λ _, Num.zero.
Definition no_image : string → bool := λ _, false.
Definition always_hit : Entity → num → num → bool := λ _ _ _, true.
Definition stay : string → World → World := λ _ w, w.

Definition press : Mouse := mkMouse (Num.ofZ 15) (Num.ofZ 25) true.
Definition no_press : Mouse := mkMouse (Num.ofZ 15) (Num.ofZ 25) false.

(** Two scene objects for the scene controller, whose hooks write to the
    console: scene 0 has an exit hook; scene 1 is bound, entered and
    populated, and puts entity 7 on the SPRITES layer when it populates. *)
Definition say (text : string) (eng : SceneManager.Engine nat unit)
  : SceneManager.Engine nat unit :=
  SceneManager.warn (Log_Message text) eng.

Definition hooks (s : SceneManager.SceneRef) : SceneManager.Scene nat unit :=
  match s with
  | 0 => SceneManager.mkScene (Some (say "exit 0")) id None None None
  | _ =>
      SceneManager.mkScene None (say "setEngine 1") (Some (say "enter 1"))
        (Some (λ eng,
           say "populateLayers 1"
             (SceneManager.set_layerManager
                (LayerManager.addToLayer 7 "SPRITES"
                   (SceneManager.layerManager eng)).1 eng)))
        None
  end.

(** An engine whose current scene 0 has left entity 42 on SPRITES. *)
Definition engine : SceneManager.Engine nat unit :=
  SceneManager.mkEngine
    (LayerManager.addToLayer 42 "SPRITES" LayerManager.constructor).1
    (Some 0) JsMap.empty [] tt.

(** A button that is recorded under the id [ok]. *)
Definition ok_button : EntityConfig :=
  {| cfg_type := "button"; cfg_id := Some "ok";
     cfg_x := Some (Num.ofZ 10); cfg_y := Some (Num.ofZ 20);
     cfg_width := None; cfg_height := None; cfg_assetId := None;
     cfg_rotation := None; cfg_alpha := None; cfg_scaleX := None;
     cfg_scaleY := None; cfg_visible := None;
     cfg_text := Some "OK"; cfg_color := None; cfg_onClick := None;
     cfg_content := None; cfg_font := None; cfg_textAlign := None;
     cfg_shape := None; cfg_radius := None; cfg_fill := None;
     cfg_strokeWidth := None; cfg_animation := None |}.

(** A state that adds to what the layers hold. *)
Definition state_C : StateConfig :=
  mkState "C" false (Some [("TEXT", IsArray [done_text])]) None.

(** A pointer that hits no button. *)
Definition never_hit : Entity → num → num → bool := λ _ _ _, false.

(** Animations of one second that have not begun, for an entity that
    rests at (50, 60) with opacity 1. *)
Definition animation_of (type direction : string) : Animation :=
  mkAnimation type Num.one Num.zero "linear" direction Num.zero false false
              Num.one (Num.ofZ 50) (Num.ofZ 60) Num.one Num.one.

(** Two states with a button each, at the same place: the button of the
    one switches to the other. *)
Definition switch_button (id text target : string) : EntityConfig :=
  {| cfg_type := "button"; cfg_id := Some id;
     cfg_x := Some (Num.ofZ 10); cfg_y := Some (Num.ofZ 20);
     cfg_width := None; cfg_height := None; cfg_assetId := None;
     cfg_rotation := None; cfg_alpha := None; cfg_scaleX := None;
     cfg_scaleY := None; cfg_visible := None;
     cfg_text := Some text; cfg_color := None;
     cfg_onClick := Some (mkAction "switchState" (Some target) None);
     cfg_content := None; cfg_font := None; cfg_textAlign := None;
     cfg_shape := None; cfg_radius := None; cfg_fill := None;
     cfg_strokeWidth := None; cfg_animation := None |}.

Definition state_menu : StateConfig :=
  mkState "menu" true
          (Some [("UI_BUTTONS", IsArray [switch_button "next" "Next" "game"])])
          None.

Definition state_game : StateConfig :=
  mkState "game" true
          (Some [("UI_BUTTONS", IsArray [switch_button "back" "Back" "menu"])])
          None.

End Sample.

(** ** PongScene *)

Module PongScene.
Import ConfigurableScene.

(** [a <= b], [a > b], [Math.max(a, b)], [Math.abs(a)] *)
Definition le (a b : num) : bool := Num.ge b a.
Definition gt (a b : num) : bool := Num.lt b a.
Definition max (a b : num) : num :=
  match a, b with
  | Fin p, Fin q => if Num.Qc_leb p q then Fin q else Fin p
  | _, _ => NaN
  end.
Definition abs (a : num) : num :=
  match a with
  | Fin p => if Num.Qc_leb 0 p then Fin p else Fin (- p)%Qc
  | NaN => NaN
  end.

(** The fields the constructor sets and nothing changes. *)
Definition gameWidth : num := Num.ofZ 1080.
Definition gameHeight : num := Num.ofZ 600.
Definition offsetY : num := Num.div (Num.sub (Num.ofZ 1920) gameHeight) Num.two.
Definition ballSpeed : num := Num.ofZ 400.
Definition paddleSpeed : num := Num.ofZ 300.

(** The scene once [init] has made its three sprites (the constructor
    leaves them [null]); [randoms] counts the values [Math.random] has
    given so far. *)
Record t : Type := mk {
  playerPaddle : Entity;
  aiPaddle : Entity;
  ball : Entity;
  playerScore : num;
  aiScore : num;
  ballVelX : num;
  ballVelY : num;
  randoms : nat
}.

(** [this.inputHandler.keys], at the four keys the scene reads. *)
Record Keys : Type := mkKeys {
  ArrowUp : bool;
  KeyW : bool;
  ArrowDown : bool;
  KeyS : bool
}.

Definition set_playerPaddle (v : Entity) (s : t) : t :=
  mk v (aiPaddle s) (ball s) (playerScore s) (aiScore s) (ballVelX s)
     (ballVelY s) (randoms s).
Definition set_aiPaddle (v : Entity) (s : t) : t :=
  mk (playerPaddle s) v (ball s) (playerScore s) (aiScore s) (ballVelX s)
     (ballVelY s) (randoms s).
Definition set_ball (v : Entity) (s : t) : t :=
  mk (playerPaddle s) (aiPaddle s) v (playerScore s) (aiScore s) (ballVelX s)
     (ballVelY s) (randoms s).
Definition set_playerScore (v : num) (s : t) : t :=
  mk (playerPaddle s) (aiPaddle s) (ball s) v (aiScore s) (ballVelX s)
     (ballVelY s) (randoms s).
Definition set_aiScore (v : num) (s : t) : t :=
  mk (playerPaddle s) (aiPaddle s) (ball s) (playerScore s) v (ballVelX s)
     (ballVelY s) (randoms s).
Definition set_ballVelX (v : num) (s : t) : t :=
  mk (playerPaddle s) (aiPaddle s) (ball s) (playerScore s) (aiScore s) v
     (ballVelY s) (randoms s).
Definition set_ballVelY (v : num) (s : t) : t :=
  mk (playerPaddle s) (aiPaddle s) (ball s) (playerScore s) (aiScore s)
     (ballVelX s) v (randoms s).
Definition set_randoms (v : nat) (s : t) : t :=
  mk (playerPaddle s) (aiPaddle s) (ball s) (playerScore s) (aiScore s)
     (ballVelX s) (ballVelY s) v.

Section PongScene.
(** [Math_random k] is the value of the call of [Math.random()] that
    follows [k] earlier calls. *)
Variable Math_random : nat → num.

(** The middle of the court, where a sprite of the given height sits. *)
Definition middle (half_height : num) : num :=
  Num.sub (Num.add offsetY (Num.div gameHeight Num.two)) half_height.

Definition resetBall (s : t) : t :=
  let s := set_ball (set_x (Num.sub (Num.div gameWidth Num.two) (Num.ofZ 10))
                           (ball s)) s in
  let s := set_ball (set_y (middle (Num.ofZ 10)) (ball s)) s in
  let s := set_randoms (S (randoms s))
             (set_ballVelX
                (Num.mul ballSpeed
                   (if gt (Math_random (randoms s)) Num.half
                    then Num.one else Num.neg Num.one)) s) in
  set_randoms (S (randoms s))
    (set_ballVelY
       (Num.mul (Num.mul (Num.sub (Math_random (randoms s)) Num.half) ballSpeed)
                Num.half) s).

(** The constructor followed by [init]: [createGameObjects], then
    [resetBall]. *)
Definition init : t :=
  resetBall
    (mk (new_Sprite (Num.ofZ 50) (middle (Num.ofZ 50)) (Num.ofZ 20) (Num.ofZ 100))
        (new_Sprite (Num.sub gameWidth (Num.ofZ 70)) (middle (Num.ofZ 50))
                    (Num.ofZ 20) (Num.ofZ 100))
        (new_Sprite (Num.sub (Num.div gameWidth Num.two) (Num.ofZ 10))
                    (middle (Num.ofZ 10)) (Num.ofZ 20) (Num.ofZ 20))
        Num.zero Num.zero ballSpeed Num.zero 0).

(** [Math.max(offsetY, Math.min(offsetY + gameHeight - paddle.height, y))] *)
Definition keep_in_court (paddle : Entity) : Entity :=
  set_y (max offsetY
           (Num.min (Num.sub (Num.add offsetY gameHeight) (to_num (height paddle)))
                    (y paddle)))
        paddle.

Definition handleInput (deltaTime : num) (keys : Keys) (s : t) : t :=
  let paddle := playerPaddle s in
  let paddle :=
    if ArrowUp keys || KeyW keys
    then set_y (Num.sub (y paddle) (Num.mul paddleSpeed deltaTime)) paddle
    else paddle in
  let paddle :=
    if ArrowDown keys || KeyS keys
    then set_y (Num.add (y paddle) (Num.mul paddleSpeed deltaTime)) paddle
    else paddle in
  set_playerPaddle (keep_in_court paddle) s.

Definition updateAI (deltaTime : num) (s : t) : t :=
  let paddle := aiPaddle s in
  let paddleCenter :=
    Num.add (y paddle) (Num.div (to_num (height paddle)) Num.two) in
  let ballCenter :=
    Num.add (y (ball s)) (Num.div (to_num (height (ball s))) Num.two) in
  let step := Num.mul (Num.mul paddleSpeed deltaTime) (Num.ofQ (8 # 10)) in
  let paddle :=
    if Num.lt ballCenter (Num.sub paddleCenter (Num.ofZ 10))
    then set_y (Num.sub (y paddle) step) paddle
    else if gt ballCenter (Num.add paddleCenter (Num.ofZ 10))
    then set_y (Num.add (y paddle) step) paddle
    else paddle in
  set_aiPaddle (keep_in_court paddle) s.

Definition updateBall (deltaTime : num) (s : t) : t :=
  let b := ball s in
  let b := set_x (Num.add (x b) (Num.mul (ballVelX s) deltaTime)) b in
  let b := set_y (Num.add (y b) (Num.mul (ballVelY s) deltaTime)) b in
  set_ball b s.

(** The test of the ball against one paddle, as [checkCollisions] writes
    it for the player's paddle and, with the first two comparisons
    swapped, for the other. *)
Definition overlaps (b paddle : Entity) : bool :=
  le (x b) (Num.add (x paddle) (to_num (width paddle)))
  && Num.ge (Num.add (x b) (to_num (width b))) (x paddle)
  && Num.ge (Num.add (y b) (to_num (height b))) (y paddle)
  && le (y b) (Num.add (y paddle) (to_num (height paddle))).

(** [(ball.y + ball.height / 2 - paddle.y) / paddle.height]; a paddle
    keeps the height of 100 it is made with. *)
Definition hitPos (b paddle : Entity) : num :=
  Num.div (Num.sub (Num.add (y b) (Num.div (to_num (height b)) Num.two))
                   (y paddle))
          (to_num (height paddle)).

Definition checkCollisions (s : t) : t :=
  let b := ball s in
  let s :=
    if le (y b) offsetY
       || Num.ge (Num.add (y b) (to_num (height b))) (Num.add offsetY gameHeight)
    then set_ballVelY (Num.neg (ballVelY s)) s
    else s in
  let s :=
    if overlaps b (playerPaddle s)
    then set_ballVelY
           (Num.mul (Num.sub (hitPos b (playerPaddle s)) Num.half) ballSpeed)
           (set_ballVelX (abs (ballVelX s)) s)
    else s in
  if Num.ge (Num.add (x b) (to_num (width b))) (x (aiPaddle s))
     && le (x b) (Num.add (x (aiPaddle s)) (to_num (width (aiPaddle s))))
     && Num.ge (Num.add (y b) (to_num (height b))) (y (aiPaddle s))
     && le (y b) (Num.add (y (aiPaddle s)) (to_num (height (aiPaddle s))))
  then set_ballVelY
         (Num.mul (Num.sub (hitPos b (aiPaddle s)) Num.half) ballSpeed)
         (set_ballVelX (Num.neg (abs (ballVelX s))) s)
  else s.

Definition checkScore (s : t) : t :=
  let s :=
    if Num.lt (Num.add (x (ball s)) (to_num (width (ball s)))) Num.zero
    then resetBall (set_aiScore (Num.add (aiScore s) Num.one) s)
    else s in
  if gt (x (ball s)) gameWidth
  then resetBall (set_playerScore (Num.add (playerScore s) Num.one) s)
  else s.

Definition update (deltaTime : num) (keys : Keys) (s : t) : t :=
  checkScore (checkCollisions (updateBall deltaTime
    (updateAI deltaTime (handleInput deltaTime keys s)))).

End PongScene.

(** [populateLayers]: [bg] and [scoreDisplay] are the two objects it
    makes, the other three the sprites of the scene; the compositor and
    what it writes to the console. *)
Definition populateLayers {val : Type} `{EqDecision val}
    (bg playerPaddle aiPaddle ball scoreDisplay : val) (lm : LayerManager.t)
  : LayerManager.t * list Event :=
  let '(lm, w1) := LayerManager.addToLayer bg "BG_FAR" lm in
  let '(lm, w2) := LayerManager.addToLayer playerPaddle "MAIN" lm in
  let '(lm, w3) := LayerManager.addToLayer aiPaddle "MAIN" lm in
  let '(lm, w4) := LayerManager.addToLayer ball "MAIN" lm in
  let '(lm, w5) := LayerManager.addToLayer scoreDisplay "UI" lm in
  (lm, w1 ++ w2 ++ w3 ++ w4 ++ w5).

(** *** Vocabulary of the statements *)

(** A paddle between the top of the court and the lowest place its
    height allows. *)
Definition in_court (paddle : Entity) : Prop :=
  ∃ yq hq, y paddle = Fin yq ∧ height paddle = Some (Fin hq)
           ∧ Num.ge (Fin yq) offsetY = true
           ∧ le (Fin yq) (Num.sub (Num.add offsetY gameHeight) (Fin hq)) = true.

End PongScene.

(** ** Vocabulary of the further statements *)

Module Vocabulary.
Import ConfigurableScene.

(** The calls of [checkClick] that one pass over the recorded entities
    makes: one for each recorded entity that has [checkClick], in the
    order of the map. *)
Definition click_calls (x y : num) (heap : list Entity)
    (entries : JsMap.t string handle) : list Event :=
  omap (λ entry : option (string * handle),
          match entry with
          | Some (_, entity) =>
              match heap !! entity with
              | Some e =>
                  if has_checkClick e then Some (Call_checkClick entity x y)
                  else None
              | None => None
              end
          | None => None
          end)
       entries.

(** Every handle in a layer, a recorded entity or an animated entity was
    made since the heap had [n] entities. *)
Definition made_since (n : nat) (w : World) : Prop :=
  (∀ layerName es h,
     LayerManager.hasOwnProperty layerName = true →
     LayerManager.layerEntities (layerManager w) !! layerName = Some es →
     h ∈ es → (n ≤ h < length (heap w))%nat)
  ∧ (∀ h, h ∈ JsMap.values (entities w) → (n ≤ h < length (heap w))%nat)
  ∧ (∀ h, h ∈ JsMap.keys (entityAnimations w) → (n ≤ h < length (heap w))%nat).

(** [w'] is [w] with more made: the heap and the console have grown at
    their end, and the fields of the state machine are those of [w]. *)
Definition extends (w w' : World) : Prop :=
  heap w `prefix_of` heap w'
  ∧ console w `prefix_of` console w'
  ∧ states w' = states w ∧ currentStateIndex w' = currentStateIndex w
  ∧ currentStateName w' = currentStateName w ∧ stateTimer w' = stateTimer w
  ∧ name w' = name w ∧ canvasSize w' = canvasSize w.

(** What no animation writes to: the kind of the entity, its size, its
    rotation and whether it is shown. *)
Definition same_body (e e' : Entity) : Prop :=
  kind e' = kind e ∧ width e' = width e ∧ height e' = height e
  ∧ rotation e' = rotation e ∧ visible e' = visible e.

(** A state that clears the layers and makes one entity: a button
    without animation, recorded under an id, whose action is to switch
    to the state [target]. *)
Definition button_state (target : string) (st : StateConfig)
    (c : EntityConfig) : Prop :=
  st_clearLayers st = true
  ∧ (∃ layerName, st_layers st = Some [(layerName, IsArray [c])])
  ∧ cfg_type c = "button" ∧ truthy_str (cfg_id c) = true
  ∧ cfg_animation c = None
  ∧ target ≠ ""
  ∧ ∃ action, cfg_onClick c = Some action
              ∧ act_action action = "switchState"
              ∧ act_target action = Some target.

(** The click loop at entry [index] has a button made from one of the
    two configurations ahead of it, behind emptied slots only. *)
Definition button_ahead (cA cB : EntityConfig) (index : nat) (w : World)
  : Prop :=
  ∃ k id h c,
    (index ≤ k)%nat
    ∧ (∀ j, (index ≤ j < k)%nat → entities w !! j = Some None)
    ∧ entities w !! k = Some (Some (id, h))
    ∧ heap w !! h = Some (_createButton c)
    ∧ (c = cA ∨ c = cB).

End Vocabulary.

(** * Properties *)

(** ** The compositor *)

Module LayerManagerProps.
Import LayerManager.
Section Props.
Context {val : Type} `{EqDecision val}.
Variable has_render : val → bool.

Abbreviation t := (LayerManager.t (val := val)).

Lemma sortedLayers_eq :
  sortedLayers =
  ["BG_FAR"; "BG_NEAR"; "VIDEO_IMAGE"; "SHAPES"; "SPRITES"; "TEXT"; "UI_BUTTONS"].
Proof. reflexivity. Qed.

Lemma hasOwnProperty_true n : hasOwnProperty n = true ↔ n ∈ Object_keys.
Proof. unfold hasOwnProperty. apply bool_decide_eq_true. Qed.

Lemma lookup_reset (ks : list string) (m : gmap string (list val)) n :
  foldl (λ m layer, <[layer := []]> m) m ks !! n
  = if bool_decide (n ∈ ks) then Some [] else m !! n.
Proof.
  revert m. induction ks as [|k ks IH]; intros m; simpl.
  - reflexivity.
  - rewrite IH. destruct (decide (n ∈ ks)) as [Hin|Hin].
    + rewrite !bool_decide_eq_true_2; [done | by right | done].
    + rewrite (bool_decide_eq_false_2 _ Hin).
      destruct (decide (k = n)) as [->|Hne].
      * rewrite lookup_insert_eq. rewrite bool_decide_eq_true_2; [done | by left].
      * rewrite lookup_insert_ne by done.
        rewrite bool_decide_eq_false_2; [done|].
        intros [->|?]%elem_of_cons; done.
Qed.

Lemma constructor_lookup n :
  hasOwnProperty n = true → layerEntities (constructor (val := val)) !! n = Some [].
Proof.
  intros Hn. unfold constructor. cbn [layerEntities]. rewrite lookup_reset.
  apply hasOwnProperty_true in Hn. by rewrite bool_decide_eq_true_2.
Qed.

Lemma clearAll_lookup (lm : t) n :
  hasOwnProperty n = true → layerEntities (clearAll lm) !! n = Some [].
Proof.
  intros Hn. unfold clearAll. cbn [layerEntities]. rewrite lookup_reset.
  apply hasOwnProperty_true in Hn. by rewrite bool_decide_eq_true_2.
Qed.

(** [addToLayer] at the layer it names, and at the others. *)
Lemma addToLayer_lookup_eq e n (lm : t) es :
  hasOwnProperty n = true → layerEntities lm !! n = Some es →
  layerEntities (addToLayer e n lm).1 !! n = Some (push_new es e).
Proof.
  intros Hn Hes. unfold addToLayer, push_new. rewrite Hn, Hes. simpl.
  destruct (bool_decide (e ∈ es)); simpl; [done|]. by rewrite lookup_insert_eq.
Qed.

Lemma addToLayer_lookup_ne e n n' (lm : t) :
  n ≠ n' → layerEntities (addToLayer e n lm).1 !! n' = layerEntities lm !! n'.
Proof.
  intros Hne. unfold addToLayer.
  destruct (hasOwnProperty n); simpl; [|done].
  destruct (layerEntities lm !! n) as [es|]; [|done].
  destruct (bool_decide (e ∈ es)); simpl; [done|]. by rewrite lookup_insert_ne.
Qed.

Lemma addToLayer_unknown e n (lm : t) :
  hasOwnProperty n = false →
  addToLayer e n lm = (lm, [Warn_UnknownLayer n]).
Proof. intros Hn. unfold addToLayer. by rewrite Hn. Qed.

Lemma addAll_lookup (calls : list (val * string)) : ∀ (lm : t) n es,
  hasOwnProperty n = true → layerEntities lm !! n = Some es →
  layerEntities (addAll calls lm) !! n = Some (foldl push_new es (callsOn n calls)).
Proof.
  induction calls as [|[e m] calls IH]; intros lm n es Hn Hes; simpl.
  - done.
  - unfold callsOn. rewrite filter_cons. simpl.
    destruct (decide (m = n)) as [->|Hne]; simpl.
    + apply IH; [done|]. by apply addToLayer_lookup_eq.
    + apply IH; [done|]. by rewrite addToLayer_lookup_ne.
Qed.

Lemma filter_filter_absorb (e : val) (es l : list val) :
  e ∈ es →
  filter (λ e', e' ∉ es) (filter (λ e', e' ≠ e) l) = filter (λ e', e' ∉ es) l.
Proof.
  intros He. induction l as [|a l IH]; [done|].
  rewrite !filter_cons. destruct (decide (a ≠ e)) as [Hae|Hae].
  - rewrite filter_cons. destruct (decide (a ∉ es)); by rewrite IH.
  - assert (a = e) as -> by (by destruct (decide (a = e))).
    rewrite decide_False by (intros Hn; by apply Hn). done.
Qed.

Lemma filter_snoc_split (e : val) (es l : list val) :
  filter (λ e', e' ∉ es ++ [e]) l
  = filter (λ e', e' ∉ es) (filter (λ e', e' ≠ e) l).
Proof.
  induction l as [|a l IH]; [done|].
  rewrite !filter_cons. destruct (decide (a ≠ e)) as [Hae|Hae].
  - rewrite filter_cons. destruct (decide (a ∉ es)) as [Ha|Ha].
    + rewrite decide_True; [by rewrite IH|].
      rewrite elem_of_app, list_elem_of_singleton. tauto.
    + rewrite decide_False; [done|].
      rewrite elem_of_app. tauto.
  - rewrite decide_False; [done|].
    rewrite elem_of_app, list_elem_of_singleton.
    destruct (decide (a = e)); tauto.
Qed.

Lemma foldl_push_new (new : list val) : ∀ es : list val,
  foldl push_new es new
  = es ++ filter (λ e', e' ∉ es) (first_occurrences new).
Proof.
  induction new as [|e new IH]; intros es; simpl.
  - by rewrite app_nil_r.
  - rewrite IH. unfold push_new. rewrite filter_cons.
    destruct (decide (e ∈ es)) as [He|He].
    + rewrite bool_decide_eq_true_2 by done. simpl.
      rewrite decide_False by tauto. by rewrite filter_filter_absorb.
    + rewrite bool_decide_eq_false_2 by done. simpl.
      rewrite decide_True by done.
      rewrite <- app_assoc. simpl. by rewrite filter_snoc_split.
Qed.

Lemma filter_not_in_nil (l : list val) : filter (λ e', e' ∉ []) l = l.
Proof.
  induction l as [|a l IH]; [done|].
  rewrite filter_cons, decide_True; [by rewrite IH|]. apply not_elem_of_nil.
Qed.

Lemma addAll_constructor_lookup (calls : list (val * string)) n :
  hasOwnProperty n = true →
  layerEntities (addAll calls constructor) !! n
  = Some (first_occurrences (callsOn n calls)).
Proof.
  intros Hn. rewrite (addAll_lookup calls constructor n []); [|done|].
  - by rewrite foldl_push_new, filter_not_in_nil.
  - by apply constructor_lookup.
Qed.

(** Every layer of a compositor the program can build is there and
    holds no entity twice. *)
Lemma remove_first_NoDup (e : val) (es : list val) :
  NoDup es → NoDup (remove_first e es).
Proof.
  induction es as [|a es IH]; simpl; [done|].
  intros [Ha Hes]%NoDup_cons. destruct (bool_decide (a = e)); [done|].
  apply NoDup_cons. split; [|by apply IH].
  intros Hin. apply Ha. clear -Hin.
  induction es as [|b es IH]; simpl in *; [done|].
  destruct (bool_decide (b = e)); [by right|].
  apply elem_of_cons in Hin as [->|Hin]; [by left|right; by apply IH].
Qed.

Lemma push_new_NoDup (e : val) (es : list val) :
  NoDup es → NoDup (push_new es e).
Proof.
  intros Hes. unfold push_new. destruct (decide (e ∈ es)) as [He|He].
  - by rewrite bool_decide_eq_true_2.
  - rewrite bool_decide_eq_false_2 by done. simpl.
    apply NoDup_app. split; [done|]. split; [|apply NoDup_singleton].
    intros a Ha ->%list_elem_of_singleton. done.
Qed.

Lemma reachable_layers (lm : t) :
  reachable lm →
  ∀ n, hasOwnProperty n = true →
       ∃ es, layerEntities lm !! n = Some es ∧ NoDup es.
Proof.
  induction 1 as [|e m lm Hr IH|e m lm Hr IH|m lm Hr IH|lm Hr IH]; intros n Hn.
  - exists []. split; [by apply constructor_lookup|apply NoDup_nil_2].
  - destruct (IH n Hn) as (es & Hes & Hnd).
    destruct (decide (m = n)) as [->|Hne].
    + exists (push_new es e). split; [by apply addToLayer_lookup_eq|].
      by apply push_new_NoDup.
    + exists es. by rewrite addToLayer_lookup_ne.
  - destruct (IH n Hn) as (es & Hes & Hnd). unfold removeFromLayer.
    destruct (hasOwnProperty m) eqn:Hm; simpl; [|by exists es].
    destruct (decide (m = n)) as [->|Hne].
    + rewrite Hes. cbn [layerEntities]. rewrite lookup_insert_eq.
      eexists. split; [done|]. by apply remove_first_NoDup.
    + destruct (layerEntities lm !! m); [|by exists es].
      cbn [layerEntities]. rewrite lookup_insert_ne by done. by exists es.
  - destruct (IH n Hn) as (es & Hes & Hnd). unfold clearLayer.
    destruct (hasOwnProperty m); [|by exists es]. cbn [layerEntities].
    destruct (decide (m = n)) as [->|Hne].
    + rewrite lookup_insert_eq. exists []. split; [done|apply NoDup_nil_2].
    + rewrite lookup_insert_ne by done. by exists es.
  - exists []. split; [by apply clearAll_lookup|apply NoDup_nil_2].
Qed.

Lemma occurrences_app (e : val) (l1 l2 : list val) :
  occurrences e (l1 ++ l2) = occurrences e l1 + occurrences e l2.
Proof. unfold occurrences. by rewrite filter_app, length_app. Qed.

Lemma occurrences_not_in (e : val) (l : list val) :
  e ∉ l → occurrences e l = 0.
Proof.
  unfold occurrences. induction l as [|a l IH]; [done|].
  intros Hn. rewrite filter_cons. apply not_elem_of_cons in Hn as [Hne Hn].
  rewrite decide_False by done. by apply IH.
Qed.

Lemma occurrences_NoDup_in (e : val) (l : list val) :
  NoDup l → e ∈ l → occurrences e l = 1.
Proof.
  unfold occurrences. induction l as [|a l IH]; intros Hnd Hin.
  - by apply elem_of_nil in Hin.
  - apply NoDup_cons in Hnd as [Ha Hnd]. rewrite filter_cons.
    destruct (decide (a = e)) as [->|Hne].
    + simpl. f_equal. by apply (occurrences_not_in e l).
    + apply elem_of_cons in Hin as [->|Hin]; [done|]. by apply IH.
Qed.

Lemma occurrences_rendered (e : val) (l : list val) :
  has_render e = true →
  occurrences e (filter (λ e', has_render e' = true) l) = occurrences e l.
Proof.
  intros He. unfold occurrences. induction l as [|a l IH]; [done|].
  rewrite !filter_cons. destruct (decide (has_render a = true)) as [Ha|Ha].
  - rewrite filter_cons. destruct (decide (a = e)); simpl; by rewrite IH.
  - rewrite decide_False; [done|]. intros ->. done.
Qed.

Lemma push_new_elem (e : val) (es : list val) : e ∈ push_new es e.
Proof.
  unfold push_new. destruct (decide (e ∈ es)) as [He|He].
  - by rewrite bool_decide_eq_true_2.
  - rewrite bool_decide_eq_false_2 by done. simpl.
    apply elem_of_app. right. by apply list_elem_of_singleton.
Qed.

Lemma push_new_twice (e : val) (es : list val) :
  push_new (push_new es e) e = push_new es e.
Proof.
  unfold push_new at 1.
  by rewrite (bool_decide_eq_true_2 _ (push_new_elem e es)).
Qed.

(** The invocations of one entity in a frame, layer by layer. *)
Lemma occurrences_flat_map (e : val) (f : string → list val) n (ns : list string) :
  NoDup ns → n ∈ ns → occurrences e (f n) = 1 →
  (∀ n', n' ≠ n → occurrences e (f n') = 0) →
  occurrences e (flat_map f ns) = 1.
Proof.
  intros Hnd Hin H1 H0. induction ns as [|a ns IH].
  - by apply elem_of_nil in Hin.
  - apply NoDup_cons in Hnd as [Ha Hnd]. simpl. rewrite occurrences_app.
    destruct (decide (a = n)) as [->|Hne].
    + rewrite H1. f_equal. clear IH Hin.
      induction ns as [|b ns IH]; [done|]. simpl. rewrite occurrences_app.
      apply not_elem_of_cons in Ha as [Hb Ha]. apply NoDup_cons in Hnd as [_ Hnd].
      rewrite H0 by done. by apply IH.
    + rewrite H0 by done. apply elem_of_cons in Hin as [->|Hin]; [done|].
      by apply IH.
Qed.

(** C1. Whatever the order of the [addToLayer] calls, a frame invokes
    [render] layer by layer in the order BG_FAR, BG_NEAR, VIDEO_IMAGE,
    SHAPES, SPRITES, TEXT, UI_BUTTONS, and within a layer in the order in
    which its entities were first added; two runs of calls that hand the
    same entities in the same order to each layer, however the calls to
    different layers are interleaved, give the same frame. *)
Theorem render_follows_layer_order (calls : list (val * string)) :
  render has_render (addAll calls constructor)
  = flat_map
      (λ layerName,
         filter (λ e, has_render e = true)
                (first_occurrences (callsOn layerName calls)))
      ["BG_FAR"; "BG_NEAR"; "VIDEO_IMAGE"; "SHAPES"; "SPRITES"; "TEXT";
       "UI_BUTTONS"]
  ∧ ∀ calls' : list (val * string),
      (∀ layerName, callsOn layerName calls' = callsOn layerName calls) →
      render has_render (addAll calls' constructor)
      = render has_render (addAll calls constructor).
Proof.
  assert (Hrender : ∀ cs : list (val * string),
    render has_render (addAll cs constructor)
    = flat_map
        (λ layerName,
           filter (λ e, has_render e = true)
                  (first_occurrences (callsOn layerName cs)))
        ["BG_FAR"; "BG_NEAR"; "VIDEO_IMAGE"; "SHAPES"; "SPRITES"; "TEXT";
         "UI_BUTTONS"]).
  { intros cs. unfold render. rewrite sortedLayers_eq.
    cbn [flat_map]. by rewrite !addAll_constructor_lookup. }
  split; [apply Hrender|].
  intros calls' Hsame. rewrite !Hrender. cbn [flat_map]. by rewrite !Hsame.
Qed.

Lemma occurrences_flat_map_eq (e : val) (f g : string → list val)
    (ns : list string) :
  (∀ n, n ∈ ns → occurrences e (f n) = occurrences e (g n)) →
  occurrences e (flat_map f ns) = occurrences e (flat_map g ns).
Proof.
  induction ns as [|a ns IH]; intros Hfg; [done|].
  simpl. rewrite !occurrences_app. rewrite Hfg by (by left).
  f_equal. apply IH. intros n Hn. apply Hfg. by right.
Qed.

Lemma occurrences_flat_map_one_more (e : val) (f g : string → list val) n
    (ns : list string) :
  NoDup ns → n ∈ ns →
  occurrences e (f n) = 1 → occurrences e (g n) = 0 →
  (∀ n', n' ≠ n → occurrences e (f n') = occurrences e (g n')) →
  occurrences e (flat_map f ns) = 1 + occurrences e (flat_map g ns).
Proof.
  intros Hnd Hin Hf Hg Hfg. induction ns as [|a ns IH].
  - by apply elem_of_nil in Hin.
  - apply NoDup_cons in Hnd as [Ha Hnd]. simpl. rewrite !occurrences_app.
    destruct (decide (a = n)) as [->|Hne].
    + rewrite Hf, Hg. f_equal. apply occurrences_flat_map_eq.
      intros n' Hn'. apply Hfg. intros ->. done.
    + rewrite (Hfg a Hne). apply elem_of_cons in Hin as [->|Hin]; [done|].
      rewrite (IH Hnd Hin). lia.
Qed.

(** C2. On a compositor the program can build, two calls of
    [addToLayer] with the same entity and the same recognised layer leave
    that entity once in the layer's array; a frame then invokes the
    entity's [render] once for this layer and once for each other layer
    the entity was put on, so once in all when it is on no other layer. *)
Theorem addToLayer_twice_once (lm : t) (e : val) (layerName : string) :
  reachable lm → hasOwnProperty layerName = true →
  let lm2 := (addToLayer e layerName (addToLayer e layerName lm).1).1 in
  (∃ es, layerEntities lm2 !! layerName = Some es ∧ occurrences e es = 1)
  ∧ (has_render e = true →
     occurrences e (render has_render lm2) = 1 + elsewhere e layerName lm
     ∧ ((∀ other es, other ≠ layerName →
                     layerEntities lm !! other = Some es → e ∉ es) →
        occurrences e (render has_render lm2) = 1)).
Proof.
  intros Hr Hn lm2.
  destruct (reachable_layers lm Hr layerName Hn) as (es & Hes & Hnd).
  assert (Hlm2 : layerEntities lm2 !! layerName = Some (push_new es e)).
  { unfold lm2.
    rewrite (addToLayer_lookup_eq e layerName _ (push_new es e)); [|done|].
    - by rewrite push_new_twice.
    - by apply addToLayer_lookup_eq. }
  assert (Hone : occurrences e (push_new es e) = 1).
  { apply occurrences_NoDup_in; [by apply push_new_NoDup|apply push_new_elem]. }
  split; [by exists (push_new es e)|].
  intros He. split.
  - unfold render, elsewhere.
    apply (occurrences_flat_map_one_more e _ _ layerName).
    + rewrite sortedLayers_eq. compute_done.
    + rewrite sortedLayers_eq. by apply hasOwnProperty_true in Hn.
    + rewrite Hlm2. by rewrite occurrences_rendered.
    + by rewrite bool_decide_eq_true_2.
    + intros n' Hne. unfold lm2.
      rewrite !addToLayer_lookup_ne by done.
      rewrite bool_decide_eq_false_2 by done.
      destruct (layerEntities lm !! n') as [es'|]; [|done].
      by rewrite occurrences_rendered.
  - intros Hother. unfold render.
    apply (occurrences_flat_map e _ layerName).
    + rewrite sortedLayers_eq. compute_done.
    + rewrite sortedLayers_eq. by apply hasOwnProperty_true in Hn.
    + rewrite Hlm2. by rewrite occurrences_rendered.
    + intros n' Hne. unfold lm2.
      rewrite !addToLayer_lookup_ne by done.
      destruct (layerEntities lm !! n') as [es'|] eqn:Hes'; [|done].
      rewrite occurrences_rendered by done.
      apply occurrences_not_in. by apply (Hother n').
Qed.

End Props.
End LayerManagerProps.

(** ** Numbers *)

Module NumProps.

(** Two numbers the boolean test finds equal are equal. *)
Lemma eqb_eq (a b : num) : Num.eqb a b = true → a = b.
Proof.
  destruct a as [p|], b as [q|]; simpl; try discriminate; [|done].
  intros Heq. f_equal. apply Qc_is_canon. by apply Qeq_bool_iff.
Qed.

Lemma eqb_neq (a b : num) : Num.eqb a b = false → a ≠ b.
Proof.
  intros Hne ->. destruct b as [q|]; simpl in Hne; [|done].
  apply not_true_iff_false in Hne. apply Hne. by apply Qeq_bool_iff.
Qed.

Lemma Qc_leb_le (p q : Qc) : Num.Qc_leb p q = true ↔ (p <= q)%Qc.
Proof. unfold Num.Qc_leb, Qcle. apply Qle_bool_iff. Qed.

Lemma Qc_ltb_lt (p q : Qc) : Num.Qc_ltb p q = true ↔ (p < q)%Qc.
Proof.
  unfold Num.Qc_ltb. change (Qle_bool q p) with (Num.Qc_leb q p).
  rewrite negb_true_iff, <- not_true_iff_false, Qc_leb_le.
  split; [apply Qcnot_le_lt | apply Qclt_not_le].
Qed.

Lemma Qc_ltb_ge (p q : Qc) : Num.Qc_ltb p q = false ↔ (q <= p)%Qc.
Proof.
  rewrite <- not_true_iff_false, Qc_ltb_lt.
  split; [apply Qcnot_lt_le | apply Qcle_not_lt].
Qed.

Lemma Qc_leb_gt (p q : Qc) : Num.Qc_leb p q = false ↔ (q < p)%Qc.
Proof.
  rewrite <- not_true_iff_false, Qc_leb_le.
  split; [apply Qcnot_le_lt | apply Qclt_not_le].
Qed.

Lemma Qc_eqb_eq (p q : Qc) : Num.Qc_eqb p q = true ↔ p = q.
Proof.
  unfold Num.Qc_eqb. rewrite Qeq_bool_iff. split.
  - apply Qc_is_canon.
  - by intros ->.
Qed.

Lemma one_eq : Num.one = Fin 1%Qc.
Proof. reflexivity. Qed.

Lemma zero_eq : Num.zero = Fin 0%Qc.
Proof. reflexivity. Qed.

Lemma mul_comm (a b : num) : Num.mul a b = Num.mul b a.
Proof. destruct a, b; simpl; [|done..]. f_equal. ring. Qed.

Lemma mul_one_r (p : Qc) : Num.mul (Fin p) Num.one = Fin p.
Proof. rewrite one_eq. simpl. f_equal. ring. Qed.

Lemma div_one (p : Qc) : Num.div (Fin p) Num.one = Fin p.
Proof. rewrite one_eq. simpl. f_equal. field. discriminate. Qed.

Lemma sub_zero (p : Qc) : Num.sub (Fin p) Num.zero = Fin p.
Proof. rewrite zero_eq. simpl. f_equal. ring. Qed.

Lemma lerp_end (p q : Qc) :
  Num.add (Fin p) (Num.mul (Num.sub (Fin q) (Fin p)) Num.one) = Fin q.
Proof. rewrite one_eq. simpl. f_equal. ring. Qed.

End NumProps.

(** Close a goal [a = b] or [a ≠ b] between two given numbers by
    evaluation. *)
Ltac num_eq := apply NumProps.eqb_eq; vm_compute; reflexivity.
Ltac num_neq := apply NumProps.eqb_neq; vm_compute; reflexivity.

(** ** The scene controller *)

Module SceneManagerProps.
Import SceneManager.
Section Props.
Context {val : Type} `{EqDecision val} {U : Type}.
Variable scene_at : SceneRef → Scene val U.

Lemma render_empty (has_render : val → bool) (lm : LayerManager.t) :
  (∀ n, LayerManager.hasOwnProperty n = true →
        LayerManager.layerEntities lm !! n = Some []) →
  LayerManager.render has_render lm = [].
Proof.
  intros Hempty. unfold LayerManager.render.
  rewrite LayerManagerProps.sortedLayers_eq. cbn [flat_map].
  by rewrite !Hempty.
Qed.


End Props.
End SceneManagerProps.

(** ** Maps *)

Module JsMapProps.
Section Props.
Context {K V : Type} `{EqDecision K}.
Implicit Types m : JsMap.t K V.

Lemma wf_empty : JsMap.wf (JsMap.empty : JsMap.t K V).
Proof. apply NoDup_nil_2. Qed.

Lemma keys_clear m : JsMap.keys (JsMap.clear m) = [].
Proof. induction m as [|[[k v]|] m IH]; simpl; done. Qed.

Lemma values_clear m : JsMap.values (JsMap.clear m) = [].
Proof. induction m as [|[[k v]|] m IH]; simpl; done. Qed.

Lemma wf_clear m : JsMap.wf (JsMap.clear m).
Proof. unfold JsMap.wf. rewrite keys_clear. apply NoDup_nil_2. Qed.

Lemma get_None k m : JsMap.get k m = None ↔ k ∉ JsMap.keys m.
Proof.
  induction m as [|[[k' v]|] m IH]; cbn [JsMap.get].
  - split; [intros _; apply not_elem_of_nil|done].
  - change (JsMap.keys (Some (k', v) :: m)) with (k' :: JsMap.keys m).
    rewrite not_elem_of_cons. destruct (decide (k' = k)) as [->|Hne].
    + rewrite bool_decide_eq_true_2 by done. split; [done|]. intros [? _]. done.
    + rewrite bool_decide_eq_false_2 by done. rewrite IH.
      intuition congruence.
  - exact IH.
Qed.

Lemma keys_set k v m :
  JsMap.keys (JsMap.set k v m)
  = if bool_decide (k ∈ JsMap.keys m) then JsMap.keys m else JsMap.keys m ++ [k].
Proof.
  induction m as [|[[k' v']|] m IH]; cbn [JsMap.set].
  - rewrite bool_decide_eq_false_2; [done|]. apply not_elem_of_nil.
  - change (JsMap.keys (Some (k', v') :: m)) with (k' :: JsMap.keys m).
    destruct (decide (k' = k)) as [->|Hne].
    + rewrite !bool_decide_eq_true_2; [done|by left|done].
    + rewrite (bool_decide_eq_false_2 (k' = k)) by done.
      change (JsMap.keys (Some (k', v') :: JsMap.set k v m))
        with (k' :: JsMap.keys (JsMap.set k v m)).
      rewrite IH. destruct (decide (k ∈ JsMap.keys m)) as [Hin|Hin].
      * rewrite !bool_decide_eq_true_2; [done|by right|done].
      * rewrite !bool_decide_eq_false_2; [done| |done].
        intros [->|?]%elem_of_cons; done.
  - exact IH.
Qed.

Lemma wf_set k v m : JsMap.wf m → JsMap.wf (JsMap.set k v m).
Proof.
  unfold JsMap.wf. intros Hm. rewrite keys_set.
  destruct (decide (k ∈ JsMap.keys m)) as [Hin|Hin].
  - by rewrite bool_decide_eq_true_2.
  - rewrite bool_decide_eq_false_2 by done.
    apply NoDup_app. split; [done|]. split; [|apply NoDup_singleton].
    intros a Ha ->%list_elem_of_singleton. done.
Qed.

Lemma get_set_eq k v m : JsMap.get k (JsMap.set k v m) = Some v.
Proof.
  induction m as [|[[k' v']|] m IH]; cbn [JsMap.set JsMap.get].
  - by rewrite bool_decide_eq_true_2.
  - destruct (decide (k' = k)) as [->|Hne].
    + rewrite bool_decide_eq_true_2 by done. cbn [JsMap.get].
      by rewrite bool_decide_eq_true_2.
    + rewrite bool_decide_eq_false_2 by done. cbn [JsMap.get].
      by rewrite bool_decide_eq_false_2.
  - exact IH.
Qed.

Lemma values_set (h : V) k v m :
  h ∈ JsMap.values (JsMap.set k v m) → h = v ∨ h ∈ JsMap.values m.
Proof.
  induction m as [|[[k' v']|] m IH]; cbn [JsMap.set].
  - intros Hin. left. apply list_elem_of_singleton in Hin. done.
  - destruct (bool_decide (k' = k)).
    + change (h ∈ v :: JsMap.values m → h = v ∨ h ∈ v' :: JsMap.values m).
      rewrite !elem_of_cons. tauto.
    + change (h ∈ v' :: JsMap.values (JsMap.set k v m)
              → h = v ∨ h ∈ v' :: JsMap.values m).
      rewrite !elem_of_cons. tauto.
  - exact IH.
Qed.

Lemma lookup_values m (i : nat) k v :
  m !! i = Some (Some (k, v)) → v ∈ JsMap.values m.
Proof.
  revert i. induction m as [|[[k' v']|] m IH]; intros [|i]; simpl; try done.
  - intros [= -> ->]. by left.
  - intros Hi. change (v ∈ v' :: JsMap.values m). right. by eapply IH.
  - intros Hi. by eapply IH.
Qed.

End Props.
End JsMapProps.

(** ** The animation engine *)

Module AnimationProps.
Import ConfigurableScene.
Section Props.
Variable Math_sin : num → num.

(** The loop of [_updateAnimations] turns the entity and the record of
    every entry, and nothing else. *)
Lemma animate_entries_spec dt (entries : JsMap.t handle Animation) :
  ∀ hp : list Entity,
  JsMap.wf entries →
  length (animate_entries Math_sin dt entries hp).2 = length hp
  ∧ JsMap.keys (animate_entries Math_sin dt entries hp).1 = JsMap.keys entries
  ∧ ∀ h : handle,
      match JsMap.get h entries with
      | Some a =>
          ∀ e, hp !! h = Some e →
            JsMap.get h (animate_entries Math_sin dt entries hp).1
            = Some (animate Math_sin dt e a).2
            ∧ (animate_entries Math_sin dt entries hp).2 !! h
              = Some (animate Math_sin dt e a).1
      | None =>
          JsMap.get h (animate_entries Math_sin dt entries hp).1 = None
          ∧ (animate_entries Math_sin dt entries hp).2 !! h = hp !! h
      end.
Proof.
  induction entries as [|[[k a]|] entries IH]; intros hp Hwf.
  - simpl. done.
  - assert (Hk : (k ∉ JsMap.keys entries) ∧ JsMap.wf entries).
    { unfold JsMap.wf in *.
      change (JsMap.keys (Some (k, a) :: entries)) with (k :: JsMap.keys entries) in Hwf.
      by apply NoDup_cons in Hwf. }
    destruct Hk as [Hk Hwf'].
    cbn [animate_entries JsMap.get].
    destruct (hp !! k) as [ek|] eqn:Hek.
    + destruct (animate Math_sin dt ek a) as [e' a'] eqn:Han.
      specialize (IH (<[k := e']> hp) Hwf').
      destruct (animate_entries Math_sin dt entries (<[k := e']> hp))
        as [rest' hp'] eqn:Hrest.
      cbn [fst snd] in *. destruct IH as (Hlen & Hkeys & IH).
      split; [by rewrite Hlen, length_insert|].
      split.
      { change (JsMap.keys (Some (k, a') :: rest')) with (k :: JsMap.keys rest').
        change (JsMap.keys (Some (k, a) :: entries)) with (k :: JsMap.keys entries).
        by rewrite Hkeys. }
      intros h. cbn [JsMap.get]. destruct (decide (k = h)) as [->|Hne].
      * rewrite !bool_decide_eq_true_2 by done.
        intros e He. assert (e = ek) as -> by congruence. rewrite Han.
        split; [done|]. specialize (IH h).
        apply JsMapProps.get_None in Hk. rewrite Hk in IH.
        destruct IH as [_ ->]. apply list_lookup_insert_eq.
        by apply lookup_lt_Some in Hek.
      * rewrite !bool_decide_eq_false_2 by done.
        specialize (IH h). rewrite list_lookup_insert_ne in IH by done.
        exact IH.
    + specialize (IH hp Hwf').
      destruct (animate_entries Math_sin dt entries hp) as [rest' hp'] eqn:Hrest.
      cbn [fst snd] in *. destruct IH as (Hlen & Hkeys & IH).
      split; [done|]. split.
      { change (JsMap.keys (Some (k, a) :: rest')) with (k :: JsMap.keys rest').
        change (JsMap.keys (Some (k, a) :: entries)) with (k :: JsMap.keys entries).
        by rewrite Hkeys. }
      intros h. cbn [JsMap.get]. destruct (decide (k = h)) as [->|Hne].
      * rewrite !bool_decide_eq_true_2 by done. intros e He. congruence.
      * rewrite !bool_decide_eq_false_2 by done. apply IH.
  - cbn [animate_entries JsMap.get].
    specialize (IH hp Hwf).
    destruct (animate_entries Math_sin dt entries hp) as [rest' hp'] eqn:Hrest.
    cbn [fst snd JsMap.get] in *. exact IH.
Qed.

Lemma updateAnimations_at dt (w : World) (h : handle) e a :
  JsMap.wf (entityAnimations w) →
  heap w !! h = Some e → JsMap.get h (entityAnimations w) = Some a →
  heap (_updateAnimations Math_sin dt w) !! h = Some (animate Math_sin dt e a).1
  ∧ JsMap.get h (entityAnimations (_updateAnimations Math_sin dt w))
    = Some (animate Math_sin dt e a).2
  ∧ JsMap.wf (entityAnimations (_updateAnimations Math_sin dt w)).
Proof.
  intros Hwf He Ha. unfold _updateAnimations.
  destruct (animate_entries_spec dt (entityAnimations w) (heap w) Hwf)
    as (Hlen & Hkeys & Hat).
  specialize (Hat h). rewrite Ha in Hat. destruct (Hat e He) as [Hget Hheap].
  destruct (animate_entries Math_sin dt (entityAnimations w) (heap w))
    as [anims hp'] eqn:Hrun.
  cbn [fst snd] in *. cbn. split; [done|]. split; [done|].
  unfold JsMap.wf. by rewrite Hkeys.
Qed.

Lemma updateAnimations_length dt (w : World) :
  JsMap.wf (entityAnimations w) →
  length (heap (_updateAnimations Math_sin dt w)) = length (heap w).
Proof.
  intros Hwf. unfold _updateAnimations.
  destruct (animate_entries_spec dt (entityAnimations w) (heap w) Hwf)
    as (Hlen & _).
  destruct (animate_entries Math_sin dt (entityAnimations w) (heap w))
    as [anims hp'] eqn:Hrun.
  cbn [fst snd] in *. cbn. done.
Qed.

(** What holds of an entity and its animation when the animation is set
    up, and is kept by every turn of the loop, holds after any run of
    frames. *)
Lemma ticks_invariant (P : Entity → Animation → Prop) (D : num → Prop) :
  (∀ dt e a, D dt → P e a →
     P (animate Math_sin dt e a).1 (animate Math_sin dt e a).2) →
  ∀ (dts : list num) (w : World) (h : handle) e a,
    Forall D dts →
    JsMap.wf (entityAnimations w) →
    heap w !! h = Some e → JsMap.get h (entityAnimations w) = Some a →
    P e a →
    ∃ e' a',
      heap (animation_ticks Math_sin dts w) !! h = Some e'
      ∧ JsMap.get h (entityAnimations (animation_ticks Math_sin dts w)) = Some a'
      ∧ JsMap.wf (entityAnimations (animation_ticks Math_sin dts w))
      ∧ P e' a'.
Proof.
  intros Hstep dts. induction dts as [|dt dts IH]; intros w h e a HD Hwf He Ha HP.
  - exists e, a. done.
  - apply Forall_cons in HD as [Hdt HD].
    destruct (updateAnimations_at dt w h e a Hwf He Ha) as (He' & Ha' & Hwf').
    unfold animation_ticks. cbn [foldl].
    apply (IH _ h _ _ HD Hwf' He' Ha'). by apply Hstep.
Qed.

Lemma setupAnimation_at (w : World) (h : handle) e config :
  JsMap.wf (entityAnimations w) → heap w !! h = Some e →
  heap (_setupAnimation h config w) !! h
  = Some (setupAnimation_on (canvasSize w) e config).1
  ∧ JsMap.get h (entityAnimations (_setupAnimation h config w))
    = Some (setupAnimation_on (canvasSize w) e config).2
  ∧ JsMap.wf (entityAnimations (_setupAnimation h config w)).
Proof.
  intros Hwf He. unfold _setupAnimation. rewrite He.
  destruct (setupAnimation_on (canvasSize w) e config) as [e' a'] eqn:Hs.
  cbn. split; [|split].
  - apply list_lookup_insert_eq. by apply lookup_lt_Some in He.
  - apply JsMapProps.get_set_eq.
  - by apply JsMapProps.wf_set.
Qed.

(** *** Easing *)

Lemma applyEasing_linear t : _applyEasing t "linear" = t.
Proof. reflexivity. Qed.

Lemma applyEasing_one easing : _applyEasing Num.one easing = Num.one.
Proof.
  unfold _applyEasing.
  destruct (String.eqb easing "easeIn"); [num_eq|].
  destruct (String.eqb easing "easeOut"); [num_eq|].
  destruct (String.eqb easing "easeInOut"); [num_eq|]. reflexivity.
Qed.

Lemma applyEasing_finite (p : Qc) easing : ∃ r, _applyEasing (Fin p) easing = Fin r.
Proof.
  unfold _applyEasing.
  destruct (String.eqb easing "easeIn"); [simpl; eauto|].
  destruct (String.eqb easing "easeOut"); [simpl; eauto|].
  destruct (String.eqb easing "easeInOut"); [|eauto].
  destruct (Num.lt (Fin p) Num.half); simpl; eauto.
Qed.

(** C7. [easeIn] at 0.5 is 0.25, [easeOut] at 0.5 is 0.75, and an easing
    name other than the four known ones leaves [t] as it is. *)
Theorem applyEasing_values :
  _applyEasing Num.half "easeIn" = Num.ofQ (1 # 4)
  ∧ _applyEasing Num.half "easeOut" = Num.ofQ (3 # 4)
  ∧ ∀ t easing,
      easing ≠ "linear" → easing ≠ "easeIn" → easing ≠ "easeOut" →
      easing ≠ "easeInOut" →
      _applyEasing t easing = t.
Proof.
  split; [num_eq|]. split; [num_eq|].
  intros t easing _ Hin Hout Hinout. unfold _applyEasing.
  apply String.eqb_neq in Hin, Hout, Hinout. by rewrite Hin, Hout, Hinout.
Qed.

(** *** Fade-in *)

Lemma fade_inv_step (dt : Qc) e a :
  fade_inv e a →
  fade_inv (animate Math_sin (Fin dt) e a).1 (animate Math_sin (Fin dt) e a).2.
Proof.
  intros (Hty & Hdur & Hdel & Hease & Hinit & q & Hq & Hc).
  unfold animate. destruct (completed a) eqn:Hcomp.
  { cbn [fst snd]. unfold fade_inv. rewrite Hcomp. eauto 10. }
  cbn [elapsed delay duration easing type initialAlpha set_elapsed].
  rewrite Hq, Hdel, Hdur, Hease, Hty, Hinit.
  cbn [Num.add]. destruct Hc as [Hlt Halpha].
  destruct (Num.lt (Fin (q + dt)) Num.zero) eqn:Hneg.
  { cbn [fst snd]. unfold fade_inv.
    cbn [type duration delay easing initialAlpha elapsed completed set_elapsed].
    rewrite Hcomp. repeat (split; [done|]). exists (q + dt)%Qc. split; [done|].
    rewrite NumProps.zero_eq in Hneg. apply NumProps.Qc_ltb_lt in Hneg.
    split.
    - eapply Qclt_trans; [exact Hneg|done].
    - intros Hge. by apply Qcle_not_lt in Hge. }
  rewrite NumProps.sub_zero, NumProps.div_one, applyEasing_linear.
  change (String.eqb "fadeIn" "fadeIn") with true.
  change (String.eqb "fadeIn" "pulse") with false.
  cbn [negb]. rewrite andb_true_r.
  rewrite NumProps.one_eq. cbn [Num.min Num.ge].
  destruct (Num.Qc_leb (q + dt) 1) eqn:Hle1.
  - (* progress = elapsed *)
    cbn [Num.ge]. destruct (Num.Qc_leb 1 (q + dt)) eqn:Hge1.
    + apply NumProps.Qc_leb_le in Hle1, Hge1.
      assert (Heq : (q + dt = 1)%Qc) by (by apply Qcle_antisym).
      cbn [fst snd]. unfold fade_inv.
      cbn [type duration delay easing initialAlpha elapsed completed
           set_elapsed set_completed alpha set_alpha].
      repeat (split; [done|]). exists (q + dt)%Qc. split; [done|].
      split; [done|]. rewrite Heq. cbn [Num.mul]. rewrite NumProps.one_eq.
      by f_equal.
    + apply NumProps.Qc_leb_gt in Hge1.
      cbn [fst snd]. unfold fade_inv.
      cbn [type duration delay easing initialAlpha elapsed completed
           set_elapsed set_completed alpha set_alpha].
      rewrite Hcomp. repeat (split; [done|]). exists (q + dt)%Qc.
      split; [done|]. split; [done|]. intros _. cbn [Num.mul]. f_equal. ring.
  - (* progress = 1 *)
    apply NumProps.Qc_leb_gt in Hle1.
    assert (Hge1 : Num.Qc_leb 1 1 = true) by reflexivity.
    cbn [Num.ge]. rewrite Hge1.
    cbn [fst snd]. unfold fade_inv.
    cbn [type duration delay easing initialAlpha elapsed completed
         set_elapsed set_completed alpha set_alpha].
    repeat (split; [done|]). exists (q + dt)%Qc. split; [done|].
    split; [by apply Qclt_le_weak|]. cbn [Num.mul]. rewrite NumProps.one_eq.
    by f_equal.
Qed.

Lemma fade_inv_setup canvas e direction :
  alpha e = Num.one →
  fade_inv
    (setupAnimation_on canvas e
       (mkAnimConfig "fadeIn" (Some Num.one) (Some Num.zero) (Some "linear")
                     direction)).1
    (setupAnimation_on canvas e
       (mkAnimConfig "fadeIn" (Some Num.one) (Some Num.zero) (Some "linear")
                     direction)).2.
Proof.
  intros Halpha. unfold setupAnimation_on, fade_inv. cbn.
  repeat (split; [done|]). exists 0%Qc. repeat (split; [done|]). done.
Qed.


(** *** Slide-in *)

Lemma Qc_sub_lt_one (p d : Qc) : (p < d)%Qc → (p - d < 1)%Qc.
Proof.
  intros Hlt. apply (Qcplus_lt_mono_r _ _ d).
  replace (p - d + d)%Qc with p by ring.
  eapply Qclt_trans; [exact Hlt|].
  replace d with (0 + d)%Qc at 1 by ring. by apply Qcplus_lt_mono_r.
Qed.

Lemma slide_inv_step (x0 dt : Qc) e a :
  slide_inv x0 e a →
  slide_inv x0 (animate Math_sin (Fin dt) e a).1 (animate Math_sin (Fin dt) e a).2.
Proof.
  intros (Hty & Hdir & Hdur & Hinit & d & q & xq & Hdel & Hq & Hx & Hc).
  unfold animate. destruct (completed a) eqn:Hcomp.
  { cbn [fst snd]. unfold slide_inv. rewrite Hcomp. eauto 12. }
  cbn [elapsed delay duration easing type set_elapsed].
  rewrite Hq, Hdel, Hdur, Hty. cbn [Num.add Num.lt Num.sub].
  destruct (Num.Qc_ltb (q + dt) d) eqn:Hearly.
  { cbn [fst snd]. unfold slide_inv.
    cbn [type duration delay direction initialX elapsed completed set_elapsed].
    rewrite Hcomp. repeat (split; [done|]). exists d, (q + dt)%Qc, xq.
    repeat (split; [done|]). apply Qc_sub_lt_one. by apply NumProps.Qc_ltb_lt. }
  rewrite NumProps.div_one.
  change (String.eqb "slideIn" "fadeIn") with false.
  change (String.eqb "slideIn" "fadeOut") with false.
  change (String.eqb "slideIn" "slideIn") with true.
  change (String.eqb "slideIn" "pulse") with false.
  cbn [negb]. rewrite andb_true_r.
  unfold _updateSlideIn. cbn [direction initialX set_elapsed]. rewrite Hdir, Hinit.
  change (String.eqb "left" "top" || String.eqb "left" "bottom") with false.
  change (String.eqb "left" "left" || String.eqb "left" "right") with true.
  cbv iota. rewrite Hx. rewrite NumProps.one_eq. cbn [Num.min].
  destruct (Num.Qc_leb (q + dt - d) 1) eqn:Hle1; cbn [Num.ge].
  - destruct (Num.Qc_leb 1 (q + dt - d)) eqn:Hge1.
    + apply NumProps.Qc_leb_le in Hle1, Hge1.
      assert (Heq : (q + dt - d = 1)%Qc) by (by apply Qcle_antisym).
      rewrite Heq. change (Fin 1%Qc) with Num.one. rewrite applyEasing_one.
      unfold _lerp. rewrite NumProps.lerp_end.
      cbn [fst snd]. unfold slide_inv.
      cbn [type duration delay direction initialX elapsed completed
           set_elapsed set_completed x set_x].
      repeat (split; [done|]). exists d, (q + dt)%Qc, x0. done.
    + apply NumProps.Qc_leb_gt in Hge1.
      destruct (applyEasing_finite (q + dt - d) (easing a)) as [r Hr].
      rewrite Hr. unfold _lerp. cbn [Num.sub Num.mul Num.add].
      cbn [fst snd]. unfold slide_inv.
      cbn [type duration delay direction initialX elapsed completed
           set_elapsed set_completed x set_x].
      rewrite Hcomp. repeat (split; [done|]). eexists d, (q + dt)%Qc, _. done.
  - assert (Hge1 : Num.Qc_leb 1 1 = true) by reflexivity. rewrite Hge1.
    change (Fin 1%Qc) with Num.one. rewrite applyEasing_one.
    unfold _lerp. rewrite NumProps.lerp_end.
    cbn [fst snd]. unfold slide_inv.
    cbn [type duration delay direction initialX elapsed completed
         set_elapsed set_completed x set_x].
    repeat (split; [done|]). exists d, (q + dt)%Qc, x0. done.
Qed.

Lemma or_num_finite (v : option num) (d : Qc) : ∃ q, or_num v (Fin d) = Fin q.
Proof.
  destruct v as [[p|]|]; simpl; eauto. destruct (negb _); eauto.
Qed.

(** A turn of the loop keeps what the animation recorded at setup. *)
Lemma animate_keeps dt e a :
  type (animate Math_sin dt e a).2 = type a
  ∧ delay (animate Math_sin dt e a).2 = delay a
  ∧ initialScaleX (animate Math_sin dt e a).2 = initialScaleX a
  ∧ initialScaleY (animate Math_sin dt e a).2 = initialScaleY a.
Proof.
  unfold animate. destruct (completed a); [done|].
  destruct (Num.lt _ _); [done|]. destruct (_ && _); done.
Qed.

Lemma or_num_nonneg (d : Qc) : or_num (Some (Fin d)) Num.zero = Fin d.
Proof.
  simpl. destruct (Num.Qc_eqb d 0) eqn:Hd; [|done].
  apply NumProps.Qc_eqb_eq in Hd. by subst.
Qed.

Lemma slide_inv_setup canvas e (wd x0 d : Qc) easing :
  width e = Some (Fin wd) → x e = Fin x0 → (0 <= d)%Qc →
  slide_inv x0
    (setupAnimation_on canvas e
       (mkAnimConfig "slideIn" (Some Num.one) (Some (Fin d)) easing (Some "left"))).1
    (setupAnimation_on canvas e
       (mkAnimConfig "slideIn" (Some Num.one) (Some (Fin d)) easing (Some "left"))).2
  ∧ x (setupAnimation_on canvas e
         (mkAnimConfig "slideIn" (Some Num.one) (Some (Fin d)) easing (Some "left"))).1
    = Num.sub (Num.neg (Fin wd)) Num.hundred
  ∧ delay (setupAnimation_on canvas e
         (mkAnimConfig "slideIn" (Some Num.one) (Some (Fin d)) easing (Some "left"))).2
    = Fin d.
Proof.
  intros Hw Hx Hd. unfold setupAnimation_on, slide_inv.
  cbn [fst snd anim_type anim_duration anim_delay anim_easing anim_direction
       type direction duration initialX delay elapsed completed].
  rewrite or_num_nonneg.
  change (String.eqb "slideIn" "fadeIn") with false.
  change (String.eqb "slideIn" "fadeOut") with false.
  change (String.eqb "slideIn" "slideIn") with true. cbv iota.
  unfold _setSlideInStart. cbn [direction].
  change (or_str (Some "left") "top") with "left".
  change (String.eqb "left" "top") with false.
  change (String.eqb "left" "bottom") with false.
  change (String.eqb "left" "left") with true. cbv iota.
  rewrite Hw. cbn [to_num default id x set_x].
  split; [|done]. repeat (split; [done|]).
  eexists d, 0%Qc, _. split; [done|]. split; [done|]. split; [done|].
  apply (Qcplus_lt_mono_r _ _ d). replace (0 - d + d)%Qc with 0%Qc by ring.
  eapply Qcle_lt_trans; [exact Hd|].
  replace d with (0 + d)%Qc at 1 by ring. by apply Qcplus_lt_mono_r.
Qed.


(** *** Pulse *)

Lemma pulse_inv_step sx sy dl dt e a :
  pulse_inv sx sy dl e a →
  pulse_inv sx sy dl (animate Math_sin dt e a).1 (animate Math_sin dt e a).2.
Proof.
  intros (Hty & Hcomp & Hsx & Hsy & Hdl).
  destruct (animate_keeps dt e a) as (Hty' & Hdl' & Hsx' & Hsy').
  unfold pulse_inv. rewrite Hty', Hdl', Hsx', Hsy'.
  repeat (split; [done|]). split; [|done].
  unfold animate. rewrite Hcomp.
  destruct (Num.lt _ _); [done|]. cbn [type set_elapsed]. rewrite Hty.
  change (String.eqb "pulse" "pulse") with true. cbn [negb].
  by rewrite andb_false_r.
Qed.

Lemma pulse_step_scale sx sy dl dt e a :
  pulse_inv sx sy dl e a →
  elapsed (animate Math_sin dt e a).2 = Num.add (elapsed a) dt
  ∧ (Num.lt (Num.add (elapsed a) dt) dl = false →
     let pulse :=
       Num.add Num.one
         (Num.mul Num.tenth
            (Math_sin (Num.mul Num.four (Num.sub (Num.add (elapsed a) dt) dl)))) in
     scaleX (animate Math_sin dt e a).1 = Some (Num.mul sx pulse)
     ∧ scaleY (animate Math_sin dt e a).1 = Some (Num.mul sy pulse)).
Proof.
  intros (Hty & Hcomp & Hsx & Hsy & Hdl).
  unfold animate. rewrite Hcomp.
  cbn [elapsed delay duration easing type set_elapsed initialScaleX initialScaleY].
  rewrite Hdl, Hty, Hsx, Hsy.
  destruct (Num.lt (Num.add (elapsed a) dt) dl) eqn:Hlt.
  { split; [done|]. intros; done. }
  change (String.eqb "pulse" "fadeIn") with false.
  change (String.eqb "pulse" "fadeOut") with false.
  change (String.eqb "pulse" "slideIn") with false.
  change (String.eqb "pulse" "scale") with false.
  change (String.eqb "pulse" "pulse") with true.
  cbn [negb]. rewrite andb_false_r. cbn [fst snd elapsed set_elapsed].
  split; [done|]. intros _. cbv zeta.
  cbn [scaleX scaleY set_scaleX set_scaleY].
  rewrite (NumProps.mul_comm Num.tenth), (NumProps.mul_comm Num.four). done.
Qed.

Lemma pulse_inv_setup canvas e config :
  anim_type config = "pulse" →
  pulse_inv (or_num (scaleX e) Num.one) (or_num (scaleY e) Num.one)
            (or_num (anim_delay config) Num.zero)
            (setupAnimation_on canvas e config).1
            (setupAnimation_on canvas e config).2.
Proof. intros Hty. unfold setupAnimation_on, pulse_inv. cbn. done. Qed.

(** C8. A pulse is never completed, whatever the frames; on each frame
    at which the elapsed time is not below the delay it sets [scaleX] and
    [scaleY] to the scale recorded at setup times
    [1 + 0.1 * sin (4 * (elapsed - delay))]. *)
Theorem pulse_never_completes (w : World) (h : handle) (e : Entity)
    (config : AnimConfig) :
  JsMap.wf (entityAnimations w) → heap w !! h = Some e →
  anim_type config = "pulse" →
  let w0 := _setupAnimation h config w in
  let initialScaleX := or_num (scaleX e) Num.one in
  let initialScaleY := or_num (scaleY e) Num.one in
  let delay := or_num (anim_delay config) Num.zero in
  ∀ dts : list num,
    let wn := animation_ticks Math_sin dts w0 in
    ∃ e' a',
      heap wn !! h = Some e'
      ∧ JsMap.get h (entityAnimations wn) = Some a'
      ∧ completed a' = false
      ∧ ∀ dt,
          let wn' := _updateAnimations Math_sin dt wn in
          ∃ e'' a'',
            heap wn' !! h = Some e''
            ∧ JsMap.get h (entityAnimations wn') = Some a''
            ∧ completed a'' = false
            ∧ elapsed a'' = Num.add (elapsed a') dt
            ∧ (Num.lt (elapsed a'') delay = false →
               let pulse :=
                 Num.add Num.one
                   (Num.mul Num.tenth
                      (Math_sin (Num.mul Num.four (Num.sub (elapsed a'') delay)))) in
               scaleX e'' = Some (Num.mul initialScaleX pulse)
               ∧ scaleY e'' = Some (Num.mul initialScaleY pulse)).
Proof.
  intros Hwf He Hty w0 sx sy dl dts wn.
  destruct (setupAnimation_at w h e config Hwf He) as (He0 & Ha0 & Hwf0).
  pose proof (pulse_inv_setup (canvasSize w) e config Hty) as Hinv0.
  destruct (ticks_invariant (pulse_inv sx sy dl) (λ _, True)) with
    (dts := dts) (w := w0) (h := h)
    (e := (setupAnimation_on (canvasSize w) e config).1)
    (a := (setupAnimation_on (canvasSize w) e config).2)
    as (e' & a' & He' & Ha' & Hwf' & Hinv); try done.
  { intros dt e1 a1 _. apply pulse_inv_step. }
  { by apply Forall_forall. }
  exists e', a'. split; [done|]. split; [done|].
  split; [by destruct Hinv as (_ & ? & _)|].
  intros dt wn'.
  destruct (updateAnimations_at dt wn h e' a' Hwf' He' Ha') as (He2 & Ha2 & _).
  eexists _, _. split; [exact He2|]. split; [exact Ha2|].
  pose proof (pulse_inv_step sx sy dl dt e' a' Hinv) as (_ & Hc2 & _).
  split; [exact Hc2|].
  destruct (pulse_step_scale sx sy dl dt e' a' Hinv) as [Hel Hscale].
  split; [exact Hel|]. rewrite Hel. exact Hscale.
Qed.

End Props.
End AnimationProps.

(** ** The state machine *)

Module StateMachineProps.
Import ConfigurableScene.
Section Props.
Variable Math_sin : num → num.
Variable getImage : string → bool.
Variable audioManager : bool.
Variable Button_hit : Entity → num → num → bool.
Variable switchScene : string → World → World.

Abbreviation _switchToState := (ConfigurableScene._switchToState getImage).
Abbreviation _handleTransition :=
  (ConfigurableScene._handleTransition getImage switchScene).
Abbreviation _handleButtonAction :=
  (ConfigurableScene._handleButtonAction getImage audioManager switchScene).
Abbreviation _handleButtonClicks :=
  (ConfigurableScene._handleButtonClicks getImage audioManager Button_hit
     switchScene).
Abbreviation update :=
  (ConfigurableScene.update Math_sin getImage audioManager Button_hit
     switchScene).
Abbreviation updates :=
  (ConfigurableScene.updates Math_sin getImage audioManager Button_hit
     switchScene).
Abbreviation _updateAnimations := (ConfigurableScene._updateAnimations Math_sin).

Lemma findIndex_None stateName (sts : list StateConfig) :
  findIndex stateName sts = None ↔ stateName ∉ st_name <$> sts.
Proof.
  induction sts as [|s sts IH]; simpl.
  - split; [intros _; apply not_elem_of_nil|done].
  - rewrite not_elem_of_cons. destruct (String.eqb_spec (st_name s) stateName) as [->|Hne].
    + split; [done|]. intros [? _]. done.
    + rewrite fmap_None, IH. intuition congruence.
Qed.

(** C9. A request to switch to a state name that the scene does not
    have, made directly, by a transition or by a button, reports a
    warning and leaves the state index, the state name, the timer, the
    recorded entities, the animations, the layers and the entities
    themselves as they were. *)
Theorem switchToState_unknown (stateName : string) (w : World) :
  stateName ∉ st_name <$> states w →
  let w' := _switchToState stateName w in
  w' = emit [Warn_StateNotFound (name w) stateName] w
  ∧ console w' = console w ++ [Warn_StateNotFound (name w) stateName]
  ∧ currentStateIndex w' = currentStateIndex w
  ∧ currentStateName w' = currentStateName w
  ∧ stateTimer w' = stateTimer w
  ∧ entities w' = entities w
  ∧ entityAnimations w' = entityAnimations w
  ∧ layerManager w' = layerManager w
  ∧ heap w' = heap w
  ∧ (∀ transition,
       truthy_str (tr_nextScene transition) = false →
       tr_nextState transition = Some stateName → stateName ≠ "" →
       _handleTransition transition w = w')
  ∧ (∀ action,
       act_action action = "switchState" →
       act_target action = Some stateName → stateName ≠ "" →
       _handleButtonAction action w
       = emit [Warn_StateNotFound (name w) stateName]
              (emit [Log_ButtonAction (name w) action] w)).
Proof.
  intros Hunknown w'. apply findIndex_None in Hunknown.
  assert (Hw' : w' = emit [Warn_StateNotFound (name w) stateName] w).
  { unfold w', ConfigurableScene._switchToState. by rewrite Hunknown. }
  split; [exact Hw'|]. rewrite Hw'. repeat (split; [reflexivity|]).
  split.
  - intros transition Hscene Hstate Hne.
    unfold ConfigurableScene._handleTransition. rewrite Hscene, Hstate.
    apply String.eqb_neq in Hne. cbn [truthy_str default id]. rewrite Hne.
    cbn [negb]. unfold ConfigurableScene._switchToState. by rewrite Hunknown.
  - intros action Hact Htarget Hne.
    unfold ConfigurableScene._handleButtonAction. rewrite Hact, Htarget.
    change (String.eqb "switchState" "switchScene") with false.
    change (String.eqb "switchState" "switchState") with true. cbv iota.
    apply String.eqb_neq in Hne. cbn [truthy_str default id]. rewrite Hne.
    cbn [negb]. unfold ConfigurableScene._switchToState.
    cbn [states emit name]. by rewrite Hunknown.
Qed.

(** *** The timer transition *)

Lemma updateAnimations_fields dt (w : World) :
  stateTimer (_updateAnimations dt w) = stateTimer w
  ∧ states (_updateAnimations dt w) = states w
  ∧ currentStateIndex (_updateAnimations dt w) = currentStateIndex w
  ∧ currentStateName (_updateAnimations dt w) = currentStateName w
  ∧ entities (_updateAnimations dt w) = entities w
  ∧ console (_updateAnimations dt w) = console w
  ∧ layerManager (_updateAnimations dt w) = layerManager w.
Proof.
  unfold ConfigurableScene._updateAnimations.
  destruct (animate_entries Math_sin dt (entityAnimations w) (heap w)). done.
Qed.

Lemma update_not_pressed fuel mouse dt (w : World) st tr :
  states w !! currentStateIndex w = Some st →
  st_transition st = Some tr → tr_type tr = "timer" →
  pressed mouse = false →
  update fuel mouse dt w
  = Done (if Num.ge (Num.add (stateTimer w) dt) (to_num (tr_duration tr))
          then _handleTransition tr
                 (_updateAnimations dt
                    (set_stateTimer (Num.add (stateTimer w) dt) w))
          else _updateAnimations dt
                 (set_stateTimer (Num.add (stateTimer w) dt) w)).
Proof.
  intros Hst Htr Hty Hp. unfold ConfigurableScene.update.
  destruct (states w) as [|s0 sts] eqn:Hstates; [by rewrite lookup_nil in Hst|].
  rewrite Hst, Hp. cbv zeta. unfold checkTransition. rewrite Htr, Hty.
  change (String.eqb "timer" "timer") with true. cbv iota.
  destruct (updateAnimations_fields dt
              (set_stateTimer (Num.add (stateTimer w) dt) w)) as (-> & _).
  done.
Qed.


(** *** Click dispatch *)

Abbreviation setupEntity := (ConfigurableScene.setupEntity getImage).
Abbreviation _setupState := (ConfigurableScene._setupState getImage).
Abbreviation checkClick :=
  (ConfigurableScene.checkClick getImage audioManager Button_hit switchScene).
Abbreviation handleButtonClicks_from :=
  (ConfigurableScene.handleButtonClicks_from getImage audioManager Button_hit
     switchScene).
Abbreviation step :=
  (ConfigurableScene.step Math_sin getImage audioManager Button_hit switchScene).
Abbreviation steps :=
  (ConfigurableScene.steps Math_sin getImage audioManager Button_hit switchScene).

(** The scene that a switch enters keeps the handles of this scene in
    order and does not record or click-test an entity of this scene. *)
Hypothesis switchScene_guarded :
  ∀ o target w, guarded o w → guarded o (switchScene target w).

Lemma guarded_footprint o (w w' : World) :
  length (heap w') = length (heap w) → entities w' = entities w →
  console w' = console w →
  guarded o w → guarded o w'.
Proof.
  unfold guarded, well_formed, tracked, click_tested.
  intros -> -> ->. done.
Qed.

Lemma guarded_emit o evs (w : World) :
  silent evs → guarded o w → guarded o (emit evs w).
Proof.
  unfold guarded, well_formed, tracked, click_tested.
  cbn [heap entities console emit].
  intros Hs ([Ht Hc] & Ho). split; [split; [done|]|].
  - intros h' x y [Hin|Hin]%elem_of_app; [by eapply Hc|]. by apply Hs in Hin.
  - intros h Hh. destruct (Ho h Hh) as (Hlt & Hnt & Hnc).
    split; [done|]. split; [done|].
    intros (x & y & [Hin|Hin]%elem_of_app).
    + apply Hnc. eauto.
    + by apply Hs in Hin.
Qed.

Lemma guarded_alloc o e (w : World) :
  guarded o w → guarded o (set_heap (heap w ++ [e]) w).
Proof.
  unfold guarded, well_formed, tracked, click_tested.
  cbn [heap entities console set_heap].
  rewrite length_app. cbn [length]. intros ([Ht Hc] & Ho). split; [split|].
  - intros h' Hin. apply Ht in Hin. lia.
  - intros h' x y Hin. apply Hc in Hin. lia.
  - intros h Hh. destruct (Ho h Hh) as (Hlt & Hnt & Hnc). split; [lia|done].
Qed.

Lemma guarded_new e (w : World) :
  well_formed w →
  guarded (Some (length (heap w))) (set_heap (heap w ++ [e]) w).
Proof.
  unfold guarded, well_formed, tracked, click_tested.
  cbn [heap entities console set_heap].
  rewrite length_app. cbn [length]. intros [Ht Hc]. split; [split|].
  - intros h' Hin. apply Ht in Hin. lia.
  - intros h' x y Hin. apply Hc in Hin. lia.
  - intros h [= <-]. split; [lia|]. split.
    + intros Hin. apply Ht in Hin. lia.
    + intros (x & y & Hin). apply Hc in Hin. lia.
Qed.

Lemma guarded_track o id h' (w : World) :
  (∀ h, o = Some h → h' ≠ h) → h' < length (heap w) →
  guarded o w →
  guarded o (set_entities (JsMap.set id h' (entities w)) w).
Proof.
  unfold guarded, well_formed, tracked, click_tested.
  cbn [heap entities console set_entities].
  intros Hne Hlt ([Ht Hc] & Ho). split; [split; [|done]|].
  - intros h2 [->|Hin]%JsMapProps.values_set; [done|by apply Ht].
  - intros h Hh. destruct (Ho h Hh) as (Hlt' & Hnt & Hnc).
    split; [done|]. split; [|done].
    intros [->|Hin]%JsMapProps.values_set; [by apply (Hne h')|done].
Qed.

Lemma guarded_untrack o (w : World) :
  guarded o w →
  guarded o (set_entities (JsMap.clear (entities w)) w).
Proof.
  unfold guarded, well_formed, tracked, click_tested.
  cbn [heap entities console set_entities].
  rewrite JsMapProps.values_clear.
  intros ([Ht Hc] & Ho). split; [split; [|done]|].
  - intros h2 Hin. by apply elem_of_nil in Hin.
  - intros h Hh. destruct (Ho h Hh) as (Hlt' & Hnt & Hnc).
    split; [done|]. split; [apply not_elem_of_nil|done].
Qed.

Lemma setupAnimation_guarded o h' config (w : World) :
  guarded o w → guarded o (_setupAnimation h' config w).
Proof.
  unfold _setupAnimation. destruct (heap w !! h') as [e|]; [|done].
  destruct (setupAnimation_on (canvasSize w) e config) as [e' a'].
  apply guarded_footprint; cbn; [|done..]. apply length_insert.
Qed.

Lemma createEntity_silent config :
  silent (_createEntity getImage config).2.
Proof.
  unfold _createEntity, silent. intros h x y.
  repeat (destruct (String.eqb _ _); [apply not_elem_of_nil|]).
  cbn. intros Hin%list_elem_of_singleton. done.
Qed.

Lemma addToLayer_silent {val : Type} `{EqDecision val} (entity : val)
    layerName (lm : LayerManager.t) :
  silent (LayerManager.addToLayer entity layerName lm).2.
Proof.
  unfold LayerManager.addToLayer, silent. intros h x y.
  destruct (negb (LayerManager.hasOwnProperty layerName)).
  - cbn. intros Hin%list_elem_of_singleton. done.
  - destruct (LayerManager.layerEntities lm !! layerName) as [es|];
      [destruct (negb _)|]; apply not_elem_of_nil.
Qed.

(** The body of the loop of [_setupState], once the entity is on the
    heap: it records the entity only under a truthy id. *)
Lemma setupEntity_guarded_gen o layerName config e (w : World) :
  (_createEntity getImage config).1 = Some e →
  guarded o (set_heap (heap w ++ [e]) w) →
  (truthy_str (cfg_id config) = true → ∀ h, o = Some h → h ≠ length (heap w)) →
  guarded o (setupEntity layerName config w).
Proof.
  intros Hcreate Hnt Hid. unfold ConfigurableScene.setupEntity.
  pose proof (createEntity_silent config) as Hsilent.
  destruct (_createEntity getImage config) as [[e0|] evs]; [|done].
  cbn in Hcreate, Hsilent. injection Hcreate as ->. cbv zeta.
  match goal with
  | |- context [@LayerManager.addToLayer ?V ?E ?a ?b ?c] =>
      pose proof (@addToLayer_silent V E a b c) as Hlm;
      destruct (@LayerManager.addToLayer V E a b c) as [lm warnings]
  end.
  cbn [snd] in Hlm.
  assert (Hnt2 : guarded o
            (emit warnings (set_layerManager lm
               (emit evs (set_heap (heap w ++ [e]) w))))).
  { apply guarded_emit; [done|].
    eapply (guarded_footprint o (emit evs (set_heap (heap w ++ [e]) w)));
      [done..|].
    by apply guarded_emit. }
  assert (Hnt3 : guarded o
            (if truthy_str (cfg_id config)
             then set_entities
                    (JsMap.set (default "" (cfg_id config)) (length (heap w))
                       (entities (emit warnings (set_layerManager lm
                          (emit evs (set_heap (heap w ++ [e]) w))))))
                    (emit warnings (set_layerManager lm
                       (emit evs (set_heap (heap w ++ [e]) w))))
             else emit warnings (set_layerManager lm
                    (emit evs (set_heap (heap w ++ [e]) w))))).
  { destruct (truthy_str (cfg_id config)); [|done].
    apply guarded_track; [|cbn; rewrite length_app; cbn; lia|done].
    intros h Hh Heq. by apply (Hid eq_refl h Hh). }
  destruct (cfg_animation config); [|done].
  by apply setupAnimation_guarded.
Qed.

Lemma setupEntity_guarded o layerName config (w : World) :
  guarded o w → guarded o (setupEntity layerName config w).
Proof.
  intros Hnt.
  destruct (_createEntity getImage config) as [[e|] evs] eqn:Hcreate.
  - apply (setupEntity_guarded_gen o layerName config e).
    + by rewrite Hcreate.
    + by apply guarded_alloc.
    + intros _ h Hh. destruct Hnt as (_ & Ho).
      destruct (Ho h Hh) as (Hlt & _). lia.
  - unfold ConfigurableScene.setupEntity. rewrite Hcreate.
    apply guarded_emit; [|done].
    pose proof (createEntity_silent config) as Hs. by rewrite Hcreate in Hs.
Qed.

Lemma setupState_guarded o state (w : World) :
  guarded o w → guarded o (_setupState state w).
Proof.
  intros Hnt. unfold ConfigurableScene._setupState.
  set (w1 := if st_clearLayers state then _ else w).
  assert (Hnt1 : guarded o w1).
  { unfold w1. destruct (st_clearLayers state); [|done].
    eapply (guarded_footprint o
              (set_entities (JsMap.clear (entities w)) w)); [done..|].
    by apply guarded_untrack. }
  clearbody w1. destruct (st_layers state) as [layers|]; [|done].
  revert w1 Hnt1. induction layers as [|[layerName [configs|]] layers IH];
    intros w1 Hnt1; cbn [foldl]; [done| |by apply IH].
  apply IH. unfold setupLayer. cbn [fst snd].
  clear IH. revert w1 Hnt1. induction configs as [|config configs IH];
    intros w1 Hnt1; cbn [foldl]; [done|].
  apply IH. by apply setupEntity_guarded.
Qed.

Lemma switchToState_guarded o stateName (w : World) :
  guarded o w → guarded o (_switchToState stateName w).
Proof.
  intros Hnt. unfold ConfigurableScene._switchToState.
  destruct (findIndex stateName (states w)) as [i|].
  - cbn [states set_stateTimer set_currentStateName set_currentStateIndex emit].
    set (w1 := set_stateTimer _ _).
    assert (Hnt1 : guarded o w1).
    { eapply (guarded_footprint o
                (emit [Log_SwitchingToState (name w) stateName] w)); [done..|].
      apply guarded_emit; [|done].
      intros h' x y Hin%list_elem_of_singleton. done. }
    destruct (states w !! i); [by apply setupState_guarded|done].
  - apply guarded_emit; [|done].
    intros h' x y Hin%list_elem_of_singleton. done.
Qed.

Lemma handleTransition_guarded o transition (w : World) :
  guarded o w → guarded o (_handleTransition transition w).
Proof.
  intros Hnt. unfold ConfigurableScene._handleTransition.
  destruct (truthy_str (tr_nextScene transition));
    [by apply switchScene_guarded|].
  destruct (truthy_str (tr_nextState transition)); [|done].
  by apply switchToState_guarded.
Qed.

Lemma handleButtonAction_guarded o action (w : World) :
  guarded o w → guarded o (_handleButtonAction action w).
Proof.
  intros Hnt. unfold ConfigurableScene._handleButtonAction.
  assert (Hnt1 : guarded o (emit [Log_ButtonAction (name w) action] w)).
  { apply guarded_emit; [|done].
    intros h' x y Hin%list_elem_of_singleton. done. }
  destruct (String.eqb (act_action action) "switchScene").
  { destruct (truthy_str (act_target action)); [|done].
    by apply switchScene_guarded. }
  destruct (String.eqb (act_action action) "switchState").
  { destruct (truthy_str (act_target action)); [|done].
    by apply switchToState_guarded. }
  destruct (String.eqb (act_action action) "playSound").
  { destruct (truthy_str (act_sound action) && audioManager); [|done].
    apply guarded_emit; [|done].
    intros h' x y Hin%list_elem_of_singleton. done. }
  destruct (String.eqb (act_action action) "custom"); [|done].
  apply guarded_emit; [|done].
  intros h' x y Hin%list_elem_of_singleton. done.
Qed.

Lemma checkClick_guarded o h' x y (w : World) :
  h' ∈ tracked w → guarded o w → guarded o (checkClick h' x y w).
Proof.
  intros Hin Hnt. unfold ConfigurableScene.checkClick.
  assert (Hnt1 : guarded o (emit [Call_checkClick h' x y] w)).
  { destruct Hnt as ([Ht Hc] & Ho).
    unfold guarded, well_formed, tracked, click_tested in *.
    cbn [heap entities console emit]. split; [split; [done|]|].
    - intros h2 x2 y2 [Hin2|Hin2]%elem_of_app; [by eapply Hc|].
      apply list_elem_of_singleton in Hin2. injection Hin2 as -> _ _.
      by apply Ht.
    - intros h Hh. destruct (Ho h Hh) as (Hlt & Hnt & Hnc).
      split; [done|]. split; [done|].
      intros (x2 & y2 & [Hin2|Hin2]%elem_of_app); [apply Hnc; eauto|].
      apply list_elem_of_singleton in Hin2. injection Hin2 as -> _ _. done. }
  cbn [heap emit].
  destruct (heap w !! h') as [e|]; [|done].
  destruct (Button_hit e x y); [|done].
  destruct (kind e) as [| ? ? [action|] | |]; try done.
  by apply handleButtonAction_guarded.
Qed.

Lemma handleButtonClicks_guarded o fuel : ∀ index x y (w : World),
  guarded o w →
  guarded o (world_of (handleButtonClicks_from fuel index x y w)).
Proof.
  induction fuel as [|fuel IH]; intros index x y w Hnt; [done|].
  cbn [ConfigurableScene.handleButtonClicks_from].
  destruct (entities w !! index) as [[[id h']|]|] eqn:Hentry; [|by apply IH|done].
  apply IH. destruct (heap w !! h') as [e|]; [|done].
  destruct (has_checkClick e); [|done].
  apply checkClick_guarded; [|done].
  by eapply JsMapProps.lookup_values.
Qed.

Lemma animate_entries_length dt (entries : JsMap.t handle Animation) :
  ∀ hp : list Entity,
    length (animate_entries Math_sin dt entries hp).2 = length hp.
Proof.
  induction entries as [|[[k a]|] entries IH]; intros hp;
    cbn [animate_entries]; [done| |].
  - destruct (hp !! k) as [e|].
    + destruct (animate Math_sin dt e a) as [e' a'].
      specialize (IH (<[k := e']> hp)).
      destruct (animate_entries Math_sin dt entries (<[k := e']> hp)).
      cbn [snd] in *. by rewrite IH, length_insert.
    + specialize (IH hp).
      by destruct (animate_entries Math_sin dt entries hp).
  - specialize (IH hp). by destruct (animate_entries Math_sin dt entries hp).
Qed.

Lemma updateAnimations_guarded o dt (w : World) :
  guarded o w → guarded o (_updateAnimations dt w).
Proof.
  apply guarded_footprint.
  - unfold ConfigurableScene._updateAnimations.
    pose proof (animate_entries_length dt (entityAnimations w) (heap w)) as Hlen.
    by destruct (animate_entries Math_sin dt (entityAnimations w) (heap w)).
  - by destruct (updateAnimations_fields dt w) as (_ & _ & _ & _ & -> & _).
  - by destruct (updateAnimations_fields dt w) as (_ & _ & _ & _ & _ & -> & _).
Qed.

Lemma update_guarded o fuel mouse dt (w : World) :
  guarded o w → guarded o (world_of (update fuel mouse dt w)).
Proof.
  intros Hnt. unfold ConfigurableScene.update.
  destruct (states w) as [|s0 sts]; [done|].
  destruct (_ !! currentStateIndex w) as [currentState|]; [|done]. cbv zeta.
  set (w1 := _updateAnimations dt _).
  assert (Hnt1 : guarded o w1).
  { apply updateAnimations_guarded.
    by eapply (guarded_footprint o w). }
  clearbody w1.
  assert (Hnt2 : guarded o
            (world_of (if pressed mouse
                       then _handleButtonClicks fuel mouse w1 else Done w1))).
  { destruct (pressed mouse); [|done].
    by apply handleButtonClicks_guarded. }
  destruct (if pressed mouse then _ else _) as [w2|w2]; [|done].
  cbn [world_of] in *. unfold checkTransition.
  destruct (st_transition currentState) as [transition|]; [|done].
  destruct (String.eqb (tr_type transition) "timer"); [|done].
  destruct (Num.ge _ _); [|done].
  by apply handleTransition_guarded.
Qed.

Lemma step_guarded o (w w' : World) :
  step w w' → guarded o w → guarded o w'.
Proof.
  intros Hstep Hnt. destruct Hstep.
  - by apply update_guarded.
  - by apply switchToState_guarded.
  - by apply setupEntity_guarded.
  - by apply setupState_guarded.
  - unfold populateLayers. destruct (states w); [done|].
    by apply setupState_guarded.
  - unfold enter. cbn [states set_stateTimer set_currentStateIndex].
    destruct (states w) as [|st sts].
    + by eapply (guarded_footprint o w).
    + apply guarded_emit.
      * intros h' x y Hin%list_elem_of_singleton. done.
      * by eapply (guarded_footprint o w).
  - unfold exit.
    eapply (guarded_footprint o
              (set_entities (JsMap.clear (entities w)) w)); [done..|].
    by apply guarded_untrack.
Qed.

Lemma steps_guarded o (w w' : World) :
  steps w w' → guarded o w → guarded o w'.
Proof.
  induction 1 as [|w1 w2 w3 Hstep _ IH]; [done|].
  intros Hnt. apply IH. by eapply step_guarded.
Qed.

Lemma steps_well_formed (w w' : World) :
  steps w w' → well_formed w → well_formed w'.
Proof.
  intros Hsteps Hwf.
  assert (Hg : guarded None w) by (split; [done|]; intros h Hh; discriminate Hh).
  by destruct (steps_guarded None w w' Hsteps Hg).
Qed.

(** The handles of a scene are in order from its construction on. *)
Lemma constructor_well_formed name (lm : LayerManager.t) config (w : World) :
  steps (loadFromConfig config (ConfigurableScene.constructor name lm)) w →
  well_formed w.
Proof.
  intros Hsteps. apply (steps_well_formed _ _ Hsteps). split.
  - intros h Hin.
    unfold loadFromConfig in Hin. destruct (cfg_canvasSize config);
      by apply elem_of_nil in Hin.
  - intros h x y Hin.
    unfold loadFromConfig in Hin. destruct (cfg_canvasSize config);
      by apply elem_of_nil in Hin.
Qed.

(** C10. [update] click-tests the entities recorded in the id-keyed map
    and no other: the entity that [_setupState] builds from a
    configuration without an id is not recorded, and whatever the scene
    does afterwards (frames with any pointer state, switches of state,
    the rest of the state's setup, leaving and entering the scene) it is
    never recorded and [checkClick] is never called on it, so its action
    is never dispatched. *)
Theorem untracked_entity_never_clicked (layerName : string)
    (config : EntityConfig) (e : Entity) (w : World) :
  well_formed w →
  truthy_str (cfg_id config) = false →
  (_createEntity getImage config).1 = Some e →
  let entity : handle := length (heap w) in
  let created := setupEntity layerName config w in
  entity < length (heap created)
  ∧ ∀ w', steps created w' →
          (entity ∉ tracked w') ∧ (¬ click_tested entity w').
Proof.
  intros Hwf Hid Hcreate entity created.
  assert (Hnt : guarded (Some entity) created).
  { apply (setupEntity_guarded_gen (Some entity) layerName config e); [done| |].
    - by apply guarded_new.
    - rewrite Hid. done. }
  split; [by destruct Hnt as (_ & Ho); destruct (Ho entity eq_refl)|].
  intros w' Hsteps.
  destruct (steps_guarded (Some entity) created w' Hsteps Hnt) as (_ & Ho).
  by destruct (Ho entity eq_refl) as (_ & ? & ?).
Qed.

End Props.
End StateMachineProps.

(** * The statements at sample content *)

Module Instances.
Import ConfigurableScene.

(** Entities 2 and 3 go to TEXT and entity 1 to BG_FAR: whichever call
    comes first, the frame is 1, 2, 3. *)
Lemma render_follows_layer_order_witness :
  (∀ layerName,
     LayerManager.callsOn layerName [(1, "BG_FAR"); (2, "TEXT"); (3, "TEXT")]
     = LayerManager.callsOn layerName [(2, "TEXT"); (1, "BG_FAR"); (3, "TEXT")])
  ∧ LayerManager.render (λ _ : nat, true)
      (LayerManager.addAll [(1, "BG_FAR"); (2, "TEXT"); (3, "TEXT")]
         LayerManager.constructor)
    = LayerManager.render (λ _ : nat, true)
        (LayerManager.addAll [(2, "TEXT"); (1, "BG_FAR"); (3, "TEXT")]
           LayerManager.constructor).
Proof.
  assert (Hsame : ∀ layerName,
     LayerManager.callsOn layerName [(1, "BG_FAR"); (2, "TEXT"); (3, "TEXT")]
     = LayerManager.callsOn layerName [(2, "TEXT"); (1, "BG_FAR"); (3, "TEXT")]).
  { intros layerName. unfold LayerManager.callsOn.
    rewrite !filter_cons, !filter_nil. cbn [snd].
    repeat case_decide; simplify_eq; reflexivity. }
  split; [exact Hsame|].
  exact (proj2 (LayerManagerProps.render_follows_layer_order
                  (λ _ : nat, true)
                  [(2, "TEXT"); (1, "BG_FAR"); (3, "TEXT")])
               [(1, "BG_FAR"); (2, "TEXT"); (3, "TEXT")] Hsame).
Defined.

Lemma addToLayer_twice_once_witness :
  LayerManager.reachable (LayerManager.constructor (val := nat))
  ∧ LayerManager.hasOwnProperty "SPRITES" = true
  ∧ LayerManager.occurrences 7
      (LayerManager.render (λ _ : nat, true)
         (LayerManager.addToLayer 7 "SPRITES"
            (LayerManager.addToLayer 7 "SPRITES" LayerManager.constructor).1).1)
    = 1.
Proof.
  split; [apply LayerManager.reach_constructor|]. split; [reflexivity|].
  refine (proj2 (proj2 (LayerManagerProps.addToLayer_twice_once
                          (λ _ : nat, true)
                          LayerManager.constructor 7 "SPRITES"
                          LayerManager.reach_constructor eq_refl) eq_refl) _).
  intros other es _ Hes. unfold LayerManager.constructor in Hes.
  cbn [LayerManager.layerEntities] in Hes.
  rewrite LayerManagerProps.lookup_reset in Hes.
  destruct (bool_decide _); [|by rewrite lookup_empty in Hes].
  injection Hes as <-. apply not_elem_of_nil.
Defined.


(** The hooks run in the order exit, setEngine, enter, populateLayers;
    entity 42 of the scene that is left is gone and entity 7 of the new
    scene is the one entity of the frame. *)
Example changeScene_sample :
  let eng := SceneManager.changeScene Sample.hooks (Some 1) Sample.engine in
  SceneManager.console eng
  = [Log_Message "exit 0"; Log_Message "setEngine 1"; Log_Message "enter 1";
     Log_Message "populateLayers 1"]
  ∧ SceneManager.currentScene eng = Some 1
  ∧ LayerManager.render (λ _, true) (SceneManager.layerManager Sample.engine) = [42]
  ∧ LayerManager.render (λ _, true) (SceneManager.layerManager eng) = [7].
Proof. vm_compute. repeat split; reflexivity. Qed.




(** A text object has no [width]: a slide-in from the left puts its [x]
    at [NaN], where it stays when the animation has completed. *)
Example slideIn_left_text :
  let text := _createText Sample.done_text in
  let w0 :=
    _setupAnimation 0
      (mkAnimConfig "slideIn" (Some Num.one) None None (Some "left"))
      (set_heap [text] Sample.scene) in
  let w1 := _updateAnimations Sample.flat_sin Num.two w0 in
  x text = Num.zero
  ∧ (x <$> heap w0 !! 0) = Some NaN
  ∧ (x <$> heap w1 !! 0) = Some NaN
  ∧ (completed <$> JsMap.get 0 (entityAnimations w1)) = Some true.
Proof. vm_compute. repeat split; reflexivity. Qed.


Lemma applyEasing_values_witness :
  "bounce" ≠ "linear" ∧ "bounce" ≠ "easeIn" ∧ "bounce" ≠ "easeOut"
  ∧ "bounce" ≠ "easeInOut"
  ∧ _applyEasing (Num.ofQ (3 # 10)) "bounce" = Num.ofQ (3 # 10).
Proof.
  assert (H1 : "bounce" ≠ "linear") by discriminate.
  assert (H2 : "bounce" ≠ "easeIn") by discriminate.
  assert (H3 : "bounce" ≠ "easeOut") by discriminate.
  assert (H4 : "bounce" ≠ "easeInOut") by discriminate.
  repeat (split; [assumption|]).
  exact (proj2 (proj2 AnimationProps.applyEasing_values)
               (Num.ofQ (3 # 10)) "bounce" H1 H2 H3 H4).
Defined.

Lemma pulse_never_completes_witness :
  let config := mkAnimConfig "pulse" None None None None in
  JsMap.wf (entityAnimations Sample.scene_with_sprite)
  ∧ heap Sample.scene_with_sprite !! 0 = Some Sample.sprite
  ∧ anim_type config = "pulse"
  ∧ ∃ e' a',
      heap (animation_ticks Sample.flat_sin [Num.one; Num.ofZ 1000]
              (_setupAnimation 0 config Sample.scene_with_sprite)) !! 0
      = Some e'
      ∧ JsMap.get 0
          (entityAnimations
             (animation_ticks Sample.flat_sin [Num.one; Num.ofZ 1000]
                (_setupAnimation 0 config Sample.scene_with_sprite)))
        = Some a'
      ∧ completed a' = false.
Proof.
  intros config. split; [apply NoDup_nil_2|]. split; [reflexivity|].
  split; [reflexivity|].
  destruct (AnimationProps.pulse_never_completes Sample.flat_sin
              Sample.scene_with_sprite 0 Sample.sprite config
              (NoDup_nil_2 : JsMap.wf (entityAnimations Sample.scene_with_sprite))
              eq_refl eq_refl [Num.one; Num.ofZ 1000])
    as (e' & a' & He' & Ha' & Hc & _).
  exists e', a'. split; [exact He'|]. split; [exact Ha'|exact Hc].
Defined.

Lemma switchToState_unknown_witness :
  ("Z" ∉ st_name <$> states Sample.scene)
  ∧ _switchToState Sample.no_image "Z" Sample.scene
    = emit [Warn_StateNotFound "Sample" "Z"] Sample.scene.
Proof.
  assert (Hunknown : "Z" ∉ st_name <$> states Sample.scene).
  { cbn. intros Hin. apply elem_of_cons in Hin as [Heq|Hin]; [discriminate Heq|].
    apply list_elem_of_singleton in Hin. discriminate Hin. }
  split; [exact Hunknown|].
  exact (proj1 (StateMachineProps.switchToState_unknown Sample.no_image
                  false Sample.stay "Z" Sample.scene Hunknown)).
Defined.

(** The button of state A has no id: a press that hits every button
    does not reach it. *)
Lemma untracked_entity_never_clicked_witness :
  let created :=
    setupEntity Sample.no_image "UI_BUTTONS" Sample.anonymous_button
                Sample.scene in
  let pressed_frame :=
    world_of (update Sample.flat_sin Sample.no_image false Sample.always_hit
                     Sample.stay 5 Sample.press (Num.ofQ (1 # 60)) created) in
  (∀ o target w, guarded o w → guarded o (Sample.stay target w))
  ∧ well_formed Sample.scene
  ∧ truthy_str (cfg_id Sample.anonymous_button) = false
  ∧ (_createEntity Sample.no_image Sample.anonymous_button).1
    = Some (_createButton Sample.anonymous_button)
  ∧ has_checkClick (_createButton Sample.anonymous_button) = true
  ∧ (0 ∉ tracked pressed_frame) ∧ (¬ click_tested 0 pressed_frame).
Proof.
  intros created pressed_frame.
  assert (Hstay : ∀ o target w,
            guarded o w → guarded o (Sample.stay target w))
    by (intros o target w Hg; exact Hg).
  assert (Hwf : well_formed Sample.scene).
  { split.
    - intros h Hin. by apply elem_of_nil in Hin.
    - intros h x y Hin. by apply elem_of_nil in Hin. }
  split; [exact Hstay|]. split; [exact Hwf|]. split; [reflexivity|].
  split; [reflexivity|]. split; [reflexivity|].
  refine (proj2 (StateMachineProps.untracked_entity_never_clicked
                   Sample.flat_sin Sample.no_image false Sample.always_hit
                   Sample.stay Hstay "UI_BUTTONS" Sample.anonymous_button
                   (_createButton Sample.anonymous_button) Sample.scene
                   Hwf eq_refl eq_refl) pressed_frame _).
  eapply steps_step; [apply step_update|apply steps_refl].
Defined.

(** The scenario of two states: entering A and pressing on its button,
    which now carries an id, makes B the current state and leaves the
    text of B as the one entity of the TEXT layer. *)
Example press_switches_state :
  let identified :=
    mkState "A" true
      (Some [("UI_BUTTONS",
              IsArray [mkEntityConfig "button" (Some "next") None None None
                         None None None None None None None None None
                         (Some (mkAction "switchState" (Some "B") None))
                         None None None None None None None None])])
      None in
  let w0 := set_states [identified; Sample.state_B] Sample.scene in
  let w1 := populateLayers Sample.no_image (enter w0) in
  let w2 :=
    world_of (update Sample.flat_sin Sample.no_image false Sample.always_hit
                     Sample.stay 5 Sample.press (Num.ofQ (1 # 60)) w1) in
  getCurrentStateName w1 = Some "A"
  ∧ getCurrentStateName w2 = Some "B"
  ∧ LayerManager.layerEntities (layerManager w2) !! "TEXT" = Some [1]
  ∧ LayerManager.layerEntities (layerManager w2) !! "UI_BUTTONS" = Some []
  ∧ (kind <$> heap w2 !! 1) = Some (Text "Done" "48px Arial" "#ffffff" "left")
  ∧ getEntity "done" w2 = Some 1.
Proof. vm_compute. repeat split; reflexivity. Qed.

End Instances.

(** * More of the compositor *)

Module LayerManagerMore.
Import LayerManager.
Section More.
Context {val : Type} `{EqDecision val}.
Variable has_render : val → bool.

Abbreviation t := (LayerManager.t (val := val)).

Lemma reachable_unknown (lm : t) :
  reachable lm →
  ∀ n, hasOwnProperty n = false → layerEntities lm !! n = None.
Proof.
  induction 1 as [|e m lm Hr IH|e m lm Hr IH|m lm Hr IH|lm Hr IH]; intros n Hn.
  - unfold constructor. cbn [layerEntities].
    rewrite LayerManagerProps.lookup_reset.
    rewrite bool_decide_eq_false_2; [apply lookup_empty|].
    intros Hin. apply LayerManagerProps.hasOwnProperty_true in Hin. congruence.
  - destruct (decide (m = n)) as [->|Hne].
    + by rewrite LayerManagerProps.addToLayer_unknown; [apply IH|].
    + rewrite LayerManagerProps.addToLayer_lookup_ne by done. by apply IH.
  - unfold removeFromLayer. destruct (hasOwnProperty m) eqn:Hm; simpl; [|by apply IH].
    destruct (layerEntities lm !! m); [|by apply IH]. cbn [layerEntities].
    rewrite lookup_insert_ne by congruence. by apply IH.
  - unfold clearLayer. destruct (hasOwnProperty m) eqn:Hm; [|by apply IH].
    cbn [layerEntities]. rewrite lookup_insert_ne by congruence. by apply IH.
  - unfold clearAll. cbn [layerEntities].
    rewrite LayerManagerProps.lookup_reset.
    rewrite bool_decide_eq_false_2; [by apply IH|].
    intros Hin. apply LayerManagerProps.hasOwnProperty_true in Hin. congruence.
Qed.

(** X1. Whatever the program does with a compositor, it has exactly the
    seven layers, and no layer holds an entity twice. *)
Theorem reachable_seven_layers (lm : t) :
  reachable lm →
  ∀ n,
    (hasOwnProperty n = true →
     ∃ es, layerEntities lm !! n = Some es ∧ NoDup es)
    ∧ (hasOwnProperty n = false → layerEntities lm !! n = None).
Proof.
  intros Hr n. split.
  - by apply LayerManagerProps.reachable_layers.
  - by apply reachable_unknown.
Qed.

Lemma remove_first_absent (e : val) (es : list val) :
  e ∉ es → remove_first e es = es.
Proof.
  induction es as [|a es IH]; [done|]. intros [Hne Hn]%not_elem_of_cons.
  simpl. rewrite bool_decide_eq_false_2 by congruence. by rewrite IH.
Qed.

Lemma remove_first_filter (e : val) (es : list val) :
  NoDup es → remove_first e es = filter (λ e', e' ≠ e) es.
Proof.
  induction es as [|a es IH]; [done|]. intros [Ha Hnd]%NoDup_cons.
  simpl. rewrite filter_cons. destruct (decide (a = e)) as [->|Hne].
  - rewrite bool_decide_eq_true_2 by done. rewrite decide_False by tauto.
    rewrite <- IH by done. by rewrite remove_first_absent.
  - rewrite bool_decide_eq_false_2 by done. rewrite decide_True by done.
    by rewrite IH.
Qed.

Lemma remove_first_snoc (e : val) (es : list val) :
  e ∉ es → remove_first e (es ++ [e]) = es.
Proof.
  induction es as [|a es IH]; simpl.
  - intros _. by rewrite bool_decide_eq_true_2.
  - intros [Hne Hn]%not_elem_of_cons.
    rewrite bool_decide_eq_false_2 by congruence. by rewrite IH.
Qed.

Lemma filter_absent (e : val) (es : list val) :
  e ∉ filter (λ e', e' ≠ e) es.
Proof. intros [Hne _]%list_elem_of_filter. done. Qed.

(** X2. [removeFromLayer] takes the entity out of the layer and keeps the
    other entities of the layer in their order and the other layers as
    they are; with an unknown layer name, or an entity that is not in the
    layer, it leaves the compositor as it is. *)
Theorem removeFromLayer_removes (lm : t) (e : val) (layerName : string) :
  (hasOwnProperty layerName = false → removeFromLayer e layerName lm = lm)
  ∧ (reachable lm → hasOwnProperty layerName = true →
     ∃ es,
       layerEntities lm !! layerName = Some es
       ∧ layerEntities (removeFromLayer e layerName lm) !! layerName
         = Some (filter (λ e', e' ≠ e) es)
       ∧ (∀ es', layerEntities (removeFromLayer e layerName lm) !! layerName
                 = Some es' → e ∉ es')
       ∧ (∀ other, other ≠ layerName →
            layerEntities (removeFromLayer e layerName lm) !! other
            = layerEntities lm !! other)
       ∧ (e ∉ es → removeFromLayer e layerName lm = lm)).
Proof.
  split.
  - intros Hn. unfold removeFromLayer. by rewrite Hn.
  - intros Hr Hn.
    destruct (LayerManagerProps.reachable_layers lm Hr layerName Hn)
      as (es & Hes & Hnd).
    exists es. split; [done|].
    assert (Hrem : layerEntities (removeFromLayer e layerName lm) !! layerName
                   = Some (filter (λ e', e' ≠ e) es)).
    { unfold removeFromLayer. rewrite Hn, Hes. cbn [negb layerEntities].
      by rewrite lookup_insert_eq, remove_first_filter. }
    split; [done|]. split; [|split].
    + intros es'. rewrite Hrem. intros [= <-]. apply filter_absent.
    + intros other Hne. unfold removeFromLayer. rewrite Hn, Hes.
      cbn [negb layerEntities]. by rewrite lookup_insert_ne.
    + intros Habsent. unfold removeFromLayer. rewrite Hn, Hes. cbn [negb].
      rewrite remove_first_absent by done. destruct lm as [m].
      cbn [layerEntities] in *. f_equal. by apply insert_id.
Qed.

(** X3. Adding an entity to a layer that does not hold it and removing it
    again gives back the compositor as it was. *)
Theorem add_then_remove (lm : t) (e : val) (layerName : string) :
  reachable lm → hasOwnProperty layerName = true →
  (∀ es, layerEntities lm !! layerName = Some es → e ∉ es) →
  removeFromLayer e layerName (addToLayer e layerName lm).1 = lm.
Proof.
  intros Hr Hn Habsent.
  destruct (LayerManagerProps.reachable_layers lm Hr layerName Hn)
    as (es & Hes & Hnd).
  specialize (Habsent es Hes).
  unfold addToLayer. rewrite Hn, Hes. cbn [negb].
  rewrite bool_decide_eq_false_2 by done. cbn [negb fst].
  unfold removeFromLayer. rewrite Hn. cbn [negb layerEntities].
  rewrite lookup_insert_eq, remove_first_snoc by done.
  destruct lm as [m]. cbn [layerEntities] in *. f_equal.
  rewrite insert_insert_eq. by apply insert_id.
Qed.

Lemma elem_of_flat_map (e : val) (f : string → list val) (ns : list string) :
  e ∈ flat_map f ns ↔ ∃ n, n ∈ ns ∧ e ∈ f n.
Proof.
  induction ns as [|a ns IH]; simpl.
  - split; [by intros ?%elem_of_nil|]. intros (n & Hn & _). by apply elem_of_nil in Hn.
  - rewrite elem_of_app, IH. split.
    + intros [He|(n & Hn & He)]; [exists a|exists n]; split; try done;
        [by left|by right].
    + intros (n & [->|Hn]%elem_of_cons & He); [by left|right; eauto].
Qed.

Lemma elem_of_render (lm : t) (e : val) :
  e ∈ render has_render lm
  ↔ has_render e = true
    ∧ ∃ n es, hasOwnProperty n = true
              ∧ layerEntities lm !! n = Some es ∧ e ∈ es.
Proof.
  unfold render. rewrite elem_of_flat_map. split.
  - intros (n & Hn & He).
    destruct (layerEntities lm !! n) as [es|] eqn:Hes;
      [|by apply elem_of_nil in He].
    apply list_elem_of_filter in He as [Hr He]. split; [done|].
    exists n, es. split; [|done]. by apply LayerManagerProps.hasOwnProperty_true.
  - intros (Hr & n & es & Hn & Hes & He). exists n. split.
    + by apply LayerManagerProps.hasOwnProperty_true in Hn.
    + rewrite Hes. by apply list_elem_of_filter.
Qed.

(** X4. A frame invokes exactly the entities that have [render] and sit
    in one of the seven layers: whatever lacks [render] is passed over. *)
Theorem render_invokes (lm : t) (e : val) :
  e ∈ render has_render lm
  ↔ has_render e = true
    ∧ ∃ layerName es, hasOwnProperty layerName = true
                      ∧ layerEntities lm !! layerName = Some es ∧ e ∈ es.
Proof. apply elem_of_render. Qed.

Lemma flat_map_sublist (f g : string → list val) (ns : list string) :
  (∀ n, f n `sublist_of` g n) → flat_map f ns `sublist_of` flat_map g ns.
Proof.
  intros Hfg. induction ns as [|a ns IH]; simpl; [done|]. by apply sublist_app.
Qed.

Lemma flat_map_length_le (f g : string → list val) n (ns : list string) :
  NoDup ns →
  (length (g n) ≤ S (length (f n)))%nat →
  (∀ n', n' ≠ n → g n' = f n') →
  (length (flat_map g ns) ≤ S (length (flat_map f ns)))%nat.
Proof.
  intros Hnd Hn Hother. induction ns as [|a ns IH]; simpl; [lia|].
  apply NoDup_cons in Hnd as [Ha Hnd]. rewrite !length_app.
  destruct (decide (a = n)) as [->|Hne].
  - assert (flat_map g ns = flat_map f ns) as ->; [|lia].
    clear IH Hnd. induction ns as [|b ns IH]; simpl; [done|].
    apply not_elem_of_cons in Ha as [Hb Ha]. rewrite IH by done.
    by rewrite Hother.
  - rewrite (Hother a Hne). specialize (IH Hnd). lia.
Qed.

(** X5. [addToLayer] never takes an entity out of the frame and never
    reorders it: the frame before the call is found, in order, within the
    frame after it, which is longer by one invocation at most. *)
Theorem addToLayer_extends_frame (lm : t) (e : val) (layerName : string) :
  render has_render lm
    `sublist_of` render has_render (addToLayer e layerName lm).1
  ∧ (length (render has_render (addToLayer e layerName lm).1)
     ≤ S (length (render has_render lm)))%nat.
Proof.
  assert (Hlayer : ∀ n,
    match layerEntities (addToLayer e layerName lm).1 !! n with
    | Some es => filter (λ e, has_render e = true) es
    | None => []
    end
    = match layerEntities lm !! n with
      | Some es =>
          filter (λ e, has_render e = true)
                 (if bool_decide (n = layerName ∧ hasOwnProperty n = true)
                  then push_new es e else es)
      | None => []
      end).
  { intros n. destruct (decide (n = layerName)) as [->|Hne].
    - destruct (hasOwnProperty layerName) eqn:Hn.
      + destruct (layerEntities lm !! layerName) as [es|] eqn:Hes.
        * rewrite (LayerManagerProps.addToLayer_lookup_eq e layerName lm es)
            by done.
          by rewrite bool_decide_eq_true_2.
        * unfold addToLayer. rewrite Hn, Hes. cbn [negb fst]. by rewrite Hes.
      + rewrite LayerManagerProps.addToLayer_unknown by done. cbn [fst].
        destruct (layerEntities lm !! layerName); [|done].
        rewrite bool_decide_eq_false_2; [done|]. intros [_ ?]. congruence.
    - rewrite LayerManagerProps.addToLayer_lookup_ne by done.
      destruct (layerEntities lm !! n); [|done].
      rewrite bool_decide_eq_false_2; [done|]. intros [? _]. done. }
  split.
  - unfold render. apply flat_map_sublist. intros n. rewrite Hlayer.
    destruct (layerEntities lm !! n) as [es|]; [|done].
    destruct (bool_decide _); [|done].
    unfold push_new. destruct (negb _); [|done].
    rewrite filter_app. by apply sublist_inserts_r.
  - unfold render.
    apply (flat_map_length_le _ _ layerName).
    + rewrite LayerManagerProps.sortedLayers_eq. compute_done.
    + rewrite Hlayer. destruct (layerEntities lm !! layerName) as [es|]; [|cbn; lia].
      destruct (bool_decide _); [|lia]. unfold push_new.
      destruct (negb _); [|lia]. rewrite filter_app, length_app.
      rewrite filter_cons, filter_nil. destruct (decide _); cbn; lia.
    + intros n' Hne. rewrite Hlayer.
      destruct (layerEntities lm !! n'); [|done].
      rewrite bool_decide_eq_false_2; [done|]. intros [? _]. done.
Qed.

(** X6. After [clearAll] every one of the seven layers is empty and a
    frame invokes nothing, whatever the compositor held; clearing again
    changes nothing. *)
Theorem clearAll_empties (lm : t) :
  (∀ layerName, hasOwnProperty layerName = true →
                layerEntities (clearAll lm) !! layerName = Some [])
  ∧ render has_render (clearAll lm) = []
  ∧ clearAll (clearAll lm) = clearAll lm.
Proof.
  split; [intros n Hn; by apply LayerManagerProps.clearAll_lookup|]. split.
  - unfold render. rewrite LayerManagerProps.sortedLayers_eq. cbn [flat_map].
    by rewrite !LayerManagerProps.clearAll_lookup.
  - unfold clearAll. cbn [layerEntities]. f_equal. apply map_eq. intros n.
    rewrite !LayerManagerProps.lookup_reset. by destruct (bool_decide _).
Qed.

(** X7. [clearLayer] empties the layer it names and takes exactly the
    entities of that layer out of the frame, unless another layer holds
    them too; with an unknown name it leaves the compositor as it is. *)
Theorem clearLayer_one_layer (lm : t) (layerName : string) :
  (hasOwnProperty layerName = false → clearLayer layerName lm = lm)
  ∧ (hasOwnProperty layerName = true →
     layerEntities (clearLayer layerName lm) !! layerName = Some []
     ∧ (∀ other, other ≠ layerName →
          layerEntities (clearLayer layerName lm) !! other
          = layerEntities lm !! other)
     ∧ ∀ e, e ∈ render has_render (clearLayer layerName lm)
            ↔ has_render e = true
              ∧ ∃ other es, other ≠ layerName ∧ hasOwnProperty other = true
                            ∧ layerEntities lm !! other = Some es ∧ e ∈ es).
Proof.
  split.
  - intros Hn. unfold clearLayer. by rewrite Hn.
  - intros Hn.
    assert (Heq : layerEntities (clearLayer layerName lm) !! layerName = Some []).
    { unfold clearLayer. rewrite Hn. cbn [layerEntities]. apply lookup_insert_eq. }
    assert (Hne : ∀ other, other ≠ layerName →
              layerEntities (clearLayer layerName lm) !! other
              = layerEntities lm !! other).
    { intros other Hother. unfold clearLayer. rewrite Hn. cbn [layerEntities].
      by rewrite lookup_insert_ne. }
    split; [done|]. split; [done|].
    intros e. rewrite elem_of_render. split.
    + intros (Hr & n & es & Hk & Hes & He). split; [done|].
      destruct (decide (n = layerName)) as [->|Hother].
      * rewrite Heq in Hes. injection Hes as <-. by apply elem_of_nil in He.
      * exists n, es. rewrite Hne in Hes by done. done.
    + intros (Hr & n & es & Hother & Hk & Hes & He). split; [done|].
      exists n, es. by rewrite Hne.
Qed.

End More.
End LayerManagerMore.

(** * The scene registry *)

Module JsMapMore.
Section More.
Context {K V : Type} `{EqDecision K}.
Implicit Types m : JsMap.t K V.

Lemma get_set_ne k k' v m :
  k ≠ k' → JsMap.get k' (JsMap.set k v m) = JsMap.get k' m.
Proof.
  intros Hne. induction m as [|[[k0 v0]|] m IH]; cbn [JsMap.set JsMap.get].
  - by rewrite bool_decide_eq_false_2.
  - destruct (decide (k0 = k)) as [->|Hk].
    + rewrite bool_decide_eq_true_2 by done. cbn [JsMap.get].
      by rewrite !bool_decide_eq_false_2.
    + rewrite (bool_decide_eq_false_2 (k0 = k)) by done. cbn [JsMap.get].
      by rewrite IH.
  - exact IH.
Qed.

Lemma get_clear k m : JsMap.get k (JsMap.clear m) = None.
Proof. induction m as [|[[k0 v0]|] m IH]; simpl; done. Qed.

End More.
End JsMapMore.

Module SceneManagerMore.
Import SceneManager.
Section More.
Context {val : Type} `{EqDecision val} {U : Type}.
Variable scene_at : SceneRef → Scene val U.

(** X9. [switchTo] enters the scene that was registered last under the
    name; registering under one name leaves the scenes under the other
    names as they are; under a name that was never registered [switchTo]
    writes a warning and changes nothing else. *)
Theorem switchTo_registered (name : string) (scene : SceneRef)
    (eng : Engine val U) :
  switchTo scene_at name (register name scene eng)
  = changeScene scene_at (Some scene) (register name scene eng)
  ∧ (∀ earlier, switchTo scene_at name
                  (register name scene (register name earlier eng))
                = changeScene scene_at (Some scene)
                    (register name scene (register name earlier eng)))
  ∧ (∀ other, other ≠ name →
       JsMap.get other (scenes (register name scene eng))
       = JsMap.get other (scenes eng))
  ∧ (JsMap.get name (scenes eng) = None →
     switchTo scene_at name eng = warn (Warn_SceneNotFound name) eng
     ∧ currentScene (switchTo scene_at name eng) = currentScene eng
     ∧ layerManager (switchTo scene_at name eng) = layerManager eng).
Proof.
  split; [|split; [|split]].
  - unfold switchTo, register. cbn [scenes set_scenes].
    by rewrite JsMapProps.get_set_eq.
  - intros earlier. unfold switchTo, register. cbn [scenes set_scenes].
    by rewrite JsMapProps.get_set_eq.
  - intros other Hne. unfold register. cbn [scenes set_scenes].
    by apply JsMapMore.get_set_ne.
  - intros Hnone. unfold switchTo. by rewrite Hnone.
Qed.

End More.
End SceneManagerMore.

(** * The pong scene *)

Module PongSceneProps.
Import ConfigurableScene PongScene.

(** X8. Of the five entities that [populateLayers] hands to a cleared
    compositor only the background reaches a layer: MAIN and UI are not
    layers, each of the four other calls writes a warning, and a frame
    invokes the background alone. *)
Theorem populateLayers_background_only {val : Type} `{EqDecision val}
    (has_render : val → bool)
    (bg playerPaddle aiPaddle ball scoreDisplay : val) (lm : LayerManager.t) :
  let populated :=
    populateLayers bg playerPaddle aiPaddle ball scoreDisplay
                   (LayerManager.clearAll lm) in
  populated.2
  = [Warn_UnknownLayer "MAIN"; Warn_UnknownLayer "MAIN";
     Warn_UnknownLayer "MAIN"; Warn_UnknownLayer "UI"]
  ∧ LayerManager.render has_render populated.1
    = (if has_render bg then [bg] else [])
  ∧ ∀ layerName es e,
      LayerManager.hasOwnProperty layerName = true →
      LayerManager.layerEntities populated.1 !! layerName = Some es →
      e ∈ es → e = bg ∧ layerName = "BG_FAR".
Proof.
  intros populated.
  assert (Hpop : populated
    = ((LayerManager.addToLayer bg "BG_FAR" (LayerManager.clearAll lm)).1,
       [Warn_UnknownLayer "MAIN"; Warn_UnknownLayer "MAIN";
        Warn_UnknownLayer "MAIN"; Warn_UnknownLayer "UI"])).
  { unfold populated, populateLayers.
    destruct (LayerManager.addToLayer bg "BG_FAR" (LayerManager.clearAll lm))
      as [lm1 w1] eqn:Hadd.
    rewrite !LayerManagerProps.addToLayer_unknown by reflexivity.
    cbn [fst]. f_equal.
    unfold LayerManager.addToLayer in Hadd.
    change (LayerManager.hasOwnProperty "BG_FAR") with true in Hadd.
    cbn [negb] in Hadd.
    rewrite LayerManagerProps.clearAll_lookup in Hadd by reflexivity.
    rewrite bool_decide_eq_false_2 in Hadd by apply not_elem_of_nil.
    cbn [negb] in Hadd. by injection Hadd as _ <-. }
  assert (Hlayer : ∀ n, LayerManager.hasOwnProperty n = true →
    LayerManager.layerEntities populated.1 !! n
    = Some (if bool_decide (n = "BG_FAR") then [bg] else [])).
  { intros n Hn. rewrite Hpop. cbn [fst].
    destruct (decide (n = "BG_FAR")) as [->|Hne].
    - rewrite (LayerManagerProps.addToLayer_lookup_eq bg "BG_FAR" _ []);
        [|done|by apply LayerManagerProps.clearAll_lookup].
      rewrite bool_decide_eq_true_2 by done. unfold LayerManager.push_new.
      by rewrite bool_decide_eq_false_2 by apply not_elem_of_nil.
    - rewrite LayerManagerProps.addToLayer_lookup_ne by done.
      rewrite bool_decide_eq_false_2 by done.
      by apply LayerManagerProps.clearAll_lookup. }
  split; [by rewrite Hpop|]. split.
  - unfold LayerManager.render. rewrite LayerManagerProps.sortedLayers_eq.
    cbn [flat_map]. rewrite !Hlayer by reflexivity.
    rewrite bool_decide_eq_true_2 by done.
    rewrite !bool_decide_eq_false_2 by discriminate.
    rewrite filter_cons, !filter_nil.
    destruct (has_render bg) eqn:Hbg.
    + by rewrite decide_True.
    + rewrite decide_False; [done|]. congruence.
  - intros n es e Hn Hes He. rewrite Hlayer in Hes by done.
    injection Hes as <-. destruct (decide (n = "BG_FAR")) as [->|Hne].
    + rewrite bool_decide_eq_true_2 in He by done.
      by apply list_elem_of_singleton in He.
    + rewrite bool_decide_eq_false_2 in He by done. by apply elem_of_nil in He.
Qed.

Section Props.
Variable Math_random : nat → num.

Lemma offsetY_eq : offsetY = Fin (Q2Qc 660).
Proof. num_eq. Qed.

Lemma court_bottom (hq : Qc) :
  Num.sub (Num.add offsetY gameHeight) (Fin hq) = Fin (Q2Qc 1260 - hq).
Proof.
  assert (Num.add offsetY gameHeight = Fin (Q2Qc 1260)) as -> by num_eq. done.
Qed.

(** The clamp of a paddle that has a finite place and a height of at
    most the height of the court. *)
Lemma keep_in_court_in_court (paddle : Entity) (yq hq : Qc) :
  y paddle = Fin yq → height paddle = Some (Fin hq) → (hq <= Q2Qc 600)%Qc →
  in_court (keep_in_court paddle).
Proof.
  intros Hy Hh Hle. unfold keep_in_court, in_court.
  rewrite Hy, Hh. cbn [to_num default id]. rewrite court_bottom, offsetY_eq.
  cbn [Num.min max y set_y height]. 
  assert (Hlow : (Q2Qc 660 <= Q2Qc 1260 - hq)%Qc).
  { apply (Qcplus_le_mono_r _ _ hq).
    replace (Q2Qc 1260 - hq + hq)%Qc with (Q2Qc 1260) by ring.
    eapply Qcle_trans; [apply Qcplus_le_mono_l; exact Hle|].
    by apply NumProps.Qc_leb_le. }
  destruct (Num.Qc_leb (Q2Qc 1260 - hq) yq) eqn:Hmin.
  - (* the paddle was too low *)
    apply NumProps.Qc_leb_le in Hlow as Hb. rewrite Hb.
    eexists _, hq. split; [done|]. split; [done|].
    unfold le. cbn [Num.ge]. split; [done|].
    apply NumProps.Qc_leb_le, Qcle_refl.
  - apply NumProps.Qc_leb_gt in Hmin.
    destruct (Num.Qc_leb (Q2Qc 660) yq) eqn:Hmax.
    + eexists _, hq. split; [done|]. split; [done|]. unfold le. cbn [Num.ge].
      split; [done|]. apply NumProps.Qc_leb_le. by apply Qclt_le_weak.
    + eexists _, hq. split; [done|]. split; [done|]. unfold le. cbn [Num.ge].
      split; [apply NumProps.Qc_leb_le, Qcle_refl|].
      by apply NumProps.Qc_leb_le.
Qed.

Lemma resetBall_paddles (s : t) :
  playerPaddle (resetBall Math_random s) = playerPaddle s
  ∧ aiPaddle (resetBall Math_random s) = aiPaddle s
  ∧ playerScore (resetBall Math_random s) = playerScore s
  ∧ aiScore (resetBall Math_random s) = aiScore s
  ∧ x (ball (resetBall Math_random s)) = Num.ofZ 530.
Proof. repeat split; reflexivity. Qed.

Lemma checkScore_paddles (s : t) :
  playerPaddle (checkScore Math_random s) = playerPaddle s
  ∧ aiPaddle (checkScore Math_random s) = aiPaddle s.
Proof.
  unfold checkScore. cbv zeta.
  destruct (Num.lt _ Num.zero); destruct (gt _ gameWidth); done.
Qed.

Lemma checkCollisions_paddles (s : t) :
  playerPaddle (checkCollisions s) = playerPaddle s
  ∧ aiPaddle (checkCollisions s) = aiPaddle s.
Proof.
  unfold checkCollisions. cbv zeta.
  destruct (le _ offsetY || _); destruct (overlaps _ _);
    cbn [aiPaddle set_ballVelX set_ballVelY playerPaddle];
    destruct (_ && _ && _ && _); done.
Qed.


(** X11. [checkScore] gives at most one point in a frame and takes none
    away: either nothing changes, or one of the two scores grows by one
    and the ball is put back to the middle. *)
Theorem checkScore_one_point (s : t) :
  checkScore Math_random s = s
  ∨ (aiScore (checkScore Math_random s) = Num.add (aiScore s) Num.one
     ∧ playerScore (checkScore Math_random s) = playerScore s
     ∧ x (ball (checkScore Math_random s)) = Num.ofZ 530
     ∧ Num.lt (Num.add (x (ball s)) (to_num (width (ball s)))) Num.zero = true)
  ∨ (playerScore (checkScore Math_random s) = Num.add (playerScore s) Num.one
     ∧ aiScore (checkScore Math_random s) = aiScore s
     ∧ x (ball (checkScore Math_random s)) = Num.ofZ 530
     ∧ gt (x (ball s)) gameWidth = true).
Proof.
  unfold checkScore. cbv zeta.
  destruct (Num.lt (Num.add (x (ball s)) (to_num (width (ball s)))) Num.zero)
    eqn:Hleft.
  - right. left.
    destruct (resetBall_paddles (set_aiScore (Num.add (aiScore s) Num.one) s))
      as (_ & _ & Hps & Has & Hx).
    rewrite Hx. assert (gt (Num.ofZ 530) gameWidth = false) as -> by reflexivity.
    rewrite Hps, Has, Hx. done.
  - destruct (gt (x (ball s)) gameWidth) eqn:Hright; [|by left].
    right. right.
    destruct (resetBall_paddles (set_playerScore (Num.add (playerScore s) Num.one) s))
      as (_ & _ & Hps & Has & Hx).
    rewrite Hps, Has, Hx. done.
Qed.

End Props.
End PongSceneProps.

(** * More of the scene interpreter *)

Module InterpreterMore.
Import ConfigurableScene Vocabulary.
Section More.
Variable Math_sin : num → num.
Variable getImage : string → bool.
Variable audioManager : bool.
Variable Button_hit : Entity → num → num → bool.
Variable switchScene : string → World → World.

Abbreviation _createEntity := (ConfigurableScene._createEntity getImage).
Abbreviation setupEntity := (ConfigurableScene.setupEntity getImage).
Abbreviation setupLayer := (ConfigurableScene.setupLayer getImage).
Abbreviation _setupState := (ConfigurableScene._setupState getImage).
Abbreviation _switchToState := (ConfigurableScene._switchToState getImage).
Abbreviation _updateAnimations := (ConfigurableScene._updateAnimations Math_sin).
Abbreviation animate := (ConfigurableScene.animate Math_sin).
Abbreviation handleButtonClicks_from :=
  (ConfigurableScene.handleButtonClicks_from getImage audioManager Button_hit
     switchScene).
Abbreviation _handleButtonClicks :=
  (ConfigurableScene._handleButtonClicks getImage audioManager Button_hit
     switchScene).
Abbreviation checkClick :=
  (ConfigurableScene.checkClick getImage audioManager Button_hit switchScene).

(** *** The entity factory *)

Lemma or_num_fin (v : option num) (d : Qc) : ∃ q, or_num v (Fin d) = Fin q.
Proof. destruct v as [[p|]|]; simpl; eauto. destruct (negb _); eauto. Qed.

Lemma createSprite_shape config :
  ∃ xq yq wq hq,
    x (_createSprite getImage config) = Fin xq
    ∧ y (_createSprite getImage config) = Fin yq
    ∧ width (_createSprite getImage config) = Some (Fin wq)
    ∧ height (_createSprite getImage config) = Some (Fin hq)
    ∧ has_checkClick (_createSprite getImage config) = false.
Proof.
  destruct (or_num_fin (cfg_x config) 0) as [xq Hx].
  destruct (or_num_fin (cfg_y config) 0) as [yq Hy].
  destruct (or_num_fin (cfg_width config) 0) as [wq Hw].
  destruct (or_num_fin (cfg_height config) 0) as [hq Hh].
  exists xq, yq, wq, hq. unfold _createSprite, new_Sprite.
  change Num.zero with (Fin 0%Qc). rewrite Hx, Hy, Hw, Hh.
  destruct (truthy_str (cfg_assetId config) && _);
    destruct (cfg_rotation config); destruct (cfg_alpha config);
    destruct (cfg_scaleX config); destruct (cfg_scaleY config);
    destruct (cfg_visible config); done.
Qed.


(** *** Setting up one entity *)

Lemma createEntity_silent_nil config :
  match _createEntity config with
  | (Some _, evs) => evs = []
  | (None, _) => True
  end.
Proof.
  unfold ConfigurableScene._createEntity.
  repeat (destruct (String.eqb _ _); [done|]). done.
Qed.

(** What the body of the loop of [_setupState] does with an entity the
    factory has made. *)
Lemma setupEntity_made layerName config (w : World) e evs :
  _createEntity config = (Some e, evs) →
  let h : handle := length (heap w) in
  let w' := setupEntity layerName config w in
  length (heap w') = S (length (heap w))
  ∧ (∀ k, (k < length (heap w))%nat → heap w' !! k = heap w !! k)
  ∧ (cfg_animation config = None → heap w' = heap w ++ [e])
  ∧ (∃ e', heap w' = heap w ++ [e'] ∧ kind e' = kind e)
  ∧ layerManager w' = (LayerManager.addToLayer h layerName (layerManager w)).1
  ∧ console w'
    = console w ++ evs
      ++ (LayerManager.addToLayer h layerName (layerManager w)).2
  ∧ entities w'
    = (if truthy_str (cfg_id config)
       then JsMap.set (default "" (cfg_id config)) h (entities w)
       else entities w)
  ∧ JsMap.keys (entityAnimations w')
    = (if bool_decide (is_Some (cfg_animation config))
       then JsMap.keys (JsMap.set h (mkAnimation "" NaN NaN "" "" NaN false
                                       false NaN NaN NaN NaN NaN)
                                  (entityAnimations w))
       else JsMap.keys (entityAnimations w))
  ∧ states w' = states w ∧ currentStateIndex w' = currentStateIndex w
  ∧ currentStateName w' = currentStateName w ∧ stateTimer w' = stateTimer w
  ∧ name w' = name w ∧ canvasSize w' = canvasSize w.
Proof.
  intros Hcreate h w'. unfold w', ConfigurableScene.setupEntity.
  rewrite Hcreate. cbv zeta. fold h.
  cbn [layerManager emit set_heap].
  destruct (LayerManager.addToLayer h layerName (layerManager w))
    as [lm warnings].
  cbn [fst snd].
  set (w2 := if truthy_str (cfg_id config) then _ else _).
  assert (Hw2 : heap w2 = heap w ++ [e]
                ∧ layerManager w2 = lm
                ∧ console w2 = console w ++ evs ++ warnings
                ∧ entities w2
                  = (if truthy_str (cfg_id config)
                     then JsMap.set (default "" (cfg_id config)) h (entities w)
                     else entities w)
                ∧ entityAnimations w2 = entityAnimations w
                ∧ states w2 = states w
                ∧ currentStateIndex w2 = currentStateIndex w
                ∧ currentStateName w2 = currentStateName w
                ∧ stateTimer w2 = stateTimer w
                ∧ name w2 = name w ∧ canvasSize w2 = canvasSize w).
  { unfold w2. destruct (truthy_str (cfg_id config)); cbn;
      by rewrite <- app_assoc. }
  clearbody w2.
  destruct Hw2 as (Hheap & Hlm & Hcon & Hent & Han & Hst & Hidx & Hnm & Htm & Hname & Hcv).
  assert (Hat : heap w2 !! h = Some e).
  { rewrite Hheap. unfold h. rewrite lookup_app_r by lia.
    by rewrite Nat.sub_diag. }
  destruct (cfg_animation config) as [animConfig|].
  - unfold _setupAnimation. rewrite Hat.
    destruct (setupAnimation_on (canvasSize w2) e animConfig) as [e' a'] eqn:Hs.
    cbn [heap set_heap set_entityAnimations layerManager console entities
         entityAnimations states currentStateIndex currentStateName stateTimer
         name canvasSize].
    rewrite length_insert, Hheap, length_app. cbn [length].
    split; [lia|]. split.
    { intros k Hk. rewrite list_lookup_insert_ne by (unfold h; lia).
      by rewrite lookup_app_l. }
    split; [done|]. split.
    { exists e'. split.
      - unfold h. rewrite insert_app_r_alt by lia.
        by rewrite Nat.sub_diag.
      - unfold setupAnimation_on in Hs. injection Hs as <- _.
        destruct (String.eqb _ "fadeIn"); [done|].
        destruct (String.eqb _ "fadeOut"); [done|].
        destruct (String.eqb _ "slideIn").
        + unfold _setSlideInStart. cbn [direction].
          repeat (destruct (String.eqb _ _); [done|]). done.
        + by destruct (String.eqb _ "scale"). }
    rewrite Han, !JsMapProps.keys_set.
    rewrite (bool_decide_eq_true_2 (is_Some (Some animConfig))) by eauto.
    done.
  - rewrite Hheap, length_app. cbn [length]. split; [lia|]. split.
    { intros k Hk. by rewrite lookup_app_l. }
    split; [done|]. split; [by exists e|].
    rewrite (bool_decide_eq_false_2 (is_Some None)) by (by intros [? ?]).
    rewrite Han. done.
Qed.

(** X13. An entity set up from a configuration with an id is found again
    under that id: [getEntity] gives the entity just made, which is the
    last of the heap and is of the kind the factory made; a second entity
    set up under the same id takes its place. *)
Theorem getEntity_after_setup layerName config (w : World) e evs id :
  _createEntity config = (Some e, evs) →
  cfg_id config = Some id → id ≠ "" →
  let w' := setupEntity layerName config w in
  getEntity id w' = Some (length (heap w))
  ∧ (∃ e', heap w' !! length (heap w) = Some e' ∧ kind e' = kind e)
  ∧ (cfg_animation config = None → heap w' !! length (heap w) = Some e)
  ∧ (∀ other, other ≠ id → getEntity other w' = getEntity other w)
  ∧ ∀ layerName2 config2 e2 evs2,
      _createEntity config2 = (Some e2, evs2) → cfg_id config2 = Some id →
      getEntity id (setupEntity layerName2 config2 w') = Some (length (heap w')).
Proof.
  intros Hcreate Hid Hne w'.
  destruct (setupEntity_made layerName config w e evs Hcreate)
    as (Hlen & Hold & Hplain & Hnew & _ & _ & Hent & _).
  fold w' in Hlen, Hold, Hplain, Hnew, Hent.
  assert (Htruthy : truthy_str (cfg_id config) = true).
  { rewrite Hid. cbn. apply String.eqb_neq in Hne. by rewrite Hne. }
  rewrite Htruthy, Hid in Hent. change (default "" (Some id)) with id in Hent.
  unfold getEntity. rewrite Hent.
  split; [apply JsMapProps.get_set_eq|]. split.
  { destruct Hnew as (e' & Hheap' & Hkind). exists e'. split; [|done].
    rewrite Hheap'. rewrite lookup_app_r by lia. by rewrite Nat.sub_diag. }
  split.
  { intros Hnone. rewrite (Hplain Hnone). rewrite lookup_app_r by lia.
    by rewrite Nat.sub_diag. }
  split; [intros other Hother; by apply JsMapMore.get_set_ne|].
  intros layerName2 config2 e2 evs2 Hcreate2 Hid2.
  destruct (setupEntity_made layerName2 config2 w' e2 evs2 Hcreate2)
    as (_ & _ & _ & _ & _ & _ & Hent2 & _).
  assert (Htruthy2 : truthy_str (cfg_id config2) = true).
  { rewrite Hid2. cbn. apply String.eqb_neq in Hne. by rewrite Hne. }
  rewrite Htruthy2, Hid2 in Hent2. change (default "" (Some id)) with id in Hent2.
  rewrite Hent2. apply JsMapProps.get_set_eq.
Qed.

(** X14. An entity set up under a layer name that is not one of the seven
    is made and, with an id, recorded, but it reaches no layer: the
    compositor is left as it is and a warning names the layer. *)
Theorem setup_unknown_layer layerName config (w : World) e evs :
  LayerManager.hasOwnProperty layerName = false →
  _createEntity config = (Some e, evs) →
  let w' := setupEntity layerName config w in
  layerManager w' = layerManager w
  ∧ console w' = console w ++ [Warn_UnknownLayer layerName]
  ∧ length (heap w') = S (length (heap w))
  ∧ (∀ id, cfg_id config = Some id → id ≠ "" →
           getEntity id w' = Some (length (heap w))).
Proof.
  intros Hunknown Hcreate w'.
  destruct (setupEntity_made layerName config w e evs Hcreate)
    as (Hlen & _ & _ & _ & Hlm & Hcon & Hent & _).
  fold w' in Hlen, Hlm, Hcon, Hent.
  rewrite LayerManagerProps.addToLayer_unknown in Hlm, Hcon by done.
  assert (evs = []) as ->.
  { pose proof (createEntity_silent_nil config) as Hnil.
    by rewrite Hcreate in Hnil. }
  split; [done|]. split; [done|]. split; [done|].
  intros id Hid Hne. unfold getEntity. rewrite Hent, Hid. cbn.
  apply String.eqb_neq in Hne. rewrite Hne. cbn.
  apply JsMapProps.get_set_eq.
Qed.


(** *** Setting up a state *)

Lemma foldl_invariant {A B : Type} (P : A → Prop) (f : A → B → A)
    (l : list B) :
  (∀ a b, P a → P (f a b)) → ∀ a, P a → P (foldl f a l).
Proof.
  intros Hstep. induction l as [|b l IH]; intros a Ha; [done|].
  cbn [foldl]. apply IH. by apply Hstep.
Qed.

Lemma extends_refl (w : World) : extends w w.
Proof. by repeat split. Qed.

Lemma extends_trans (w1 w2 w3 : World) :
  extends w1 w2 → extends w2 w3 → extends w1 w3.
Proof.
  intros (Hh & Hc & ? & ? & ? & ? & ? & ?) (Hh' & Hc' & ? & ? & ? & ? & ? & ?).
  split; [by etrans|]. split; [by etrans|].
  repeat split; congruence.
Qed.

Lemma setupEntity_extends layerName config (w : World) :
  extends w (setupEntity layerName config w).
Proof.
  destruct (_createEntity config) as [[e|] evs] eqn:Hcreate.
  - destruct (setupEntity_made layerName config w e evs Hcreate)
      as (_ & _ & _ & (e' & Hheap & _) & _ & Hcon & _ & _ & ? & ? & ? & ? & ? & ?).
    split; [rewrite Hheap; by apply prefix_app_r|].
    split; [rewrite Hcon; by apply prefix_app_r|].
    done.
  - unfold ConfigurableScene.setupEntity. rewrite Hcreate.
    split; [done|]. split; [by apply prefix_app_r|]. done.
Qed.

Lemma setupLayers_extends layers (w : World) :
  extends w (foldl setupLayer w layers).
Proof.
  apply (foldl_invariant (extends w)); [|apply extends_refl].
  intros w1 [layerName value] Hw1. unfold ConfigurableScene.setupLayer.
  destruct value as [configs|]; cbn [fst snd]; [|done].
  apply (foldl_invariant (extends w)); [|done].
  intros w2 config Hw2. eapply extends_trans; [done|].
  apply setupEntity_extends.
Qed.

Lemma setupState_extends state (w : World) : extends w (_setupState state w).
Proof.
  unfold ConfigurableScene._setupState.
  set (w0 := if st_clearLayers state then _ else w).
  assert (H0 : extends w w0).
  { unfold w0. destruct (st_clearLayers state); [|apply extends_refl].
    by repeat split. }
  destruct (st_layers state) as [layers|]; [|done].
  eapply extends_trans; [done|]. apply setupLayers_extends.
Qed.

Lemma addToLayer_elem (h h' : handle) layerName n (lm : LayerManager.t) es' :
  LayerManager.layerEntities (LayerManager.addToLayer h layerName lm).1 !! n
  = Some es' →
  h' ∈ es' →
  h' = h
  ∨ ∃ es, LayerManager.layerEntities lm !! n = Some es ∧ h' ∈ es.
Proof.
  unfold LayerManager.addToLayer.
  destruct (negb (LayerManager.hasOwnProperty layerName)); cbn [fst];
    [by eauto|].
  destruct (LayerManager.layerEntities lm !! layerName) as [es|] eqn:Hes;
    [|by eauto].
  destruct (negb (bool_decide (h ∈ es))); cbn [fst]; [|by eauto].
  cbn [LayerManager.layerEntities].
  destruct (decide (layerName = n)) as [->|Hne].
  - rewrite lookup_insert_eq. intros [= <-] [Hin| ->%list_elem_of_singleton]%elem_of_app;
      [right; by eauto|by left].
  - rewrite lookup_insert_ne by done. by eauto.
Qed.

Lemma addToLayer_prefix (h : handle) layerName n (lm : LayerManager.t) es :
  LayerManager.layerEntities lm !! n = Some es →
  ∃ es', LayerManager.layerEntities
           (LayerManager.addToLayer h layerName lm).1 !! n = Some es'
         ∧ es `prefix_of` es'.
Proof.
  intros Hes. unfold LayerManager.addToLayer.
  destruct (negb (LayerManager.hasOwnProperty layerName)); cbn [fst];
    [by eauto|].
  destruct (LayerManager.layerEntities lm !! layerName) as [es0|] eqn:Hes0;
    [|by eauto].
  destruct (negb (bool_decide (h ∈ es0))); cbn [fst]; [|by eauto].
  cbn [LayerManager.layerEntities].
  destruct (decide (layerName = n)) as [->|Hne].
  - rewrite lookup_insert_eq. exists (es0 ++ [h]). split; [done|].
    assert (es0 = es) as -> by congruence. by apply prefix_app_r.
  - rewrite lookup_insert_ne by done. by eauto.
Qed.

(** Every handle in use was made since the heap had [n] entities, and
    the heap has at least [n]. *)
Lemma setupEntity_made_since n layerName config (w : World) :
  made_since n w ∧ (n ≤ length (heap w))%nat →
  made_since n (setupEntity layerName config w)
  ∧ (n ≤ length (heap (setupEntity layerName config w)))%nat.
Proof.
  intros [(Hlayers & Hvalues & Hkeys) Hn].
  destruct (_createEntity config) as [[e|] evs] eqn:Hcreate.
  - destruct (setupEntity_made layerName config w e evs Hcreate)
      as (Hlen & _ & _ & _ & Hlm & _ & Hent & Han & _).
    split; [|lia]. unfold made_since. rewrite Hlen. split; [|split].
    + intros n' es' h' Hown. rewrite Hlm. intros Hes' Hin.
      destruct (addToLayer_elem _ _ _ _ _ _ Hes' Hin) as [->|(es & Hes & Hin')];
        [lia|].
      specialize (Hlayers n' es h' Hown Hes Hin'). lia.
    + intros h'. rewrite Hent. destruct (truthy_str (cfg_id config)).
      * intros [->|Hin]%JsMapProps.values_set; [lia|].
        specialize (Hvalues h' Hin). lia.
      * intros Hin. specialize (Hvalues h' Hin). lia.
    + intros h'. rewrite Han.
      destruct (bool_decide (is_Some (cfg_animation config))).
      * rewrite JsMapProps.keys_set.
        destruct (bool_decide (_ ∈ _)).
        -- intros Hin. specialize (Hkeys h' Hin). lia.
        -- intros [Hin| ->%list_elem_of_singleton]%elem_of_app; [|lia].
           specialize (Hkeys h' Hin). lia.
      * intros Hin. specialize (Hkeys h' Hin). lia.
  - unfold ConfigurableScene.setupEntity. rewrite Hcreate. done.
Qed.

Lemma setupLayers_made_since n layers (w : World) :
  made_since n w ∧ (n ≤ length (heap w))%nat →
  made_since n (foldl setupLayer w layers)
  ∧ (n ≤ length (heap (foldl setupLayer w layers)))%nat.
Proof.
  apply (foldl_invariant
           (λ w, made_since n w ∧ (n ≤ length (heap w))%nat)).
  intros w1 [layerName value] Hw1. unfold ConfigurableScene.setupLayer.
  destruct value as [configs|]; cbn [fst snd]; [|done].
  apply (foldl_invariant
           (λ w, made_since n w ∧ (n ≤ length (heap w))%nat)); [|done].
  intros w2 config Hw2. by apply setupEntity_made_since.
Qed.

(** X15. A state that clears the layers starts from nothing: after its
    setup every entity in a layer, every recorded entity and every
    animated entity is one this setup has made; none of an earlier state
    is drawn, found, clicked or animated any more. *)
Theorem clearing_state_starts_afresh (state : StateConfig) (w : World) :
  st_clearLayers state = true →
  made_since (length (heap w)) (_setupState state w).
Proof.
  intros Hclear. unfold ConfigurableScene._setupState. rewrite Hclear.
  set (w0 := set_entityAnimations _ _).
  assert (H0 : made_since (length (heap w)) w0
               ∧ (length (heap w) ≤ length (heap w0))%nat).
  { split; [|done]. unfold w0.
    split; [|split];
      cbn [layerManager set_entityAnimations set_entities set_layerManager
           entities entityAnimations heap].
    - intros n es h Hown. rewrite LayerManagerProps.clearAll_lookup by done.
      intros [= <-] Hin. by apply elem_of_nil in Hin.
    - intros h. rewrite JsMapProps.values_clear. by intros Hin%elem_of_nil.
    - intros h. rewrite JsMapProps.keys_clear. by intros Hin%elem_of_nil. }
  destruct (st_layers state) as [layers|]; [|apply H0].
  by apply setupLayers_made_since.
Qed.

Lemma setupEntity_layers_grow layerName config (w : World) n es :
  LayerManager.layerEntities (layerManager w) !! n = Some es →
  ∃ es', LayerManager.layerEntities
           (layerManager (setupEntity layerName config w)) !! n = Some es'
         ∧ es `prefix_of` es'.
Proof.
  intros Hes.
  destruct (_createEntity config) as [[e|] evs] eqn:Hcreate.
  - destruct (setupEntity_made layerName config w e evs Hcreate)
      as (_ & _ & _ & _ & Hlm & _).
    rewrite Hlm. by apply addToLayer_prefix.
  - unfold ConfigurableScene.setupEntity. rewrite Hcreate. by exists es.
Qed.

(** X16. The setup of a state only adds: the entities made before are
    on the heap as they were and the new ones come after them, the
    console only grows, and the states, the current state and its timer
    are not touched. A state that does not clear the layers keeps every
    layer as it was and puts its entities behind those already there. *)
Theorem setupState_only_adds (state : StateConfig) (w : World) :
  extends w (_setupState state w)
  ∧ (st_clearLayers state = false →
     ∀ layerName es,
       LayerManager.layerEntities (layerManager w) !! layerName = Some es →
       ∃ es',
         LayerManager.layerEntities
           (layerManager (_setupState state w)) !! layerName = Some es'
         ∧ es `prefix_of` es').
Proof.
  split; [apply setupState_extends|].
  intros Hkeep layerName es Hes. unfold ConfigurableScene._setupState.
  rewrite Hkeep. destruct (st_layers state) as [layers|]; [|by exists es].
  revert Hes.
  apply (foldl_invariant
           (λ w', LayerManager.layerEntities (layerManager w) !! layerName
                  = Some es →
                  ∃ es', LayerManager.layerEntities (layerManager w')
                         !! layerName = Some es' ∧ es `prefix_of` es'));
    [|by exists es].
  intros w1 [ln value] Hw1. unfold ConfigurableScene.setupLayer.
  destruct value as [configs|]; cbn [fst snd]; [|done].
  apply (foldl_invariant
           (λ w', LayerManager.layerEntities (layerManager w) !! layerName
                  = Some es →
                  ∃ es', LayerManager.layerEntities (layerManager w')
                         !! layerName = Some es' ∧ es `prefix_of` es'));
    [|done].
  intros w2 config Hw2 Hes. destruct (Hw2 Hes) as (es2 & Hes2 & Hpre).
  destruct (setupEntity_layers_grow ln config w2 layerName es2 Hes2)
    as (es3 & Hes3 & Hpre3).
  exists es3. split; [done|]. by etrans.
Qed.

(** *** Switching the state *)

Lemma findIndex_first stateName (sts : list StateConfig) :
  stateName ∈ st_name <$> sts →
  ∃ i st,
    findIndex stateName sts = Some i
    ∧ sts !! i = Some st ∧ st_name st = stateName
    ∧ ∀ j st', (j < i)%nat → sts !! j = Some st' → st_name st' ≠ stateName.
Proof.
  induction sts as [|s sts IH]; [by intros Hin%elem_of_nil|].
  intros Hin. cbn [findIndex].
  destruct (String.eqb_spec (st_name s) stateName) as [Heq|Hne].
  - exists 0%nat, s. repeat split; [done|]. intros j st' Hj. lia.
  - rewrite fmap_cons in Hin. apply elem_of_cons in Hin as [Heq|Hin];
      [congruence|].
    destruct (IH Hin) as (i & st & Hfind & Hst & Hname & Hfirst).
    exists (S i), st. rewrite Hfind. repeat split; [done..|].
    intros [|j] st' Hj; cbn; [congruence|].
    intros Hst'. apply (Hfirst j st'); [lia|done].
Qed.

(** X17. Switching to a state the scene has makes the first state of
    that name the current one: the index is its index, the name is the
    name asked for, the timer is back at 0, the switch is logged, the
    list of states is not changed and the entities made before stay on
    the heap. Of two states of one name the second is never reached. *)
Theorem switchToState_known (stateName : string) (w : World) :
  stateName ∈ st_name <$> states w →
  ∃ i st,
    states w !! i = Some st ∧ st_name st = stateName
    ∧ (∀ j st', (j < i)%nat → states w !! j = Some st' →
                st_name st' ≠ stateName)
    ∧ currentStateIndex (_switchToState stateName w) = i
    ∧ currentStateName (_switchToState stateName w) = Some stateName
    ∧ stateTimer (_switchToState stateName w) = Num.zero
    ∧ states (_switchToState stateName w) = states w
    ∧ heap w `prefix_of` heap (_switchToState stateName w)
    ∧ (console w ++ [Log_SwitchingToState (name w) stateName])
        `prefix_of` console (_switchToState stateName w).
Proof.
  intros Hin.
  destruct (findIndex_first stateName (states w) Hin)
    as (i & st & Hfind & Hst & Hname & Hfirst).
  exists i, st. split; [done|]. split; [done|]. split; [done|].
  unfold ConfigurableScene._switchToState. rewrite Hfind. cbv zeta.
  cbn [states set_stateTimer set_currentStateName set_currentStateIndex emit].
  rewrite Hst.
  match goal with
  | |- context [ConfigurableScene._setupState getImage st ?w0] =>
      destruct (setupState_extends st w0)
        as (Hh & Hc & Hstates & Hidx & Hnm & Htm & _)
  end.
  cbn [heap console states currentStateIndex currentStateName stateTimer]
    in Hh, Hc, Hstates, Hidx, Hnm, Htm.
  by rewrite Hstates, Hidx, Hnm, Htm.
Qed.


(** *** The click loop *)

Lemma emit_nil (w : World) : emit [] w = w.
Proof. destruct w. unfold emit. cbn. by rewrite app_nil_r. Qed.

Lemma emit_emit evs1 evs2 (w : World) :
  emit evs2 (emit evs1 w) = emit (evs1 ++ evs2) w.
Proof. unfold emit. cbn. by rewrite app_assoc. Qed.

(** The loop over the recorded entities when no button is hit: it ends,
    and all it has done is to call [checkClick] on the recorded buttons
    in turn. *)
Lemma clicks_without_hits x y : ∀ fuel index (w : World),
  (length (entities w) - index < fuel)%nat →
  (∀ h e, h ∈ tracked w → heap w !! h = Some e → has_checkClick e = true →
          Button_hit e x y = false) →
  handleButtonClicks_from fuel index x y w
  = Done (emit (click_calls x y (heap w) (drop index (entities w))) w).
Proof.
  induction fuel as [|fuel IH]; intros index w Hfuel Hmiss; [lia|].
  cbn [ConfigurableScene.handleButtonClicks_from].
  destruct (entities w !! index) as [entry|] eqn:Hentry.
  - pose proof (lookup_lt_Some _ _ _ Hentry) as Hlt.
    rewrite (drop_S _ _ _ Hentry).
    destruct entry as [[k h]|].
    + assert (Hh : h ∈ tracked w) by (by eapply JsMapProps.lookup_values).
      unfold click_calls. cbn [omap list_omap]. fold (click_calls x y (heap w)).
      destruct (heap w !! h) as [e|] eqn:He.
      * destruct (has_checkClick e) eqn:Hclick.
        -- unfold ConfigurableScene.checkClick. cbv zeta. cbn [heap emit].
           rewrite He, (Hmiss h e Hh He Hclick).
           rewrite IH; [|cbn [entities emit]; lia|exact Hmiss].
           cbn [heap entities emit]. fold (emit [Call_checkClick h x y] w).
           by rewrite emit_emit.
        -- apply IH; [lia|done].
      * apply IH; [lia|done].
    + unfold click_calls. cbn [omap list_omap]. fold (click_calls x y (heap w)).
      apply IH; [lia|done].
  - apply lookup_ge_None in Hentry. rewrite drop_ge by done.
    by rewrite emit_nil.
Qed.

(** X18. A press that hits no recorded button ends the click loop with
    the scene as it was: [checkClick] has been called once on every
    recorded entity that has it, in the order of the map, and nothing
    else has happened. As many turns as the map has entries suffice. *)
Theorem clicks_that_miss (fuel : nat) (mouse : Mouse) (w : World) :
  (length (entities w) < fuel)%nat →
  (∀ h e, h ∈ tracked w → heap w !! h = Some e → has_checkClick e = true →
          Button_hit e (mouse_x mouse) (mouse_y mouse) = false) →
  _handleButtonClicks fuel mouse w
  = Done (emit (click_calls (mouse_x mouse) (mouse_y mouse) (heap w)
                  (entities w)) w).
Proof.
  intros Hfuel Hmiss. unfold ConfigurableScene._handleButtonClicks.
  rewrite clicks_without_hits; [by rewrite drop_0|lia|done].
Qed.

(** *** Leaving the scene *)

Lemma click_calls_clear x y hp (m : JsMap.t string handle) :
  click_calls x y hp (JsMap.clear m) = [].
Proof. induction m as [|entry m IH]; [done|]. exact IH. Qed.

Lemma animate_entries_clear dt (m : JsMap.t handle Animation) hp :
  ConfigurableScene.animate_entries Math_sin dt (JsMap.clear m) hp
  = (JsMap.clear m, hp).
Proof.
  induction m as [|entry m IH]; [done|].
  change (JsMap.clear (entry :: m)) with (None :: JsMap.clear m).
  cbn [ConfigurableScene.animate_entries]. by rewrite IH.
Qed.

(** X19. After [exit] the scene has forgotten its entities: no id finds
    one, a frame animates none and a press tests none. The heap and the
    layers are as they were: the statements of [exit] itself, the exit
    of the absent base class and the asset loader left aside, take
    nothing out of the compositor. *)
Theorem exit_forgets (w : World) :
  (∀ id, getEntity id (exit w) = None)
  ∧ tracked (exit w) = []
  ∧ JsMap.keys (entityAnimations (exit w)) = []
  ∧ (∀ dt, heap (_updateAnimations dt (exit w)) = heap w)
  ∧ (∀ fuel mouse, (length (entities w) < fuel)%nat →
       _handleButtonClicks fuel mouse (exit w) = Done (exit w))
  ∧ heap (exit w) = heap w
  ∧ layerManager (exit w) = layerManager w.
Proof.
  split; [intros id; apply JsMapMore.get_clear|].
  split; [apply JsMapProps.values_clear|].
  split; [apply JsMapProps.keys_clear|].
  split.
  { intros dt. unfold ConfigurableScene._updateAnimations, exit.
    cbn [entityAnimations heap set_entityAnimations set_entities].
    by rewrite animate_entries_clear. }
  split; [|done].
  intros fuel mouse Hfuel. unfold ConfigurableScene._handleButtonClicks.
  rewrite clicks_without_hits.
  - rewrite drop_0. unfold exit at 2.
    cbn [entities heap set_entityAnimations set_entities].
    by rewrite click_calls_clear, emit_nil.
  - unfold exit. cbn [entities set_entityAnimations set_entities].
    unfold JsMap.clear. rewrite length_fmap. lia.
  - intros h e Hin. unfold tracked, exit in Hin.
    cbn [entities set_entityAnimations set_entities] in Hin.
    rewrite JsMapProps.values_clear in Hin. by apply elem_of_nil in Hin.
Qed.

End More.
End InterpreterMore.

(** * More of the animation engine *)

Module QcArith.

Lemma this_add (a b : Qc) : (this (a + b)%Qc == this a + this b)%Q.
Proof. unfold Qcplus. simpl. apply Qred_correct. Qed.

Lemma this_mul (a b : Qc) : (this (a * b)%Qc == this a * this b)%Q.
Proof. unfold Qcmult. simpl. apply Qred_correct. Qed.

Lemma this_opp (a : Qc) : (this (- a)%Qc == - this a)%Q.
Proof. unfold Qcopp. simpl. apply Qred_correct. Qed.

Lemma this_sub (a b : Qc) : (this (a - b)%Qc == this a - this b)%Q.
Proof. unfold Qcminus. rewrite this_add, this_opp. reflexivity. Qed.

Lemma this_half (a : Qc) :
  (this (a / Q2Qc (inject_Z 2))%Qc == this a * (1 # 2))%Q.
Proof. unfold Qcdiv. rewrite this_mul. reflexivity. Qed.

Lemma sq_nonneg (a : Q) : (0 <= a * a)%Q.
Proof. nra. Qed.

(** The product [p (1 - p)] lies between 0 and a quarter. *)
Lemma mirror_bound (y i p : Q) :
  (0 <= p)%Q → (p <= 1)%Q →
  ((y <= i)%Q →
   (i <= i + (i - y) * (p * (1 - p)))%Q
   ∧ (4 * (i + (i - y) * (p * (1 - p)) - i) <= i - y)%Q)
  ∧ ((i <= y)%Q →
     (i + (i - y) * (p * (1 - p)) <= i)%Q
     ∧ (4 * (i - (i + (i - y) * (p * (1 - p)))) <= y - i)%Q).
Proof.
  intros Hp0 Hp1.
  assert (Hk0 : (0 <= p * (1 - p))%Q) by (apply Qmult_le_0_compat; lra).
  assert (Hk1 : (0 <= 1 - 4 * (p * (1 - p)))%Q).
  { pose proof (sq_nonneg (2 * p - 1)). lra. }
  revert Hk0 Hk1. generalize (p * (1 - p))%Q. intros k Hk0 Hk1. split.
  - intros Hle.
    assert (H1 : (0 <= (i - y) * k)%Q) by (apply Qmult_le_0_compat; lra).
    assert (H2 : (0 <= (i - y) * (1 - 4 * k))%Q)
      by (apply Qmult_le_0_compat; lra).
    split; lra.
  - intros Hle.
    assert (H1 : (0 <= (y - i) * k)%Q) by (apply Qmult_le_0_compat; lra).
    assert (H2 : (0 <= (y - i) * (1 - 4 * k))%Q)
      by (apply Qmult_le_0_compat; lra).
    split; lra.
Qed.

End QcArith.

(** Inequalities of [Qc] as inequalities of [Q]. *)
Ltac qc2q :=
  unfold Qcle, Qclt in *;
  repeat match goal with
  | H : context [this (_ / Q2Qc (inject_Z 2))%Qc] |- _ =>
      rewrite QcArith.this_half in H
  | H : context [this (_ + _)%Qc] |- _ => rewrite QcArith.this_add in H
  | H : context [this (_ * _)%Qc] |- _ => rewrite QcArith.this_mul in H
  | H : context [this (_ - _)%Qc] |- _ => rewrite QcArith.this_sub in H
  | H : context [this (- _)%Qc] |- _ => rewrite QcArith.this_opp in H
  | |- context [this (_ / Q2Qc (inject_Z 2))%Qc] => rewrite QcArith.this_half
  | |- context [this (_ + _)%Qc] => rewrite QcArith.this_add
  | |- context [this (_ * _)%Qc] => rewrite QcArith.this_mul
  | |- context [this (_ - _)%Qc] => rewrite QcArith.this_sub
  | |- context [this (- _)%Qc] => rewrite QcArith.this_opp
  end;
  change (this 0%Qc) with 0%Q in *; change (this 1%Qc) with 1%Q in *;
  change (this (Q2Qc (inject_Z 0))) with 0%Q in *;
  change (this (Q2Qc (inject_Z 1))) with 1%Q in *;
  change (this (Q2Qc (inject_Z 2))) with 2%Q in *;
  change (this (Q2Qc (inject_Z 4))) with 4%Q in *;
  change (this (Q2Qc (1 # 2))) with (1 # 2)%Q in *.

Module AnimationMore.
Import ConfigurableScene Vocabulary.
Section More.
Variable Math_sin : num → num.

Abbreviation animate := (ConfigurableScene.animate Math_sin).
Abbreviation animate_entries := (ConfigurableScene.animate_entries Math_sin).
Abbreviation _updateAnimations := (ConfigurableScene._updateAnimations Math_sin).

(** *** What a frame leaves alone *)

Lemma same_body_refl e : same_body e e.
Proof. by repeat split. Qed.

Lemma same_body_trans e1 e2 e3 :
  same_body e1 e2 → same_body e2 e3 → same_body e1 e3.
Proof.
  intros (? & ? & ? & ? & ?) (? & ? & ? & ? & ?). repeat split; congruence.
Qed.

Lemma updateSlideIn_body e a p : same_body e (_updateSlideIn e a p).
Proof.
  unfold _updateSlideIn.
  destruct (_ || _); [by repeat split|].
  destruct (_ || _); by repeat split.
Qed.

Lemma animate_body dt e a : same_body e (animate dt e a).1.
Proof.
  unfold ConfigurableScene.animate.
  destruct (completed a); [apply same_body_refl|]. cbv zeta.
  destruct (Num.lt _ _); [apply same_body_refl|]. cbn [fst].
  cbn [type set_elapsed].
  destruct (String.eqb (type a) "fadeIn"); [by repeat split|].
  destruct (String.eqb (type a) "fadeOut"); [by repeat split|].
  destruct (String.eqb (type a) "slideIn"); [apply updateSlideIn_body|].
  destruct (String.eqb (type a) "scale"); [by repeat split|].
  destruct (String.eqb (type a) "pulse"); by repeat split.
Qed.

Lemma animate_entries_frame dt (entries : JsMap.t handle Animation) :
  ∀ hp : list Entity,
    length (animate_entries dt entries hp).2 = length hp
    ∧ JsMap.keys (animate_entries dt entries hp).1 = JsMap.keys entries
    ∧ (∀ h, h ∉ JsMap.keys entries →
            (animate_entries dt entries hp).2 !! h = hp !! h)
    ∧ (∀ h e, hp !! h = Some e →
              ∃ e', (animate_entries dt entries hp).2 !! h = Some e'
                    ∧ same_body e e').
Proof.
  induction entries as [|[[k a]|] entries IH]; intros hp;
    cbn [ConfigurableScene.animate_entries].
  - split; [done|]. split; [done|]. split; [done|].
    intros h e He. exists e. split; [done|]. apply same_body_refl.
  - change (JsMap.keys (Some (k, a) :: entries)) with (k :: JsMap.keys entries).
    destruct (hp !! k) as [ek|] eqn:Hek.
    + pose proof (animate_body dt ek a) as Hbody.
      destruct (ConfigurableScene.animate Math_sin dt ek a) as [e' a'].
      cbn [fst] in Hbody.
      destruct (IH (<[k := e']> hp)) as (Hlen & Hkeys & Hout & Hin).
      destruct (ConfigurableScene.animate_entries Math_sin dt entries
                  (<[k := e']> hp)) as [rest' hp'].
      cbn [fst snd] in *.
      change (JsMap.keys (Some (k, a') :: rest')) with (k :: JsMap.keys rest').
      split; [by rewrite Hlen, length_insert|]. split; [by rewrite Hkeys|].
      split.
      * intros h [Hne Hh]%not_elem_of_cons. rewrite (Hout h Hh).
        by apply list_lookup_insert_ne.
      * intros h e He. destruct (decide (k = h)) as [->|Hne].
        -- pose proof (eq_trans (eq_sym He) Hek) as [= ->].
           destruct (Hin h e') as (e2 & He2 & Hb2).
           { apply list_lookup_insert_eq. by apply lookup_lt_Some in Hek. }
           exists e2. split; [done|]. by eapply same_body_trans.
        -- apply Hin. by rewrite list_lookup_insert_ne.
    + destruct (IH hp) as (Hlen & Hkeys & Hout & Hin).
      destruct (ConfigurableScene.animate_entries Math_sin dt entries hp)
        as [rest' hp'].
      cbn [fst snd] in *.
      change (JsMap.keys (Some (k, a) :: rest')) with (k :: JsMap.keys rest').
      split; [done|]. split; [by rewrite Hkeys|]. split; [|done].
      intros h [Hne Hh]%not_elem_of_cons. by apply Hout.
  - destruct (IH hp) as (Hlen & Hkeys & Hout & Hin).
    destruct (ConfigurableScene.animate_entries Math_sin dt entries hp)
      as [rest' hp'].
    cbn [fst snd] in *. done.
Qed.

Lemma animate_entries_completed dt h a (entries : JsMap.t handle Animation) :
  ∀ hp : list Entity,
    JsMap.wf entries →
    JsMap.get h entries = Some a → completed a = true →
    JsMap.get h (animate_entries dt entries hp).1 = Some a
    ∧ (animate_entries dt entries hp).2 !! h = hp !! h.
Proof.
  induction entries as [|[[k a0]|] entries IH]; intros hp Hwf;
    cbn [ConfigurableScene.animate_entries JsMap.get]; [done| |].
  - assert (Hk : (k ∉ JsMap.keys entries) ∧ JsMap.wf entries).
    { unfold JsMap.wf in *.
      change (JsMap.keys (Some (k, a0) :: entries))
        with (k :: JsMap.keys entries) in Hwf.
      by apply NoDup_cons in Hwf. }
    destruct Hk as [Hk Hwf'].
    destruct (decide (k = h)) as [->|Hne].
    + rewrite bool_decide_eq_true_2 by done. intros [= ->] Hdone.
      destruct (hp !! h) as [ek|] eqn:Hek.
      * unfold ConfigurableScene.animate. rewrite Hdone.
        destruct (animate_entries_frame dt entries (<[h := ek]> hp))
          as (_ & _ & Hout & _).
        specialize (Hout h Hk).
        destruct (ConfigurableScene.animate_entries Math_sin dt entries
                    (<[h := ek]> hp)) as [rest' hp'].
        cbn [fst snd JsMap.get] in *.
        rewrite bool_decide_eq_true_2 by done. split; [done|].
        rewrite Hout, list_insert_id by done. done.
      * destruct (animate_entries_frame dt entries hp) as (_ & _ & Hout & _).
        specialize (Hout h Hk).
        destruct (ConfigurableScene.animate_entries Math_sin dt entries hp)
          as [rest' hp'].
        cbn [fst snd JsMap.get] in *.
        rewrite bool_decide_eq_true_2 by done. split; [done|].
        by rewrite Hout.
    + rewrite bool_decide_eq_false_2 by done. intros Ha Hdone.
      destruct (hp !! k) as [ek|] eqn:Hek.
      * destruct (ConfigurableScene.animate Math_sin dt ek a0) as [e' a'].
        destruct (IH (<[k := e']> hp) Hwf' Ha Hdone) as [Hget Hat].
        destruct (ConfigurableScene.animate_entries Math_sin dt entries
                    (<[k := e']> hp)) as [rest' hp'].
        cbn [fst snd JsMap.get] in *.
        rewrite bool_decide_eq_false_2 by done. split; [done|].
        rewrite Hat. by apply list_lookup_insert_ne.
      * destruct (IH hp Hwf' Ha Hdone) as [Hget Hat].
        destruct (ConfigurableScene.animate_entries Math_sin dt entries hp)
          as [rest' hp'].
        cbn [fst snd JsMap.get] in *.
        by rewrite bool_decide_eq_false_2 by done.
  - intros Ha Hdone. destruct (IH hp Hwf Ha Hdone) as [Hget Hat].
    destruct (ConfigurableScene.animate_entries Math_sin dt entries hp)
      as [rest' hp'].
    cbn [fst snd JsMap.get] in *. done.
Qed.

(** X20. A frame of the animation engine writes to animated entities
    only, and to their position, opacity and scale only: the heap keeps
    its size, the same entities stay animated, an entity without an
    animation is left as it is, every entity keeps its kind, size,
    rotation and visibility, and an entity whose animation has completed
    is not written to again. *)
Theorem updateAnimations_frame (dt : num) (w : World) :
  JsMap.wf (entityAnimations w) →
  length (heap (_updateAnimations dt w)) = length (heap w)
  ∧ JsMap.keys (entityAnimations (_updateAnimations dt w))
    = JsMap.keys (entityAnimations w)
  ∧ (∀ h, h ∉ JsMap.keys (entityAnimations w) →
          heap (_updateAnimations dt w) !! h = heap w !! h)
  ∧ (∀ h e, heap w !! h = Some e →
            ∃ e', heap (_updateAnimations dt w) !! h = Some e'
                  ∧ same_body e e')
  ∧ (∀ h a, JsMap.get h (entityAnimations w) = Some a → completed a = true →
            heap (_updateAnimations dt w) !! h = heap w !! h
            ∧ JsMap.get h (entityAnimations (_updateAnimations dt w)) = Some a).
Proof.
  intros Hwf. unfold ConfigurableScene._updateAnimations.
  destruct (animate_entries_frame dt (entityAnimations w) (heap w))
    as (Hlen & Hkeys & Hout & Hin).
  pose proof (λ h a, animate_entries_completed dt h a (entityAnimations w)
                       (heap w) Hwf) as Hspec.
  destruct (ConfigurableScene.animate_entries Math_sin dt (entityAnimations w)
              (heap w)) as [anims hp'].
  cbn [fst snd heap entityAnimations set_entityAnimations set_heap] in *.
  split; [done|]. split; [done|]. split; [done|]. split; [done|].
  intros h a Ha Hdone. by destruct (Hspec h a Ha Hdone).
Qed.


(** *** Completion *)

Lemma mul_one_l (a : num) : Num.mul Num.one a = a.
Proof.
  destruct a as [p|]; [|done]. rewrite NumProps.one_eq. cbn [Num.mul].
  by rewrite Qcmult_1_l.
Qed.

Lemma progress_full (q du : Qc) :
  (0 < du)%Qc → (du <= q)%Qc →
  Num.min (Num.div (Fin q) (Fin du)) Num.one = Num.one.
Proof.
  intros Hpos Hle. cbn [Num.div].
  assert (Hne : du ≠ 0%Qc) by (intros ->; by apply Qclt_not_le in Hpos).
  destruct (Num.Qc_eqb du 0) eqn:Hz; [by apply NumProps.Qc_eqb_eq in Hz|].
  rewrite NumProps.one_eq. cbn [Num.min].
  destruct (Num.Qc_leb (q / du) 1) eqn:Hcmp; [|done].
  apply NumProps.Qc_leb_le in Hcmp. f_equal. apply Qcle_antisym; [done|].
  apply (Qcmult_lt_0_le_reg_r _ _ du Hpos).
  rewrite Qcmult_1_l, (Qcmult_comm (q / du) du), Qcmult_div_r; done.
Qed.



(** *** Easing *)

Lemma applyEasing_cases (t : Qc) easing :
  _applyEasing (Fin t) easing
  = Fin (if String.eqb easing "easeIn" then t * t
         else if String.eqb easing "easeOut" then 1 - (1 - t) * (1 - t)
         else if String.eqb easing "easeInOut" then
           if Num.Qc_ltb t (Q2Qc (1 # 2))
           then Q2Qc (inject_Z 2) * t * t
           else 1 - ((- Q2Qc (inject_Z 2) * t + Q2Qc (inject_Z 2))
                     * (- Q2Qc (inject_Z 2) * t + Q2Qc (inject_Z 2)))
                    / Q2Qc (inject_Z 2)
         else t)%Qc.
Proof.
  unfold _applyEasing.
  destruct (String.eqb easing "easeIn"); [done|].
  destruct (String.eqb easing "easeOut"); [by rewrite NumProps.one_eq|].
  destruct (String.eqb easing "easeInOut"); [|done].
  change (Num.lt (Fin t) Num.half) with (Num.Qc_ltb t (Q2Qc (1 # 2))).
  destruct (Num.Qc_ltb t (Q2Qc (1 # 2))); [done|].
  by rewrite NumProps.one_eq.
Qed.

(** X22. Every easing takes a progress between 0 and 1 to an eased
    progress between 0 and 1, takes 0 to 0 and 1 to 1, and never takes a
    later progress to an earlier eased one: an animation does not run
    backwards. *)
Theorem applyEasing_range (easing : string) (t t' : Qc) :
  (0 <= t)%Qc → (t <= t')%Qc → (t' <= 1)%Qc →
  ∃ r r',
    _applyEasing (Fin t) easing = Fin r
    ∧ _applyEasing (Fin t') easing = Fin r'
    ∧ (0 <= r)%Qc ∧ (r <= r')%Qc ∧ (r' <= 1)%Qc
    ∧ _applyEasing Num.zero easing = Num.zero
    ∧ _applyEasing Num.one easing = Num.one.
Proof.
  intros H0 Hle H1. eexists _, _.
  split; [apply applyEasing_cases|]. split; [apply applyEasing_cases|].
  assert (Hends : _applyEasing Num.zero easing = Num.zero
                  ∧ _applyEasing Num.one easing = Num.one).
  { split; [|apply AnimationProps.applyEasing_one].
    unfold _applyEasing.
    destruct (String.eqb easing "easeIn"); [num_eq|].
    destruct (String.eqb easing "easeOut"); [num_eq|].
    destruct (String.eqb easing "easeInOut"); [num_eq|]. reflexivity. }
  destruct Hends as [Hzero Hone].
  repeat match goal with |- _ ∧ _ => split end; try done.
  - destruct (String.eqb easing "easeIn"); [qc2q; nra|].
    destruct (String.eqb easing "easeOut"); [qc2q; nra|].
    destruct (String.eqb easing "easeInOut"); [|done].
    destruct (Num.Qc_ltb t (Q2Qc (1 # 2))) eqn:Hhalf.
    + apply NumProps.Qc_ltb_lt in Hhalf. qc2q. nra.
    + apply NumProps.Qc_ltb_ge in Hhalf. qc2q. nra.
  - destruct (String.eqb easing "easeIn"); [qc2q; nra|].
    destruct (String.eqb easing "easeOut"); [qc2q; nra|].
    destruct (String.eqb easing "easeInOut"); [|done].
    destruct (Num.Qc_ltb t (Q2Qc (1 # 2))) eqn:Hhalf;
      destruct (Num.Qc_ltb t' (Q2Qc (1 # 2))) eqn:Hhalf'.
    + apply NumProps.Qc_ltb_lt in Hhalf, Hhalf'. qc2q. nra.
    + apply NumProps.Qc_ltb_lt in Hhalf. apply NumProps.Qc_ltb_ge in Hhalf'.
      qc2q. nra.
    + apply NumProps.Qc_ltb_ge in Hhalf. apply NumProps.Qc_ltb_lt in Hhalf'.
      qc2q. nra.
    + apply NumProps.Qc_ltb_ge in Hhalf, Hhalf'. qc2q. nra.
  - destruct (String.eqb easing "easeIn"); [qc2q; nra|].
    destruct (String.eqb easing "easeOut"); [qc2q; nra|].
    destruct (String.eqb easing "easeInOut"); [|done].
    destruct (Num.Qc_ltb t' (Q2Qc (1 # 2))) eqn:Hhalf.
    + apply NumProps.Qc_ltb_lt in Hhalf. qc2q. nra.
    + apply NumProps.Qc_ltb_ge in Hhalf. qc2q. nra.
Qed.


(** *** Slides *)



End More.
End AnimationMore.

(** * More of the Pong scene *)

Module PongSceneMore.
Import ConfigurableScene PongScene.
Section More.
Variable Math_random : nat → num.

Lemma abs_abs (a : num) : abs (abs a) = abs a.
Proof.
  destruct a as [p|]; [|done]. cbn [abs].
  destruct (Num.Qc_leb 0 p) eqn:Hp; cbn [abs]; [by rewrite Hp|].
  assert (Num.Qc_leb 0 (- p) = true) as ->; [|done].
  apply NumProps.Qc_leb_le. apply NumProps.Qc_leb_gt in Hp. qc2q. lra.
Qed.

Lemma abs_neg (a : num) : abs (Num.neg a) = abs a.
Proof.
  destruct a as [p|]; [|done]. cbn [abs Num.neg].
  destruct (Num.Qc_leb 0 p) eqn:Hp; destruct (Num.Qc_leb 0 (- p)) eqn:Hn.
  - f_equal. apply NumProps.Qc_leb_le in Hp, Hn.
    apply Qcle_antisym; qc2q; lra.
  - by rewrite Qcopp_involutive.
  - done.
  - apply NumProps.Qc_leb_gt in Hp, Hn. exfalso. qc2q. lra.
Qed.

Lemma resetBall_speed (s : t) :
  abs (ballVelX (resetBall Math_random s)) = ballSpeed.
Proof.
  unfold resetBall. cbv zeta.
  cbn [ballVelX set_randoms set_ballVelY set_ballVelX].
  destruct (gt _ Num.half); num_eq.
Qed.

Lemma checkCollisions_speed (s : t) :
  abs (ballVelX (checkCollisions s)) = abs (ballVelX s).
Proof.
  unfold checkCollisions. cbv zeta.
  destruct (le _ offsetY || _); destruct (overlaps _ _);
    cbn [aiPaddle set_ballVelX set_ballVelY playerPaddle ballVelX];
    destruct (_ && _ && _ && _);
    cbn [aiPaddle set_ballVelX set_ballVelY playerPaddle ballVelX];
    by rewrite ?abs_neg, ?abs_abs.
Qed.

Lemma checkScore_speed (s : t) :
  abs (ballVelX s) = ballSpeed →
  abs (ballVelX (checkScore Math_random s)) = ballSpeed.
Proof.
  intros Hs. unfold checkScore. cbv zeta.
  destruct (Num.lt _ Num.zero); destruct (gt _ gameWidth);
    by rewrite ?resetBall_speed.
Qed.

(** X25. The ball keeps its horizontal speed: a scene in which it moves
    at the ball speed to the left or to the right is one in which it
    does so after every frame, whatever the keys, the time step and the
    values of [Math.random]; paddles and walls only turn it round, and a
    point serves it at the same speed. The scene starts that way. *)
Theorem ball_speed_constant (dt : num) (keys : Keys) (s : t) :
  abs (ballVelX s) = ballSpeed →
  abs (ballVelX (update Math_random dt keys s)) = ballSpeed
  ∧ abs (ballVelX (init Math_random)) = ballSpeed.
Proof.
  intros Hs. split; [|apply resetBall_speed].
  unfold update. apply checkScore_speed. by rewrite checkCollisions_speed.
Qed.

End More.
End PongSceneMore.

(** * A press that does not end *)

Module ClickLoopMore.
Import ConfigurableScene Vocabulary.
Section More.
Variable Math_sin : num → num.
Variable getImage : string → bool.
Variable audioManager : bool.
Variable Button_hit : Entity → num → num → bool.
Variable switchScene : string → World → World.

Abbreviation _setupState := (ConfigurableScene._setupState getImage).
Abbreviation _switchToState := (ConfigurableScene._switchToState getImage).
Abbreviation handleButtonClicks_from :=
  (ConfigurableScene.handleButtonClicks_from getImage audioManager Button_hit
     switchScene).
Abbreviation update :=
  (ConfigurableScene.update Math_sin getImage audioManager Button_hit
     switchScene).

Lemma set_clear {K V : Type} `{EqDecision K} (k : K) (v : V)
    (m : JsMap.t K V) :
  JsMap.set k v (JsMap.clear m) = JsMap.clear m ++ [Some (k, v)].
Proof.
  induction m as [|entry m IH]; [done|].
  change (JsMap.clear (entry :: m)) with (None :: JsMap.clear m).
  cbn [JsMap.set]. by rewrite IH.
Qed.

Lemma lookup_clear {K V : Type} (m : JsMap.t K V) (j : nat) :
  (j < length m)%nat → JsMap.clear m !! j = Some None.
Proof.
  revert j. induction m as [|entry m IH]; intros [|j] Hj; cbn in Hj;
    [lia|lia|done|].
  change (JsMap.clear (entry :: m)) with (None :: JsMap.clear m).
  cbn [lookup list_lookup]. apply IH. lia.
Qed.

(** A map that was cleared and then set at one key. *)
Lemma lookup_cleared_l {K V : Type} (m : JsMap.t K V) entry (j : nat) :
  (j < length m)%nat →
  @lookup nat (option (K * V)) (JsMap.t K V) _ j (JsMap.clear m ++ [entry])
  = Some None.
Proof.
  intros Hj. unfold JsMap.t.
  rewrite lookup_app_l by (unfold JsMap.clear; rewrite length_fmap; lia).
  by apply lookup_clear.
Qed.

Lemma lookup_cleared_r {K V : Type} (m : JsMap.t K V) entry :
  @lookup nat (option (K * V)) (JsMap.t K V) _ (length m)
          (JsMap.clear m ++ [entry])
  = Some entry.
Proof.
  unfold JsMap.t.
  assert (Hlen : length (JsMap.clear m) = length m)
    by (unfold JsMap.clear; by rewrite length_fmap).
  rewrite lookup_app_r by lia. by rewrite Hlen, Nat.sub_diag.
Qed.

(** The setup of a state that makes one button, on any scene. *)
Lemma setupState_button target st c (w : World) :
  button_state target st c →
  states (_setupState st w) = states w
  ∧ currentStateIndex (_setupState st w) = currentStateIndex w
  ∧ heap (_setupState st w) = heap w ++ [_createButton c]
  ∧ entities (_setupState st w)
    = JsMap.clear (entities w)
      ++ [Some (default "" (cfg_id c), length (heap w))]
  ∧ entityAnimations (_setupState st w) = JsMap.clear (entityAnimations w).
Proof.
  intros (Hclear & (layerName & Hlayers) & Hty & Hid & Hanim & _).
  unfold ConfigurableScene._setupState. rewrite Hclear, Hlayers.
  cbn [foldl]. unfold ConfigurableScene.setupLayer. cbn [fst snd foldl].
  unfold ConfigurableScene.setupEntity, ConfigurableScene._createEntity.
  rewrite Hty. change (String.eqb "button" "sprite") with false.
  change (String.eqb "button" "button") with true. cbv iota zeta.
  cbn [layerManager emit set_heap set_entityAnimations set_entities
       set_layerManager heap].
  match goal with
  | |- context [@LayerManager.addToLayer ?V ?E ?a ?b ?c] =>
      destruct (@LayerManager.addToLayer V E a b c) as [lm warnings]
  end.
  rewrite Hid, Hanim.
  cbn [states currentStateIndex heap entities entityAnimations emit
       set_entities set_layerManager set_heap set_entityAnimations].
  by rewrite set_clear.
Qed.

Lemma switchToState_button target st c (w : World) i :
  button_state target st c →
  findIndex (st_name st) (states w) = Some i → states w !! i = Some st →
  states (_switchToState (st_name st) w) = states w
  ∧ heap (_switchToState (st_name st) w) = heap w ++ [_createButton c]
  ∧ entities (_switchToState (st_name st) w)
    = JsMap.clear (entities w)
      ++ [Some (default "" (cfg_id c), length (heap w))].
Proof.
  intros Hst Hfind Hi. unfold ConfigurableScene._switchToState.
  rewrite Hfind. cbv zeta.
  cbn [states set_stateTimer set_currentStateName set_currentStateIndex emit].
  rewrite Hi.
  match goal with
  | |- context [ConfigurableScene._setupState getImage st ?w0] =>
      destruct (setupState_button target st c w0 Hst)
        as (Hstates & _ & Hheap & Hent & _)
  end.
  by rewrite Hstates, Hheap, Hent.
Qed.

(** A hit on the button of the one state makes the button of the other
    and leaves it ahead of the loop. *)
Lemma click_leaves_button_ahead (A B : StateConfig) (cA cB c : EntityConfig)
    (x y : num) (index : nat) id h (w : World) :
  button_state (st_name B) A cA → button_state (st_name A) B cB →
  st_name A ≠ st_name B →
  Button_hit (_createButton cA) x y = true →
  Button_hit (_createButton cB) x y = true →
  states w = [A; B] →
  entities w !! index = Some (Some (id, h)) →
  heap w !! h = Some (_createButton c) → c = cA ∨ c = cB →
  let w' := ConfigurableScene.checkClick getImage audioManager Button_hit
              switchScene h x y w in
  states w' = [A; B] ∧ button_ahead cA cB (S index) w'.
Proof.
  intros HA HB Hne HhitA HhitB Hstates Hentry Hheap Hc w'.
  assert (Hhit : Button_hit (_createButton c) x y = true)
    by (by destruct Hc as [-> | ->]).
  assert (Hother : ∃ back st c',
             button_state back st c'
             ∧ (∃ action, cfg_onClick c = Some action
                          ∧ act_action action = "switchState"
                          ∧ act_target action = Some (st_name st))
             ∧ st_name st ≠ ""
             ∧ (c' = cA ∨ c' = cB)
             ∧ ∃ i, findIndex (st_name st) [A; B] = Some i
                    ∧ [A; B] !! i = Some st).
  { destruct Hc as [-> | ->].
    - exists (st_name A), B, cB.
      destruct HA as (_ & _ & _ & _ & _ & Htarget & Haction).
      split; [done|]. split; [done|]. split; [done|].
      split; [by right|]. exists 1%nat. cbn [findIndex].
      apply String.eqb_neq in Hne. rewrite Hne, String.eqb_refl. done.
    - exists (st_name B), A, cA.
      destruct HB as (_ & _ & _ & _ & _ & Htarget & Haction).
      split; [done|]. split; [done|]. split; [done|].
      split; [by left|]. exists 0%nat. cbn [findIndex].
      by rewrite String.eqb_refl. }
  destruct Hother as (back & st & c' & Hst & (action & Hclick & Hact & Htarget)
                      & Hnonempty & Hc' & i & Hfind & Hi).
  assert (Hw' : w' = _switchToState (st_name st)
                       (emit [Log_ButtonAction (name w) action]
                          (emit [Call_checkClick h x y] w))).
  { unfold w', ConfigurableScene.checkClick. cbv zeta. cbn [heap emit].
    rewrite Hheap, Hhit. unfold _createButton, new_Button. cbn [kind].
    rewrite Hclick. unfold ConfigurableScene._handleButtonAction. cbv zeta.
    rewrite Hact, Htarget.
    change (String.eqb "switchState" "switchScene") with false.
    change (String.eqb "switchState" "switchState") with true.
    cbv iota. cbn [truthy_str name emit].
    apply String.eqb_neq in Hnonempty. by rewrite Hnonempty. }
  destruct (switchToState_button back st c'
              (emit [Log_ButtonAction (name w) action]
                 (emit [Call_checkClick h x y] w)) i Hst)
    as (Hstates' & Hheap' & Hent').
  { cbn [states emit]. by rewrite Hstates. }
  { cbn [states emit]. by rewrite Hstates. }
  cbn [states heap entities emit] in Hstates', Hheap', Hent'.
  rewrite Hw', Hstates'. split; [done|].
  pose proof (lookup_lt_Some _ _ _ Hentry) as Hlt.
  exists (length (entities w)), (default "" (cfg_id c')), (length (heap w)), c'.
  split; [lia|]. split; [|split; [|split; [|done]]].
  - intros j Hj. rewrite Hent'. apply lookup_cleared_l. lia.
  - rewrite Hent'. apply lookup_cleared_r.
  - rewrite Hheap'. rewrite lookup_app_r by lia. by rewrite Nat.sub_diag.
Qed.

Lemma clicks_run_on (A B : StateConfig) (cA cB : EntityConfig) (x y : num) :
  button_state (st_name B) A cA → button_state (st_name A) B cB →
  st_name A ≠ st_name B →
  Button_hit (_createButton cA) x y = true →
  Button_hit (_createButton cB) x y = true →
  ∀ fuel index (w : World),
    states w = [A; B] → button_ahead cA cB index w →
    ∃ w', handleButtonClicks_from fuel index x y w = OutOfFuel w'.
Proof.
  intros HA HB Hne HhitA HhitB.
  induction fuel as [|fuel IH]; intros index w Hstates Hahead;
    [by exists w|].
  destruct Hahead as (k & id & h & c & Hk & Hempty & Hentry & Hheap & Hc).
  cbn [ConfigurableScene.handleButtonClicks_from].
  destruct (decide (index = k)) as [->|Hlt].
  - rewrite Hentry, Hheap.
    change (has_checkClick (_createButton c)) with true. cbv iota.
    destruct (click_leaves_button_ahead A B cA cB c x y k id h w
                HA HB Hne HhitA HhitB Hstates Hentry Hheap Hc)
      as [Hstates' Hahead'].
    by apply IH.
  - rewrite (Hempty index) by lia. apply IH; [done|].
    exists k, id, h, c. split; [lia|]. split; [|done].
    intros j Hj. apply Hempty. lia.
Qed.

(** X26. Two states that clear the layers and have a button each, where
    the button of the one switches to the other: once the scene is
    entered, an update with the pointer pressed on a point that hits
    both buttons does not return. The hit switches the state, the switch
    records the button of the other state behind the entry the loop is
    at, the loop reaches it in the same pass and hits it in turn: every
    budget of loop turns is used up. *)
Theorem press_can_hang (A B : StateConfig) (cA cB : EntityConfig)
    (mouse : Mouse) (dt : num) (w : World) :
  button_state (st_name B) A cA → button_state (st_name A) B cB →
  st_name A ≠ st_name B →
  Button_hit (_createButton cA) (mouse_x mouse) (mouse_y mouse) = true →
  Button_hit (_createButton cB) (mouse_x mouse) (mouse_y mouse) = true →
  states w = [A; B] → pressed mouse = true →
  ∀ fuel,
    ∃ w', update fuel mouse dt
            (ConfigurableScene.populateLayers getImage (enter w))
          = OutOfFuel w'.
Proof.
  intros HA HB Hne HhitA HhitB Hstates Hpressed fuel.
  assert (Henter : states (enter w) = [A; B] ∧ currentStateIndex (enter w) = 0%nat).
  { unfold enter. cbv zeta. cbn [states set_stateTimer set_currentStateIndex].
    rewrite Hstates. done. }
  destruct Henter as [Hstates1 Hidx1].
  unfold ConfigurableScene.populateLayers. rewrite Hstates1.
  destruct (setupState_button (st_name B) A cA (enter w) HA)
    as (Hstates2 & Hidx2 & Hheap2 & Hent2 & Hanim2).
  set (w2 := ConfigurableScene._setupState getImage A (enter w)) in *.
  unfold ConfigurableScene.update. rewrite Hstates2, Hstates1, Hidx2, Hidx1.
  cbn [lookup list_lookup]. cbv zeta. rewrite Hpressed.
  unfold ConfigurableScene._updateAnimations.
  cbn [entityAnimations heap set_stateTimer]. rewrite Hanim2.
  rewrite InterpreterMore.animate_entries_clear.
  unfold ConfigurableScene._handleButtonClicks.
  match goal with
  | |- context [ConfigurableScene.handleButtonClicks_from _ _ _ _ _ _ _ _ ?w3] =>
      destruct (clicks_run_on A B cA cB (mouse_x mouse) (mouse_y mouse)
                  HA HB Hne HhitA HhitB fuel 0 w3) as [w' Hrun]
  end.
  - cbn [states set_entityAnimations set_heap set_stateTimer].
    by rewrite Hstates2.
  - exists (length (entities (enter w))), (default "" (cfg_id cA)),
      (length (heap (enter w))), cA.
    cbn [entities heap set_entityAnimations set_heap set_stateTimer].
    rewrite Hent2, Hheap2.
    assert (Hlen : length (JsMap.clear (entities (enter w)))
                   = length (entities (enter w))).
    { unfold JsMap.clear. by rewrite length_fmap. }
    split; [lia|]. split; [|split; [|split; [|by left]]].
    + intros j Hj. apply lookup_cleared_l. lia.
    + apply lookup_cleared_r.
    + rewrite lookup_app_r by lia. by rewrite Nat.sub_diag.
  - exists w'. by rewrite Hrun.
Qed.

End More.
End ClickLoopMore.

(** * The further statements at sample content *)

Module MoreInstances.
Import ConfigurableScene.

(** ** The compositor *)

Lemma reachable_seven_layers_witness :
  LayerManager.reachable (LayerManager.constructor (val := nat))
  ∧ (∃ es : list nat,
       LayerManager.layerEntities LayerManager.constructor !! "TEXT" = Some es
       ∧ NoDup es)
  ∧ LayerManager.layerEntities (LayerManager.constructor (val := nat)) !! "MAIN"
    = None.
Proof.
  split; [apply LayerManager.reach_constructor|]. split.
  - exact (proj1 (LayerManagerMore.reachable_seven_layers
                    LayerManager.constructor LayerManager.reach_constructor
                    "TEXT") eq_refl).
  - exact (proj2 (LayerManagerMore.reachable_seven_layers
                    (LayerManager.constructor (val := nat))
                    LayerManager.reach_constructor "MAIN") eq_refl).
Defined.

(** Entity 42 is taken out of SPRITES; a removal from MAIN does nothing. *)
Lemma removeFromLayer_removes_witness :
  let lm := SceneManager.layerManager Sample.engine in
  LayerManager.reachable lm
  ∧ LayerManager.removeFromLayer 42 "MAIN" lm = lm
  ∧ ∃ es,
      LayerManager.layerEntities lm !! "SPRITES" = Some es
      ∧ LayerManager.layerEntities
          (LayerManager.removeFromLayer 42 "SPRITES" lm) !! "SPRITES"
        = Some (filter (λ e', e' ≠ 42) es).
Proof.
  intros lm.
  assert (Hr : LayerManager.reachable lm).
  { apply LayerManager.reach_addToLayer, LayerManager.reach_constructor. }
  split; [exact Hr|]. split.
  - exact (proj1 (LayerManagerMore.removeFromLayer_removes (λ _, true)
                    lm 42 "MAIN") eq_refl).
  - destruct (proj2 (LayerManagerMore.removeFromLayer_removes (λ _, true)
                       lm 42 "SPRITES") Hr eq_refl)
      as (es & Hes & Hafter & _).
    exists es. split; [exact Hes|exact Hafter].
Defined.

Lemma add_then_remove_witness :
  LayerManager.reachable (LayerManager.constructor (val := nat))
  ∧ LayerManager.hasOwnProperty "SPRITES" = true
  ∧ LayerManager.removeFromLayer 7 "SPRITES"
      (LayerManager.addToLayer 7 "SPRITES" LayerManager.constructor).1
    = LayerManager.constructor.
Proof.
  split; [apply LayerManager.reach_constructor|]. split; [reflexivity|].
  apply (LayerManagerMore.add_then_remove LayerManager.constructor 7 "SPRITES"
           LayerManager.reach_constructor eq_refl).
  intros es Hes.
  rewrite LayerManagerProps.constructor_lookup in Hes by reflexivity.
  injection Hes as <-. apply not_elem_of_nil.
Defined.

(** Entity 42 of the sample engine is drawn, and it is on a layer. *)
Lemma render_invokes_witness :
  let lm := SceneManager.layerManager Sample.engine in
  42 ∈ LayerManager.render (λ _, true) lm
  ∧ ∃ layerName es,
      LayerManager.hasOwnProperty layerName = true
      ∧ LayerManager.layerEntities lm !! layerName = Some es ∧ 42 ∈ es.
Proof.
  intros lm.
  assert (Hin : 42 ∈ LayerManager.render (λ _, true) lm).
  { assert (LayerManager.render (λ _, true) lm = [42]) as ->
      by (vm_compute; reflexivity).
    by left. }
  split; [exact Hin|].
  exact (proj2 (proj1 (LayerManagerMore.render_invokes (λ _, true) lm 42) Hin)).
Defined.

Lemma clearAll_empties_witness :
  LayerManager.hasOwnProperty "SPRITES" = true
  ∧ LayerManager.layerEntities
      (LayerManager.clearAll (SceneManager.layerManager Sample.engine))
    !! "SPRITES" = Some [].
Proof.
  split; [reflexivity|].
  exact (proj1 (LayerManagerMore.clearAll_empties (λ _, true)
                  (SceneManager.layerManager Sample.engine))
               "SPRITES" eq_refl).
Defined.

Lemma clearLayer_one_layer_witness :
  let lm := SceneManager.layerManager Sample.engine in
  LayerManager.clearLayer "MAIN" lm = lm
  ∧ LayerManager.layerEntities (LayerManager.clearLayer "SPRITES" lm)
    !! "SPRITES" = Some []
  ∧ LayerManager.layerEntities (LayerManager.clearLayer "TEXT" lm) !! "SPRITES"
    = LayerManager.layerEntities lm !! "SPRITES".
Proof.
  intros lm. split; [|split].
  - exact (proj1 (LayerManagerMore.clearLayer_one_layer (λ _, true) lm "MAIN")
                 eq_refl).
  - exact (proj1 (proj2 (LayerManagerMore.clearLayer_one_layer (λ _, true)
                           lm "SPRITES") eq_refl)).
  - apply (proj1 (proj2 (proj2 (LayerManagerMore.clearLayer_one_layer
                                  (λ _, true) lm "TEXT") eq_refl))).
    discriminate.
Defined.

(** ** The scene controller *)

Lemma switchTo_registered_witness :
  SceneManager.switchTo Sample.hooks "game"
    (SceneManager.register "game" 1 Sample.engine)
  = SceneManager.changeScene Sample.hooks (Some 1)
      (SceneManager.register "game" 1 Sample.engine)
  ∧ JsMap.get "game" (SceneManager.scenes Sample.engine) = None
  ∧ SceneManager.switchTo Sample.hooks "game" Sample.engine
    = SceneManager.warn (Warn_SceneNotFound "game") Sample.engine
  ∧ JsMap.get "menu"
      (SceneManager.scenes (SceneManager.register "game" 1 Sample.engine))
    = JsMap.get "menu" (SceneManager.scenes Sample.engine).
Proof.
  pose proof (SceneManagerMore.switchTo_registered Sample.hooks "game" 1
                Sample.engine) as (Hswitch & _ & Hother & Hunknown).
  split; [exact Hswitch|]. split; [reflexivity|]. split.
  - exact (proj1 (Hunknown eq_refl)).
  - apply Hother. discriminate.
Defined.

(** ** The Pong scene *)

(** Entity 0 is the background: it is the one entity on a layer. *)
Lemma populateLayers_background_only_witness :
  let populated :=
    PongScene.populateLayers 0 1 2 3 4
      (LayerManager.clearAll LayerManager.constructor) in
  LayerManager.layerEntities populated.1 !! "BG_FAR" = Some [0]
  ∧ 0 ∈ [0]
  ∧ (0 = 0 ∧ "BG_FAR" = "BG_FAR").
Proof.
  intros populated.
  assert (Hes : LayerManager.layerEntities populated.1 !! "BG_FAR" = Some [0])
    by (vm_compute; reflexivity).
  assert (Hin : 0 ∈ [0]) by (by left).
  split; [exact Hes|]. split; [exact Hin|].
  exact (proj2 (proj2 (PongSceneProps.populateLayers_background_only
                         (λ _ : nat, true) 0 1 2 3 4 LayerManager.constructor))
               "BG_FAR" [0] 0 eq_refl Hes Hin).
Defined.


Lemma ball_speed_constant_witness :
  let s := PongScene.init (λ _, Num.half) in
  let keys := PongScene.mkKeys true false false false in
  PongScene.abs (PongScene.ballVelX s) = PongScene.ballSpeed
  ∧ PongScene.abs
      (PongScene.ballVelX
         (PongScene.update (λ _, Num.half) (Num.ofQ (1 # 60)) keys s))
    = PongScene.ballSpeed.
Proof.
  intros s keys.
  assert (Hs : PongScene.abs (PongScene.ballVelX s) = PongScene.ballSpeed)
    by num_eq.
  split; [exact Hs|].
  exact (proj1 (PongSceneMore.ball_speed_constant (λ _, Num.half)
                  (Num.ofQ (1 # 60)) keys s Hs)).
Defined.

(** ** The scene interpreter *)


(** The text of the sample is found under its id [done]. *)
Lemma getEntity_after_setup_witness :
  _createEntity Sample.no_image Sample.done_text
  = (Some (_createText Sample.done_text), [])
  ∧ cfg_id Sample.done_text = Some "done"
  ∧ getEntity "done"
      (setupEntity Sample.no_image "TEXT" Sample.done_text Sample.scene)
    = Some 0.
Proof.
  split; [reflexivity|]. split; [reflexivity|].
  refine (proj1 (InterpreterMore.getEntity_after_setup Sample.no_image "TEXT"
                   Sample.done_text Sample.scene
                   (_createText Sample.done_text) [] "done"
                   eq_refl eq_refl _)).
  discriminate.
Defined.

(** MAIN is no layer: the text is made and the compositor is not told. *)
Lemma setup_unknown_layer_witness :
  LayerManager.hasOwnProperty "MAIN" = false
  ∧ layerManager
      (setupEntity Sample.no_image "MAIN" Sample.done_text Sample.scene)
    = layerManager Sample.scene
  ∧ console (setupEntity Sample.no_image "MAIN" Sample.done_text Sample.scene)
    = console Sample.scene ++ [Warn_UnknownLayer "MAIN"].
Proof.
  split; [reflexivity|].
  pose proof (InterpreterMore.setup_unknown_layer Sample.no_image "MAIN"
                Sample.done_text Sample.scene (_createText Sample.done_text)
                [] eq_refl eq_refl) as (Hlm & Hcon & _).
  split; [exact Hlm|exact Hcon].
Defined.

(** State B clears: after its setup nothing refers to the sprite that
    was there. *)
Lemma clearing_state_starts_afresh_witness :
  st_clearLayers Sample.state_B = true
  ∧ Vocabulary.made_since 1
      (_setupState Sample.no_image Sample.state_B Sample.scene_with_sprite).
Proof.
  split; [reflexivity|].
  exact (InterpreterMore.clearing_state_starts_afresh Sample.no_image
           Sample.state_B Sample.scene_with_sprite eq_refl).
Defined.

(** State C does not clear: the button that state A has put on
    UI_BUTTONS is still the first there. *)
Lemma setupState_only_adds_witness :
  let w := _setupState Sample.no_image Sample.state_A Sample.scene in
  st_clearLayers Sample.state_C = false
  ∧ LayerManager.layerEntities (layerManager w) !! "UI_BUTTONS" = Some [0]
  ∧ ∃ es',
      LayerManager.layerEntities
        (layerManager (_setupState Sample.no_image Sample.state_C w))
      !! "UI_BUTTONS" = Some es'
      ∧ [0] `prefix_of` es'.
Proof.
  intros w. split; [reflexivity|].
  assert (Hes : LayerManager.layerEntities (layerManager w) !! "UI_BUTTONS"
                = Some [0]) by (vm_compute; reflexivity).
  split; [exact Hes|].
  exact (proj2 (InterpreterMore.setupState_only_adds Sample.no_image
                  Sample.state_C w) eq_refl "UI_BUTTONS" [0] Hes).
Defined.

Lemma switchToState_known_witness :
  "B" ∈ st_name <$> states Sample.scene
  ∧ ∃ i st,
      states Sample.scene !! i = Some st ∧ st_name st = "B"
      ∧ (∀ j st', (j < i)%nat → states Sample.scene !! j = Some st' →
                  st_name st' ≠ "B")
      ∧ currentStateIndex (_switchToState Sample.no_image "B" Sample.scene) = i.
Proof.
  assert (Hin : "B" ∈ st_name <$> states Sample.scene) by (right; left).
  split; [exact Hin|].
  destruct (InterpreterMore.switchToState_known Sample.no_image "B"
              Sample.scene Hin) as (i & st & Hst & Hname & Hfirst & Hidx & _).
  exists i, st. split; [exact Hst|]. split; [exact Hname|].
  split; [exact Hfirst|exact Hidx].
Defined.

(** A press that misses the one button of the scene. *)
Lemma clicks_that_miss_witness :
  let w := setupEntity Sample.no_image "UI_BUTTONS" Sample.ok_button
             Sample.scene in
  (length (entities w) < 2)%nat
  ∧ Vocabulary.click_calls (mouse_x Sample.press) (mouse_y Sample.press)
      (heap w) (entities w)
    = [Call_checkClick 0 (Num.ofZ 15) (Num.ofZ 25)]
  ∧ _handleButtonClicks Sample.no_image false Sample.never_hit Sample.stay 2
      Sample.press w
    = Done (emit (Vocabulary.click_calls (mouse_x Sample.press)
                    (mouse_y Sample.press) (heap w) (entities w)) w).
Proof.
  intros w.
  assert (Hfuel : (length (entities w) < 2)%nat) by (vm_compute; lia).
  split; [exact Hfuel|]. split; [reflexivity|].
  apply (InterpreterMore.clicks_that_miss Sample.no_image false
           Sample.never_hit Sample.stay 2 Sample.press w Hfuel).
  reflexivity.
Defined.

Lemma exit_forgets_witness :
  let w := setupEntity Sample.no_image "UI_BUTTONS" Sample.ok_button
             Sample.scene in
  getEntity "ok" w = Some 0
  ∧ getEntity "ok" (exit w) = None
  ∧ (length (entities w) < 2)%nat
  ∧ _handleButtonClicks Sample.no_image false Sample.always_hit Sample.stay 2
      Sample.press (exit w)
    = Done (exit w).
Proof.
  intros w.
  pose proof (InterpreterMore.exit_forgets Sample.flat_sin Sample.no_image
                false Sample.always_hit Sample.stay w)
    as (Hget & _ & _ & _ & Hclicks & _).
  assert (Hfuel : (length (entities w) < 2)%nat) by (vm_compute; lia).
  split; [reflexivity|]. split; [exact (Hget "ok")|]. split; [exact Hfuel|].
  exact (Hclicks 2 Sample.press Hfuel).
Defined.

(** ** The animation engine *)

Lemma updateAnimations_frame_witness :
  JsMap.wf (entityAnimations Sample.scene_with_sprite)
  ∧ heap (_updateAnimations Sample.flat_sin Num.one Sample.scene_with_sprite)
    !! 0 = Some Sample.sprite.
Proof.
  assert (Hwf : JsMap.wf (entityAnimations Sample.scene_with_sprite))
    by apply NoDup_nil_2.
  split; [exact Hwf|].
  refine (proj1 (proj2 (proj2
            (AnimationMore.updateAnimations_frame Sample.flat_sin Num.one
               Sample.scene_with_sprite Hwf))) 0 _).
  apply not_elem_of_nil.
Defined.


Lemma applyEasing_range_witness :
  (0 <= Q2Qc (1 # 4))%Qc ∧ (Q2Qc (1 # 4) <= Q2Qc (1 # 2))%Qc
  ∧ (Q2Qc (1 # 2) <= 1)%Qc
  ∧ ∃ r r',
      _applyEasing (Fin (Q2Qc (1 # 4))) "easeInOut" = Fin r
      ∧ _applyEasing (Fin (Q2Qc (1 # 2))) "easeInOut" = Fin r'
      ∧ (0 <= r)%Qc ∧ (r <= r')%Qc ∧ (r' <= 1)%Qc.
Proof.
  assert (H0 : (0 <= Q2Qc (1 # 4))%Qc)
    by (apply NumProps.Qc_leb_le; vm_compute; reflexivity).
  assert (Hle : (Q2Qc (1 # 4) <= Q2Qc (1 # 2))%Qc)
    by (apply NumProps.Qc_leb_le; vm_compute; reflexivity).
  assert (H1 : (Q2Qc (1 # 2) <= 1)%Qc)
    by (apply NumProps.Qc_leb_le; vm_compute; reflexivity).
  split; [exact H0|]. split; [exact Hle|]. split; [exact H1|].
  destruct (AnimationMore.applyEasing_range "easeInOut" _ _ H0 Hle H1)
    as (r & r' & Hr & Hr' & Hr0 & Hrr & Hr1 & _).
  exists r, r'. repeat split; assumption.
Defined.



(** ** A press that does not end *)

(** The menu and the game have their button at the same place: a press
    there uses up a budget of 100 turns, and any other. *)
Lemma press_can_hang_witness :
  let w := set_states [Sample.state_menu; Sample.state_game] Sample.scene in
  Vocabulary.button_state "game" Sample.state_menu
    (Sample.switch_button "next" "Next" "game")
  ∧ Vocabulary.button_state "menu" Sample.state_game
      (Sample.switch_button "back" "Back" "menu")
  ∧ pressed Sample.press = true
  ∧ ∃ w', update Sample.flat_sin Sample.no_image false Sample.always_hit
            Sample.stay 100 Sample.press (Num.ofQ (1 # 60))
            (populateLayers Sample.no_image (enter w))
          = OutOfFuel w'.
Proof.
  intros w.
  assert (Hmenu : Vocabulary.button_state "game" Sample.state_menu
                    (Sample.switch_button "next" "Next" "game")).
  { split; [reflexivity|]. split; [by exists "UI_BUTTONS"|].
    split; [reflexivity|]. split; [reflexivity|]. split; [reflexivity|].
    split; [discriminate|]. by eexists. }
  assert (Hgame : Vocabulary.button_state "menu" Sample.state_game
                    (Sample.switch_button "back" "Back" "menu")).
  { split; [reflexivity|]. split; [by exists "UI_BUTTONS"|].
    split; [reflexivity|]. split; [reflexivity|]. split; [reflexivity|].
    split; [discriminate|]. by eexists. }
  split; [exact Hmenu|]. split; [exact Hgame|]. split; [reflexivity|].
  apply (ClickLoopMore.press_can_hang Sample.flat_sin Sample.no_image false
           Sample.always_hit Sample.stay Sample.state_menu Sample.state_game
           _ _ Sample.press (Num.ofQ (1 # 60)) w Hmenu Hgame);
    [discriminate|reflexivity|reflexivity|reflexivity|reflexivity].
Defined.

End MoreInstances.
